(** * Sandbox session lifecycle manager

    A shallow embedding of [src/services/DockerService.ts] (the session
    registry, provisioning, exec, teardown and the age-based sweep) and of
    the parts of [src/services/ClaudeCodeService.ts] that drive it
    (create-or-attach, [executeClaudeCode], artifact classification).

    The services are asynchronous JavaScript.  Every method is embedded as
    a finite tree of steps ([Prog]): synchronous accesses to the session
    map, clock reads, and [await]s on the container engine, the file system
    and the chat server.  The same tree is run in two ways: to completion
    ([run], one call at a time) and interleaved with other calls at its
    [await]s ([run_schedule]), which is how Node's event loop runs it. *)

From Stdlib Require Import ZArith String Ascii List Lia Permutation.
From stdpp Require Import base list strings pretty.

Open Scope string_scope.
Open Scope list_scope.

(** ** JavaScript values used by the services *)

(** A thrown value: an [Error] object with its message, or anything else
    (the handlers test [error instanceof Error]). *)
Inductive JsError :=
| Error (message : string)
| NonError.

(** Outcome of an awaited call: fulfilled or rejected. *)
Inductive Result (A : Type) :=
| Ok (a : A)
| Err (e : JsError).
Arguments Ok {A} a.
Arguments Err {A} e.

(** [Map<string, V>]: entries in insertion order, keys unique.  [set] on a
    present key overwrites the value in place, on an absent key appends. *)
Module JsMap.
Section Ops.
Context {V : Type}.

Fixpoint get (k : string) (m : list (string * V)) : option V :=
  match m with
  | [] => None
  | (k', v) :: m' => if String.eqb k' k then Some v else get k m'
  end.

Fixpoint set (k : string) (v : V) (m : list (string * V)) : list (string * V) :=
  match m with
  | [] => [(k, v)]
  | (k', v') :: m' =>
      if String.eqb k' k then (k', v) :: m' else (k', v') :: set k v m'
  end.

Fixpoint delete (k : string) (m : list (string * V)) : list (string * V) :=
  match m with
  | [] => []
  | (k', v') :: m' =>
      if String.eqb k' k then m' else (k', v') :: delete k m'
  end.

Definition keys (m : list (string * V)) : list string := map fst m.
Definition values (m : list (string * V)) : list V := map snd m.
End Ops.
End JsMap.

(** ** Data model ([src/types]) *)

Inductive SessionStatus := running | completed | failed.

(** [createdAt] is the [Date]'s time value, milliseconds since the epoch. *)
Record ClaudeCodeSession := {
  id : string;
  containerId : string;
  threadId : string;
  channelId : string;
  userId : string;
  status : SessionStatus;
  createdAt : Z;
}.

Definition with_status (st : SessionStatus) (s : ClaudeCodeSession) : ClaudeCodeSession :=
  {| id := id s; containerId := containerId s; threadId := threadId s;
     channelId := channelId s; userId := userId s; status := st;
     createdAt := createdAt s |}.

Inductive ArtifactType := file | code.

Record Artifact := {
  type : ArtifactType;
  path : string;
  content : string;
}.

(** Optional fields of [ClaudeCodeResponse] are [option]s: [None] is an
    absent ([undefined]) field. *)
Record ClaudeCodeResponse := {
  success : bool;
  output : option string;
  error : option string;
  artifacts : option (list Artifact);
}.

Record Config := {
  docker_imageName : string;
  docker_workspaceVolume : string;
  claude_apiKey : string;
}.

(** ** The heap of session objects and the session map

    Session objects are shared: [createSession] stores the object in the map
    and hands the same object to its caller, and [stopSession] mutates its
    [status].  Objects live in [heap] (indexed by allocation order) and the
    map stores references. *)
Definition ref := nat.

Record Store := {
  sessions : list (string * ref);
  heap : list ClaudeCodeSession;
}.

Definition empty_store : Store := {| sessions := []; heap := [] |}.

(** ** External calls *)

Record ContainerCreateOptions := {
  Image : string;
  name : string;
  Env : list string;
  Binds : list string;
  WorkingDir : string;
}.

(** What a recursive walk of a workspace meets: for every entry, what
    [readFile] (for anything that is not a directory) or the nested
    [readdir] (for a directory) answers. *)
#[warnings="-register-all"]
Inductive Dirent :=
| FileEntry (entry_name : string) (read : Result string)
| DirEntry (entry_name : string) (entries : Result (list Dirent)).

Inductive Request :=
| fs_mkdir (dir : string)
| fs_readdir (dir : string)
| docker_createContainer (opts : ContainerCreateOptions)
| container_start (cid : string)
| container_stop (cid : string) (t : Z)
| container_remove (cid : string)
| container_exec (cid : string) (Cmd : list string)
| mattermost_addReaction (postId emoji : string)
| mattermost_sendMessage (channel message rootId : string).

(** The value an awaited request is fulfilled with.  [fs_readdir] on the
    workspace root answers with the tree the walk is about to see;
    [container_exec] with the demultiplexed [(stdout, stderr)]. *)
Definition Reply (r : Request) : Type :=
  match r with
  | fs_readdir _ => list Dirent
  | docker_createContainer _ => string
  | container_exec _ _ => (string * string)%type
  | _ => unit
  end.

(** The environment: the container engine, the file system and the chat
    server answer requests and may change while doing so; [clock] is
    [Date.now()]. *)
Class World := {
  W : Type;
  perform : forall r : Request, W -> W * Result (Reply r);
  clock : W -> Z;
  config : Config;
}.

(** ** Asynchronous programs *)

Inductive Prog (A : Type) : Type :=
| Ret (a : A)
| Throw (e : JsError)
| Sync {X : Type} (f : Store -> Store * X) (k : X -> Prog A)
| Now (k : Z -> Prog A)
| Await (r : Request) (k : Result (Reply r) -> Prog A).
Arguments Ret {A} a.
Arguments Throw {A} e.
Arguments Sync {A X} f k.
Arguments Now {A} k.
Arguments Await {A} r k.

Fixpoint bind {A B : Type} (p : Prog A) (g : A -> Prog B) : Prog B :=
  match p with
  | Ret a => g a
  | Throw e => Throw e
  | Sync f k => Sync f (fun x => bind (k x) g)
  | Now k => Now (fun t => bind (k t) g)
  | Await r k => Await r (fun x => bind (k x) g)
  end.

(** [try { p } catch (e) { h e }] *)
Fixpoint try_catch {A : Type} (p : Prog A) (h : JsError -> Prog A) : Prog A :=
  match p with
  | Ret a => Ret a
  | Throw e => h e
  | Sync f k => Sync f (fun x => try_catch (k x) h)
  | Now k => Now (fun t => try_catch (k t) h)
  | Await r k => Await r (fun x => try_catch (k x) h)
  end.

(** [await r]: a rejection is rethrown at the [await]. *)
Definition await (r : Request) : Prog (Reply r) :=
  Await r (fun res => match res with Ok x => Ret x | Err e => Throw e end).

Definition sync {X : Type} (f : Store -> Store * X) : Prog X := Sync f Ret.
Definition read {X : Type} (f : Store -> X) : Prog X := sync (fun s => (s, f s)).
Definition write (f : Store -> Store) : Prog unit := sync (fun s => (f s, tt)).
Definition Date_now : Prog Z := Now Ret.

Declare Scope prog_scope.
Delimit Scope prog_scope with prog.
Notation "x <- p ;; q" := (bind p (fun x => q))
  (at level 100, p at next level, right associativity) : prog_scope.
Notation "p ;; q" := (bind p (fun _ => q))
  (at level 100, right associativity) : prog_scope.
Open Scope prog_scope.

(** ** Running a program to completion *)

Section Run.
Context `{World}.

(** The registry and heap, the environment, and the requests issued so
    far (oldest first). *)
Record State := {
  store : Store;
  world : W;
  calls : list Request;
}.

Definition init (w : W) : State :=
  {| store := empty_store; world := w; calls := [] |}.

(** The state after synchronous code changed the store. *)
Definition set_store (st : State) (s : Store) : State :=
  {| store := s; world := world st; calls := calls st |}.

(** The state after request [r] was answered, leaving the world at [w]. *)
Definition answered (st : State) (r : Request) (w : W) : State :=
  {| store := store st; world := w; calls := calls st ++ [r] |}.

Fixpoint run {A : Type} (p : Prog A) (st : State) : State * Result A :=
  match p with
  | Ret a => (st, Ok a)
  | Throw e => (st, Err e)
  | Sync f k => let '(s', x) := f (store st) in run (k x) (set_store st s')
  | Now k => run (k (clock (world st))) st
  | Await r k =>
      let '(w', res) := perform r (world st) in
      run (k res) (answered st r w')
  end.
End Run.

(** ** JavaScript string helpers *)

Definition dquote : ascii := "034"%char.
Definition backslash : ascii := "092"%char.

(** [s.endsWith(suffix)] *)
Definition endsWith (s suffix : string) : bool :=
  let n := String.length s in
  let m := String.length suffix in
  if Nat.leb m n then String.eqb (substring (n - m) m s) suffix else false.

(** [s.replace(/"/g, '\\"')]: every double quote becomes backslash, quote;
    every other character is copied. *)
Fixpoint replace_quotes (s : string) : string :=
  match s with
  | EmptyString => EmptyString
  | String c s' =>
      if Ascii.eqb c dquote
      then String backslash (String dquote (replace_quotes s'))
      else String c (replace_quotes s')
  end.

(** A string in a boolean position: only the empty string is falsy. *)
Definition truthy (s : string) : bool := negb (String.eqb s "").

(** [path.join(a, b)] for the two uses in the walk: an empty first segment
    is dropped.  Entry names hold no separator; normalisation is not
    modelled. *)
Definition path_join (a b : string) : string :=
  if String.eqb a "" then b else a +:+ "/" +:+ b.

(** ** DockerService *)

Module DockerService.
Section Methods.
Context `{World}.

(** [new] object: allocate and return the reference. *)
Definition alloc (s : ClaudeCodeSession) : Prog ref :=
  sync (fun st =>
    ({| sessions := sessions st; heap := heap st ++ [s] |}, length (heap st))).

(** Read the object behind a reference.  References only come from
    [alloc] and the heap only grows, so the [Throw] branch is never
    taken (see [run_deref]). *)
Definition deref (a : ref) : Prog ClaudeCodeSession :=
  o <- read (fun st => heap st !! a);;
  match o with
  | Some s => Ret s
  | None => Throw NonError
  end.

Definition sessions_get (k : string) : Prog (option ref) :=
  read (fun st => JsMap.get k (sessions st)).

Definition sessions_set (k : string) (a : ref) : Prog unit :=
  write (fun st => {| sessions := JsMap.set k a (sessions st); heap := heap st |}).

Definition sessions_delete (k : string) : Prog unit :=
  write (fun st => {| sessions := JsMap.delete k (sessions st); heap := heap st |}).

(** [session.status = v] *)
Definition set_status (a : ref) (v : SessionStatus) : Prog unit :=
  write (fun st =>
    {| sessions := sessions st;
       heap := match heap st !! a with
               | Some s => <[a := with_status v s]> (heap st)
               | None => heap st
               end |}).

(** [path.join(config.docker.workspaceVolume, sessionId)] *)
Definition workspaceOf (sessionId : string) : string :=
  path_join (docker_workspaceVolume config) sessionId.

Definition createWorkspace (sessionId : string) : Prog string :=
  let workspacePath := workspaceOf sessionId in
  await (fs_mkdir workspacePath);;
  Ret workspacePath.

(** The argument of [docker.createContainer]. *)
Definition containerOptions (sessionId threadId workspacePath : string)
  : ContainerCreateOptions :=
  {| Image := docker_imageName config;
     name := sessionId;
     Env := [ "ANTHROPIC_API_KEY=" +:+ claude_apiKey config;
              "SESSION_ID=" +:+ sessionId;
              "THREAD_ID=" +:+ threadId ];
     Binds := [ workspacePath +:+ ":/workspace" ];
     WorkingDir := "/workspace" |}.

(** The object literal [createSession] builds. *)
Definition newSession (sessionId threadId channelId userId container : string)
    (now : Z) : ClaudeCodeSession :=
  {| id := sessionId;
     containerId := container;
     threadId := threadId;
     channelId := channelId;
     userId := userId;
     status := running;
     createdAt := now |}.

Definition createSession (threadId channelId userId : string) : Prog ref :=
  try_catch
    (let sessionId := threadId in
     workspacePath <- createWorkspace sessionId;;
     container <- await (docker_createContainer
                           (containerOptions sessionId threadId workspacePath));;
     now <- Date_now;;
     session <- alloc (newSession sessionId threadId channelId userId container now);;
     sessions_set sessionId session;;
     await (container_start container);;
     Ret session)
    (fun error => Throw error).

Definition executeCommand (sessionId : string) (command : list string)
  : Prog (string * string) :=
  try_catch
    (session <- sessions_get sessionId;;
     match session with
     | None => Throw (Error ("Session not found: " +:+ sessionId))
     | Some a =>
         s <- deref a;;
         await (container_exec (containerId s) command)
     end)
    (fun error => Throw error).

Definition stopSession (sessionId : string) : Prog unit :=
  try_catch
    (session <- sessions_get sessionId;;
     match session with
     | None => Ret tt
     | Some a =>
         s <- deref a;;
         await (container_stop (containerId s) 10);;
         await (container_remove (containerId s));;
         set_status a completed;;
         sessions_delete sessionId
     end)
    (fun error => Throw error).

(** The walk of [getWorkspaceFiles]: [files] is the array the closure
    pushes to; a rejected [readdir] or [readFile] ends the walk. *)
Fixpoint readEntry (baseDir : string) (entry : Dirent) (files : list (string * string))
  : Result (list (string * string)) :=
  match entry with
  | DirEntry nm (Ok sub) =>
      (fix readDir (es : list Dirent) (files : list (string * string)) :=
         match es with
         | [] => Ok files
         | e :: es' =>
             match readEntry (path_join baseDir nm) e files with
             | Ok files' => readDir es' files'
             | Err er => Err er
             end
         end) sub files
  | DirEntry nm (Err er) => Err er
  | FileEntry nm (Ok text) => Ok (files ++ [(path_join baseDir nm, text)])
  | FileEntry nm (Err er) => Err er
  end.

Fixpoint readDir (baseDir : string) (es : list Dirent) (files : list (string * string))
  : Result (list (string * string)) :=
  match es with
  | [] => Ok files
  | e :: es' =>
      match readEntry baseDir e files with
      | Ok files' => readDir baseDir es' files'
      | Err er => Err er
      end
  end.

Definition getWorkspaceFiles (sessionId : string) : Prog (list (string * string)) :=
  try_catch
    (let workspacePath := workspaceOf sessionId in
     root <- await (fs_readdir workspacePath);;
     match readDir "" root [] with
     | Ok files => Ret files
     | Err er => Throw er
     end)
    (fun error => Throw error).

(** The loop of [cleanupOldSessions] over [this.sessions.entries()].
    While one sweep runs on its own, the only change to the map between
    two iterator steps is the deletion of the entry just visited, so
    the iterator yields the entries present when the loop starts. *)
Fixpoint sweep (now maxAge : Z) (entries : list (string * ref)) : Prog unit :=
  match entries with
  | [] => Ret tt
  | (sessionId, session) :: rest =>
      s <- deref session;;
      let age := (now - createdAt s)%Z in
      (if (age >? maxAge)%Z then stopSession sessionId else Ret tt);;
      sweep now maxAge rest
  end.

Definition cleanupOldSessions (maxAgeHours : Z) : Prog unit :=
  now <- Date_now;;
  let maxAge := (maxAgeHours * 60 * 60 * 1000)%Z in
  entries <- read sessions;;
  sweep now maxAge entries.

Definition find_by_thread (threadId' : string) (st : Store) : option ref :=
  List.find
    (fun a => match heap st !! a with
              | Some s => String.eqb (threadId s) threadId'
              | None => false
              end)
    (JsMap.values (sessions st)).

Definition getSessionByThread (threadId : string) : Prog (option ref) :=
  read (find_by_thread threadId).

Definition listSessions : Prog (list ref) :=
  read (fun st => JsMap.values (sessions st)).
End Methods.
End DockerService.

(** ** ClaudeCodeService *)

Module ClaudeCodeService.
Definition codeExtensions : list string :=
  [ ".ts"; ".js"; ".tsx"; ".jsx"; ".py"; ".java"; ".c"; ".cpp"; ".go";
    ".rs"; ".rb"; ".php"; ".swift"; ".kt"; ".cs"; ".html"; ".css";
    ".scss"; ".json"; ".yaml"; ".yml"; ".toml"; ".md"; ".sh"; ".bash" ].

Definition isCodeFile (filePath : string) : bool :=
  existsb (fun ext => endsWith filePath ext) codeExtensions.

Definition getFileType (filePath : string) : ArtifactType :=
  if isCodeFile filePath then code else file.

(** [files.map((file) => ({ type: ..., path: ..., content: ... }))] *)
Definition toArtifacts (files : list (string * string)) : list Artifact :=
  map (fun f => {| type := getFileType (fst f); path := fst f; content := snd f |})
      files.

(** The [sh -c] script that seeds the message file. *)
Definition seedScript (userMessage messageFile : string) : string :=
  "echo " +:+ String dquote (replace_quotes userMessage)
          +:+ String dquote (" > " +:+ messageFile).

Definition messageFileAt (now : Z) : string :=
  "/workspace/user_message_" +:+ pretty now +:+ ".txt".

(** The two commands [executeClaudeCode] execs in the container. *)
Definition seedCommand (userMessage messageFile : string) : list string :=
  [ "sh"; "-c"; seedScript userMessage messageFile ].

Definition toolCommand (userMessage : string) : list string :=
  [ "ccr"; "code"; "--allowedTools"; "Bash,Read";
    "--permission-mode"; "acceptEdits"; "-p"; userMessage ].

(** The object returned after the exec and the workspace read;
    [result] is [(stdout, stderr)]. *)
Definition resultResponse (result : string * string) (files : list (string * string))
  : ClaudeCodeResponse :=
  {| success := negb (truthy (snd result));
     output := Some (fst result);
     error := if truthy (snd result) then Some (snd result) else None;
     artifacts := Some (toArtifacts files) |}.

(** The object returned from the [catch] block. *)
Definition errorResponse (error : JsError) : ClaudeCodeResponse :=
  {| success := false;
     output := None;
     error := Some match error with
                   | Error message => message
                   | NonError => "Unknown error"
                   end;
     artifacts := None |}.

Section Methods.
Context `{World}.

(** [processMessage], from the lookup to the point where [session] is
    settled: the create-or-attach part of the handler.  The value is
    the session object the rest of the handler uses.  A rejected reaction
    ends the call here; [MattermostService.addReaction] swallows every
    rejection, so the runs of the code are the runs in which the reaction
    is answered. *)
Definition processMessage_session (channelId threadId userId : string) : Prog ref :=
  session <- DockerService.getSessionByThread threadId;;
  match session with
  | Some s => Ret s
  | None =>
      await (mattermost_addReaction threadId "hourglass");;
      s <- DockerService.createSession threadId channelId userId;;
      await (mattermost_sendMessage channelId
               "🤖 Starting Code-Generation session..." threadId);;
      Ret s
  end.

Definition executeClaudeCode (sessionId userMessage : string) : Prog ClaudeCodeResponse :=
  try_catch
    (now <- Date_now;;
     let messageFile := messageFileAt now in
     DockerService.executeCommand sessionId (seedCommand userMessage messageFile);;
     result <- DockerService.executeCommand sessionId (toolCommand userMessage);;
     files <- DockerService.getWorkspaceFiles sessionId;;
     Ret (resultResponse result files))
    (fun error => Ret (errorResponse error)).

Definition stopSession (threadId : string) : Prog unit :=
  session <- DockerService.getSessionByThread threadId;;
  match session with
  | Some a =>
      s <- DockerService.deref a;;
      DockerService.stopSession (id s)
  | None => Ret tt
  end.
End Methods.
End ClaudeCodeService.

(** ** Interleaved calls

    Node runs one call until it reaches an [await], then may run any other
    call that is ready.  A turn of a call answers the request it is
    suspended on and runs its synchronous code up to the next [await]. *)

Section Interleaving.
Context `{World}.

Fixpoint advance {A : Type} (p : Prog A) (st : State) : State * Prog A :=
  match p with
  | Sync f k => let '(s', x) := f (store st) in advance (k x) (set_store st s')
  | Now k => advance (k (clock (world st))) st
  | _ => (st, p)
  end.

(** One turn of a call: the answer to the request it awaits arrives and the
    call runs on to its next await.  The request is performed, and entered
    in the log, when its answer arrives, whereas the code sends it when the
    call suspends.  The stores at the awaits, the outcomes and the log of a
    settled call are those of the code; the log at an await does not hold
    the request in flight yet. *)
Definition turn {A : Type} (p : Prog A) (st : State) : State * Prog A :=
  match p with
  | Await r k =>
      let '(w', res) := perform r (world st) in
      advance (k res) (answered st r w')
  | _ => advance p st
  end.

(** The calls in flight, and a schedule: which call gets the next turn. *)
Definition step_pool {A : Type} (i : nat) (pool : list (Prog A)) (st : State)
  : State * list (Prog A) :=
  match pool !! i with
  | Some p => let '(st', p') := turn p st in (st', <[i := p']> pool)
  | None => (st, pool)
  end.

Fixpoint run_schedule {A : Type} (sched : list nat) (pool : list (Prog A)) (st : State)
  : State * list (Prog A) :=
  match sched with
  | [] => (st, pool)
  | i :: rest =>
      let '(st', pool') := step_pool i pool st in
      run_schedule rest pool' st'
  end.

(** What a finished call settled with. *)
Definition outcome {A : Type} (p : Prog A) : option (Result A) :=
  match p with
  | Ret a => Some (Ok a)
  | Throw e => Some (Err e)
  | _ => None
  end.

End Interleaving.

Definition is_create (r : Request) : bool :=
  match r with docker_createContainer _ => true | _ => false end.

Definition is_teardown (r : Request) : bool :=
  match r with container_stop _ _ | container_remove _ => true | _ => false end.

(** Number of containers the engine was asked to create. *)
Definition creations (log : list Request) : nat :=
  length (List.filter is_create log).

(** ** A simulated environment

    Used to run the services on concrete inputs: which requests are
    rejected is fixed by a [SimConfig]; the engine hands out container ids
    [c0], [c1], ... and every request takes [tick] milliseconds. *)

Record SimConfig := {
  mkdir_fails : bool;
  create_fails : bool;
  unique_names : bool;
  start_fails : list string;
  stop_fails : list string;
  exec_reply : list string -> Result (string * string);
  tree : Result (list Dirent);
  tick : Z;
}.

Record SimState := {
  created : list string;
  time : Z;
}.

Definition mem (x : string) (l : list string) : bool := existsb (String.eqb x) l.

Definition sim_perform (cfg : SimConfig) (r : Request) (w : SimState)
  : SimState * Result (Reply r) :=
  let w' := {| created := created w; time := (time w + tick cfg)%Z |} in
  match r as r0 return SimState * Result (Reply r0) with
  | fs_mkdir _ =>
      (w', if mkdir_fails cfg then Err (Error "EACCES: permission denied") else Ok tt)
  | fs_readdir _ => (w', tree cfg)
  | docker_createContainer opts =>
      if create_fails cfg then (w', Err (Error "No such image"))
      else if unique_names cfg && mem (name opts) (created w)
      then (w', Err (Error "Conflict. The container name is already in use"))
      else ({| created := created w ++ [name opts]; time := (time w + tick cfg)%Z |},
            Ok ("c" +:+ pretty (length (created w))))
  | container_start cid =>
      (w', if mem cid (start_fails cfg) then Err (Error "cannot start container") else Ok tt)
  | container_stop cid _ =>
      (w', if mem cid (stop_fails cfg) then Err (Error "cannot stop container") else Ok tt)
  | container_remove _ => (w', Ok tt)
  | container_exec _ cmd => (w', exec_reply cfg cmd)
  | mattermost_addReaction _ _ => (w', Ok tt)
  | mattermost_sendMessage _ _ _ => (w', Ok tt)
  end.

Definition sim_config : Config :=
  {| docker_imageName := "claude-code-runner";
     docker_workspaceVolume := "/tmp/claude-workspaces";
     claude_apiKey := "key" |}.

Definition sim (cfg : SimConfig) : World :=
  {| W := SimState; perform := sim_perform cfg; clock := time; config := sim_config |}.

(** Nothing fails; every exec prints [hi] and the workspace holds
    [out.txt] and [src/main.ts]. *)
Definition calm : SimConfig :=
  {| mkdir_fails := false;
     create_fails := false;
     unique_names := false;
     start_fails := [];
     stop_fails := [];
     exec_reply := fun _ => Ok ("hi", "");
     tree := Ok [ FileEntry "out.txt" (Ok "hi");
                  DirEntry "src" (Ok [ FileEntry "main.ts" (Ok "export {}") ]) ];
     tick := 1 |}.

Definition sim0 : SimState := {| created := []; time := 0 |}.

(** * Vocabulary of the properties *)

(** A program that never writes the store. *)
Inductive readonly {A : Type} : Prog A -> Prop :=
| ro_ret a : readonly (Ret a)
| ro_throw e : readonly (Throw e)
| ro_sync {X : Type} (f : Store -> Store * X) k :
    (forall s, fst (f s) = s) -> (forall x, readonly (k x)) -> readonly (Sync f k)
| ro_now k : (forall t, readonly (k t)) -> readonly (Now k)
| ro_await r k : (forall res, readonly (k res)) -> readonly (Await r k).

(** A well-formed store: keys are unique; every key leads to a live object
    that carries the key as its [id] and [threadId] and is [running]; no
    object is [failed]. *)
Definition wf_store (s : Store) : Prop :=
  List.NoDup (JsMap.keys (sessions s)) /\
  (forall k a, In (k, a) (sessions s) ->
     exists x, heap s !! a = Some x /\ id x = k /\ threadId x = k /\ status x = running) /\
  (forall (a : ref) x, heap s !! a = Some x -> status x <> failed).

(** Is the session behind entry [e] older than [maxAge] at time [now]? *)
Definition expired (now maxAge : Z) (h : list ClaudeCodeSession) (e : string * ref) : bool :=
  match h !! snd e with
  | Some s => (now - createdAt s >? maxAge)%Z
  | None => false
  end.

(** The heap after the expired sessions among [entries] were marked
    [completed]. *)
Fixpoint retire (now maxAge : Z) (entries : list (string * ref)) (h : list ClaudeCodeSession)
  : list ClaudeCodeSession :=
  match entries with
  | [] => h
  | (k, a) :: rest =>
      retire now maxAge rest
        match h !! a with
        | Some s =>
            if (now - createdAt s >? maxAge)%Z
            then <[a := with_status completed s]> h else h
        | None => h
        end
  end.

(** The teardown requests for the sessions behind [entries]. *)
Definition teardownRequests (h : list ClaudeCodeSession) (entries : list (string * ref))
  : list Request :=
  flat_map
    (fun e => match h !! snd e with
              | Some s => [container_stop (containerId s) 10;
                           container_remove (containerId s)]
              | None => []
              end)
    entries.

Definition is_running (s : ClaudeCodeSession) : bool :=
  match status s with running => true | _ => false end.

(** Does reference [a] lead to a [running] session of thread [t]? *)
Definition running_for (t : string) (h : list ClaudeCodeSession) (a : ref) : bool :=
  match h !! a with
  | Some s => String.eqb (threadId s) t && is_running s
  | None => false
  end.




(** What every call may count on while it is suspended: objects stay where
    they are and keep their [id] and [threadId]. *)
Definition extends (s s' : Store) : Prop :=
  forall (a : ref) x, heap s !! a = Some x ->
    exists x', heap s' !! a = Some x' /\ id x' = id x /\ threadId x' = threadId x.

(** [s] is a store a call may suspend in, having started its turn in [s0]. *)
Definition settled (s0 s : Store) : Prop := wf_store s /\ extends s0 s.

(** [safe Q E p s0 s]: program [p], at store [s] in a turn that began at
    store [s0], suspends only in settled stores, however the store changes
    while it is suspended (within [extends] and [wf_store]), and ends in
    [Q] or [E]. *)
Fixpoint safe {A : Type} (Q : A -> Store -> Store -> Prop)
    (E : JsError -> Store -> Store -> Prop) (p : Prog A) (s0 s : Store) : Prop :=
  match p with
  | Ret a => Q a s0 s
  | Throw e => E e s0 s
  | Sync f k => safe Q E (k (snd (f s))) s0 (fst (f s))
  | Now k => forall t, safe Q E (k t) s0 s
  | Await r k =>
      settled s0 s /\
      forall res s', extends s s' -> wf_store s' -> safe Q E (k res) s' s'
  end.

Definition op_safe {A : Type} (p : Prog A) : Prop :=
  forall s0 s, wf_store s -> extends s0 s ->
    safe (fun _ => settled) (fun _ => settled) p s0 s.

(** A call between two turns: safe to resume in any later store. *)
Definition stable {A : Type} (p : Prog A) (s : Store) : Prop :=
  forall s', extends s s' -> wf_store s' ->
    safe (fun _ => settled) (fun _ => settled) p s' s'.

Definition suspended {A : Type} (p : Prog A) : Prop :=
  match p with
  | Sync _ _ | Now _ => False
  | _ => True
  end.

(** The calls the services accept. *)
Inductive Op :=
| op_createSession (threadId channelId userId : string)
| op_stopSession (sessionId : string)
| op_cleanupOldSessions (maxAgeHours : Z)
| op_executeCommand (sessionId : string) (command : list string)
| op_getWorkspaceFiles (sessionId : string)
| op_processMessage (channelId threadId userId : string)
| op_executeClaudeCode (sessionId userMessage : string)
| op_stopThread (threadId : string).

Section Vocabulary.
Context `{World}.

(** Every run of [p] from a store in [I] ends in a store in [I]. *)
Definition preserves {A : Type} (I : Store -> Prop) (p : Prog A) : Prop :=
forall st, I (store st) -> I (store (fst (run p st))).

(** The engine stops and removes whatever it is asked to. *)
Definition teardown_ok : Prop :=
forall (cid : string) (w : W),
  snd (perform (container_stop cid 10) w) = Ok tt /\
  snd (perform (container_remove cid) w) = Ok tt.

(** Session [s], stored at [a] under key [k] in [st], was stopped on the
  way to [st']: its container was stopped and removed, its object is
  [completed] and its key is gone. *)
Definition stopped (st st' : State) (k : string) (a : ref) (s : ClaudeCodeSession) : Prop :=
JsMap.get k (sessions (store st')) = None /\
heap (store st') !! a = Some (with_status completed s) /\
exists l1 l2,
  calls st' = calls st ++ l1 ++
              [container_stop (containerId s) 10; container_remove (containerId s)] ++ l2.

(** Session [s] is still registered and its object is unchanged. *)
Definition untouched (st' : State) (k : string) (a : ref) (s : ClaudeCodeSession) : Prop :=
In (k, a) (sessions (store st')) /\ heap (store st') !! a = Some s.

(** The state a call leaves behind, and the states reached by sequences of
  calls. *)
Definition after {A : Type} (p : Prog A) (st : State) : State := fst (run p st).

(** A call on its own, its result dropped. *)
Definition void {A : Type} (p : Prog A) : Prog unit := p;; Ret tt.

Definition call (o : Op) : Prog unit :=
  match o with
  | op_createSession t c u => void (DockerService.createSession t c u)
  | op_stopSession k => void (DockerService.stopSession k)
  | op_cleanupOldSessions h => void (DockerService.cleanupOldSessions h)
  | op_executeCommand k cmd => void (DockerService.executeCommand k cmd)
  | op_getWorkspaceFiles k => void (DockerService.getWorkspaceFiles k)
  | op_processMessage c t u => void (ClaudeCodeService.processMessage_session c t u)
  | op_executeClaudeCode k msg => void (ClaudeCodeService.executeClaudeCode k msg)
  | op_stopThread t => void (ClaudeCodeService.stopSession t)
  end.

Definition apply_op (o : Op) (st : State) : State := after (call o) st.

Definition apply_ops (ops : list Op) (st : State) : State :=
fold_left (fun st o => apply_op o st) ops st.

(** The state after [createSession] for thread [t1], and after a second
  one for thread [t2]. *)
Definition one_session (w0 : W) : State :=
fst (run (DockerService.createSession "t1" "ch" "u") (init w0)).

Definition two_sessions (w0 : W) : State :=
fst (run (DockerService.createSession "t2" "ch" "u") (one_session w0)).
End Vocabulary.

(** ** Scenarios in the simulated environment *)

(** One hour per request. *)
Definition slow : SimConfig :=
  {| mkdir_fails := false; create_fails := false; unique_names := false;
     start_fails := []; stop_fails := [];
     exec_reply := fun _ => Ok ("hi", "");
     tree := Ok [];
     tick := 3600000 |}.

(** The engine refuses to start container [c0]. *)
Definition start_rejected : SimConfig :=
  {| mkdir_fails := false; create_fails := false; unique_names := false;
     start_fails := ["c0"]; stop_fails := [];
     exec_reply := fun _ => Ok ("hi", "");
     tree := Ok [];
     tick := 1 |}.

(** The engine refuses to stop container [c0]; one hour per request. *)
Definition stop_rejected : SimConfig :=
  {| mkdir_fails := false; create_fails := false; unique_names := false;
     start_fails := []; stop_fails := ["c0"];
     exec_reply := fun _ => Ok ("hi", "");
     tree := Ok [];
     tick := 3600000 |}.

(** The exec prints [hi]; the file it left in the workspace cannot be read. *)
Definition unreadable : SimConfig :=
  {| mkdir_fails := false; create_fails := false; unique_names := false;
     start_fails := []; stop_fails := [];
     exec_reply := fun _ => Ok ("hi", "");
     tree := Ok [ FileEntry "out.bin" (Err (Error "EACCES: permission denied")) ];
     tick := 1 |}.

(** The tool prints to both streams. *)
Definition noisy : SimConfig :=
  {| mkdir_fails := false; create_fails := false; unique_names := false;
     start_fails := []; stop_fails := [];
     exec_reply := fun _ => Ok ("partial", "warning: deprecated");
     tree := Ok [];
     tick := 1 |}.


Definition calm_world : World := sim calm.
Definition slow_world : World := sim slow.
Definition start_rejected_world : World := sim start_rejected.
Definition stop_rejected_world : World := sim stop_rejected.
Definition unreadable_world : World := sim unreadable.
Definition noisy_world : World := sim noisy.

(** * More of the services *)

(** Is the call a cleanup sweep? *)
Definition is_sweep (o : Op) : bool :=
  match o with
  | op_cleanupOldSessions _ => true
  | _ => false
  end.

(** The teardown requests for session [s]. *)
Definition teardown_of (s : ClaudeCodeSession) (r : Request) : Prop :=
  r = container_stop (containerId s) 10 \/ r = container_remove (containerId s).

(** Request [r] tears down a session that store [s] has registered. *)
Definition targets_registered (s : Store) (r : Request) : Prop :=
  exists k (a : ref) x,
    In (k, a) (sessions s) /\ heap s !! a = Some x /\ teardown_of x r.

(** Every session registered in [s] is registered in [s0] under the same
    key and object, with the same container. *)
Definition sub_registered (s s0 : Store) : Prop :=
  forall k (a : ref) x,
    In (k, a) (sessions s) -> heap s !! a = Some x ->
    exists x0, In (k, a) (sessions s0) /\ heap s0 !! a = Some x0 /\
               containerId x0 = containerId x.

(** A program none of whose requests satisfies [P]. *)
Inductive free_of {A : Type} (P : Request -> bool) : Prog A -> Prop :=
| fo_ret a : free_of P (Ret a)
| fo_throw e : free_of P (Throw e)
| fo_sync {X : Type} (f : Store -> Store * X) k :
    (forall x, free_of P (k x)) -> free_of P (Sync f k)
| fo_now k : (forall t, free_of P (k t)) -> free_of P (Now k)
| fo_await r k : P r = false -> (forall res, free_of P (k res)) -> free_of P (Await r k).

(** ** The workspace tree *)

(** Every file and directory below the entry can be read. *)
Fixpoint readable (d : Dirent) : bool :=
  match d with
  | FileEntry _ (Ok _) => true
  | FileEntry _ (Err _) => false
  | DirEntry _ (Ok sub) => forallb readable sub
  | DirEntry _ (Err _) => false
  end.

(** The files below an entry, depth first in directory order, each with its
    path relative to [baseDir]. *)
Fixpoint listing (baseDir : string) (d : Dirent) : list (string * string) :=
  match d with
  | FileEntry nm (Ok text) => [(path_join baseDir nm, text)]
  | FileEntry _ (Err _) => []
  | DirEntry nm (Ok sub) => flat_map (listing (path_join baseDir nm)) sub
  | DirEntry _ (Err _) => []
  end.

(** ** The artifact report of [handleArtifacts] *)

Module HandleArtifacts.
Import ClaudeCodeService.

Definition is_code (t : ArtifactType) : bool :=
  match t with code => true | file => false end.

Definition is_file (t : ArtifactType) : bool :=
  match t with file => true | code => false end.

(** [artifacts.filter((a) => a.type === "code" || this.isCodeFile(a.path))] *)
Definition codeFiles (artifacts : list Artifact) : list Artifact :=
  List.filter (fun a => is_code (type a) || isCodeFile (path a)) artifacts.

(** [artifacts.filter((a) => a.type === "file" && !this.isCodeFile(a.path))] *)
Definition otherFiles (artifacts : list Artifact) : list Artifact :=
  List.filter (fun a => is_file (type a) && negb (isCodeFile (path a))) artifacts.

Definition newline : ascii := "010"%char.

(** [s.split("\n")]: the segments between line feeds; never empty. *)
Fixpoint split (s : string) : list string :=
  match s with
  | EmptyString => [EmptyString]
  | String c s' =>
      if Ascii.eqb c newline then EmptyString :: split s'
      else match split s' with
           | l :: ls => String c l :: ls
           | [] => [String c EmptyString]
           end
  end.

(** [lines.join("\n")] *)
Fixpoint join (lines : list string) : string :=
  match lines with
  | [] => EmptyString
  | [l] => l
  | l :: rest => l +:+ String newline (join rest)
  end.

(** The text shown for the first code file: at most 50 lines of it. *)
Definition preview (content : string) : string :=
  let lines := split content in
  if (50 <? length lines)%nat
  then join (firstn 50 lines) +:+ String newline "... (truncated)"
  else content.
End HandleArtifacts.

(** No line feed in the string. *)
Fixpoint one_line (s : string) : bool :=
  match s with
  | EmptyString => true
  | String c s' => negb (Ascii.eqb c HandleArtifacts.newline) && one_line s'
  end.

(** The number of double quotes in a string. *)
Fixpoint count_quotes (s : string) : nat :=
  match s with
  | EmptyString => 0
  | String c s' => (if Ascii.eqb c dquote then 1 else 0) + count_quotes s'
  end.

(** ** The server: shutdown and the stop-all route *)

Module Server.
Section Handlers.
Context `{World}.

(** [for (const session of sessions) await dockerService.stopSession(session.id)] *)
Fixpoint stopEach (sessions : list ref) : Prog unit :=
  match sessions with
  | [] => Ret tt
  | session :: rest =>
      s <- DockerService.deref session;;
      DockerService.stopSession (id s);;
      stopEach rest
  end.

(** The SIGTERM and SIGINT handlers, up to [process.exit(0)]. *)
Definition shutdown : Prog unit :=
  sessions <- DockerService.listSessions;;
  stopEach sessions.

(** One callback of the stop-all route:
    [async (session) => { await stopSession(session.id); return session.id }] *)
Definition stopTask (session : ref) : Prog string :=
  s <- DockerService.deref session;;
  DockerService.stopSession (id s);;
  Ret (id s).
End Handlers.
End Server.

(** ** Calls in flight *)

Section InFlight.
Context `{World}.

(** Store [s] after the session under key [k], held at [a], was retired. *)
Definition retired (k : string) (a : ref) (x : ClaudeCodeSession) (s : Store) : Store :=
  {| sessions := JsMap.delete k (sessions s);
     heap := <[a := with_status completed x]> (heap s) |}.

(** [stopping n k a x p]: call [p] is tearing down session [x], registered
    under [k] at [a], and settles within [n] turns.  As long as the session
    is registered and unchanged, a turn of [p] leaves the store alone and
    either keeps stopping or rejects, or it retires the session and
    resolves with [k]. *)
Fixpoint stopping (n : nat) (k : string) (a : ref) (x : ClaudeCodeSession)
    (p : Prog string) : Prop :=
  match n with
  | 0 => False
  | S n' =>
      outcome p = None /\
      forall st,
        JsMap.get k (sessions (store st)) = Some a ->
        heap (store st) !! a = Some x ->
        (store (fst (turn p st)) = store st /\
         (stopping n' k a x (snd (turn p st)) \/ exists e, snd (turn p st) = Throw e)) \/
        (store (fst (turn p st)) = retired k a x (store st) /\
         snd (turn p st) = Ret k)
  end.

(** Where the call for session [x] stands in state [st]: in flight with the
    session untouched, resolved with the session retired, or rejected with
    the session untouched. *)
Definition fate (st : State) (k : string) (a : ref) (x : ClaudeCodeSession)
    (p : Prog string) (n : nat) : Prop :=
  (stopping n k a x p /\
   JsMap.get k (sessions (store st)) = Some a /\ heap (store st) !! a = Some x) \/
  (p = Ret k /\
   JsMap.get k (sessions (store st)) = None /\
   heap (store st) !! a = Some (with_status completed x)) \/
  (exists e, p = Throw e /\
   JsMap.get k (sessions (store st)) = Some a /\ heap (store st) !! a = Some x).

(** The calls of [pool] are the teardowns of [entries], call [i] with
    [budget i] turns left. *)
Definition tearing_down (entries : list (string * ref)) (h0 : list ClaudeCodeSession)
    (pool : list (Prog string)) (st : State) (budget : nat -> nat) : Prop :=
  length pool = length entries /\
  List.NoDup (JsMap.keys (sessions (store st))) /\
  forall i k a x p,
    entries !! i = Some (k, a) -> h0 !! a = Some x -> pool !! i = Some p ->
    fate st k a x p (budget i).
End InFlight.

(** ** MattermostService *)

(** The service talks to the Mattermost client; its calls are modelled on
    their own, with the log lines left out. *)
Module MattermostService.

Inductive ClientCall :=
| getMe
| client_addReaction (userId postId emojiName : string)
| createPost (channel_id message : string) (root_id : option string).

(** [getMe] resolves with the user, of which only [id] is used; the other
    replies are not looked at. *)
Definition ClientReply (c : ClientCall) : Type :=
  match c with
  | getMe => string
  | _ => unit
  end.

Inductive Act (A : Type) : Type :=
| Done (a : A)
| Fail (e : JsError)
| Call (c : ClientCall) (k : Result (ClientReply c) -> Act A).
Arguments Done {A} a.
Arguments Fail {A} e.
Arguments Call {A} c k.

Fixpoint then_ {A B : Type} (p : Act A) (g : A -> Act B) : Act B :=
  match p with
  | Done a => g a
  | Fail e => Fail e
  | Call c k => Call c (fun x => then_ (k x) g)
  end.

Fixpoint catch {A : Type} (p : Act A) (h : JsError -> Act A) : Act A :=
  match p with
  | Done a => Done a
  | Fail e => h e
  | Call c k => Call c (fun x => catch (k x) h)
  end.

Definition call (c : ClientCall) : Act (ClientReply c) :=
  Call c (fun res => match res with Ok x => Done x | Err e => Fail e end).

Definition sendMessage (channelId message : string) (rootId : option string) : Act unit :=
  catch
    (then_ (call (createPost channelId message rootId)) (fun _ => Done tt))
    (fun error => Fail error).

Definition addReaction (postId emojiName : string) : Act unit :=
  catch
    (then_ (call getMe) (fun userId =>
     then_ (call (client_addReaction userId postId emojiName)) (fun _ => Done tt)))
    (fun error => Done tt).

Definition removeReaction (postId emojiName : string) : Act unit :=
  catch
    (then_ (call getMe) (fun userId =>
     then_ (call (client_addReaction userId postId emojiName)) (fun _ => Done tt)))
    (fun error => Done tt).

Section Client.
Context {C : Type} (answer : forall c : ClientCall, C -> C * Result (ClientReply c)).

(** Run against a client in state [w]; the calls made are appended to the
    log. *)
Fixpoint run {A : Type} (p : Act A) (w : C) (log : list ClientCall)
  : C * list ClientCall * Result A :=
  match p with
  | Done a => (w, log, Ok a)
  | Fail e => (w, log, Err e)
  | Call c k => let '(w', res) := answer c w in run (k res) w' (log ++ [c])
  end.
End Client.
End MattermostService.

(** ** The configuration and the webhook *)

Module ConfigFile.
(** [process.env] *)
Definition Env := string -> option string.

(** [v || d] on a string that may be missing. *)
Definition or_default (v : option string) (d : string) : string :=
  match v with
  | Some s => if truthy s then s else d
  | None => d
  end.

Definition mattermost_url (env : Env) : string :=
  or_default (env "MATTERMOST_URL") "http://localhost:8065".

Definition mattermost_botToken (env : Env) : string :=
  or_default (env "MATTERMOST_BOT_TOKEN") "".

Definition mattermost_webhookSecret (env : Env) : string :=
  or_default (env "MATTERMOST_WEBHOOK_SECRET") "".

(** The part of [config] the container service reads. *)
Definition load (env : Env) : Config :=
  {| docker_imageName := or_default (env "DOCKER_IMAGE_NAME") "claude-code-runner";
     docker_workspaceVolume := or_default (env "WORKSPACE_VOLUME") "/tmp/claude-workspaces";
     claude_apiKey := or_default (env "ANTHROPIC_API_KEY") "" |}.

Definition requiredEnvVars : list string :=
  [ "MATTERMOST_URL"; "MATTERMOST_BOT_TOKEN"; "ANTHROPIC_API_KEY" ].

(** [!process.env[varName]] *)
Definition unset (env : Env) (varName : string) : bool :=
  match env varName with
  | Some s => negb (truthy s)
  | None => true
  end.

Definition missingVars (env : Env) : list string :=
  List.filter (unset env) requiredEnvVars.
End ConfigFile.

Module Webhook.
(** The fields of [MattermostWebhookPayload] the handler reads. *)
Record MattermostWebhookPayload := {
  token : string;
  channel_id : string;
  user_id : string;
  post_id : string;
  text : string;
  root_id : option string;
}.


(** The token check: [false] is the 401 answer. *)
Definition authorized (webhookSecret : string) (payload : MattermostWebhookPayload) : bool :=
  negb (truthy webhookSecret && negb (String.eqb (token payload) webhookSecret)).

Section Handler.
Context `{World}.

End Handler.
End Webhook.

(** * Properties *)

(** ** The session map *)

Module JsMapFacts.
Import JsMap.
Section Facts.
Context {V : Type}.
Implicit Types (m : list (string * V)) (k : string) (v : V).

Lemma get_In m k v : get k m = Some v -> In (k, v) m.
Proof.
  induction m as [|[k' v'] m IH]; simpl; [discriminate|].
  destruct (String.eqb_spec k' k) as [->|Hne].
  - intros [= ->]. now left.
  - intros Hg. right. auto.
Qed.

Lemma get_None m k : get k m = None <-> ~ In k (keys m).
Proof.
  induction m as [|[k' v'] m IH]; simpl; [tauto|].
  destruct (String.eqb_spec k' k) as [->|Hne].
  - split; [discriminate|]. intros Hn. exfalso. apply Hn. now left.
  - rewrite IH. split; [intros Hn [?|?]; [congruence|tauto] | tauto].
Qed.

Lemma In_keys m k v : In (k, v) m -> In k (keys m).
Proof. intros Hin. change k with (fst (k, v)). now apply in_map. Qed.

Lemma In_get m k v : List.NoDup (keys m) -> In (k, v) m -> get k m = Some v.
Proof.
  induction m as [|[k' v'] m IH]; simpl; [tauto|].
  intros Hnd [Heq|Hin]; apply NoDup_cons_iff in Hnd as [Hk' Hnd].
  - injection Heq as -> ->. now rewrite String.eqb_refl.
  - destruct (String.eqb_spec k' k) as [->|Hne]; [|auto].
    exfalso. apply Hk'. eauto using In_keys.
Qed.

Lemma keys_set m k v k' : In k' (keys (set k v m)) <-> k' = k \/ In k' (keys m).
Proof.
  induction m as [|[k0 v0] m IH]; simpl.
  - intuition congruence.
  - destruct (String.eqb_spec k0 k) as [->|Hne]; simpl.
    + intuition congruence.
    + rewrite IH. intuition congruence.
Qed.

Lemma NoDup_set m k v : List.NoDup (keys m) -> List.NoDup (keys (set k v m)).
Proof.
  induction m as [|[k0 v0] m IH]; simpl; intros Hnd.
  - constructor; [simpl; tauto|constructor].
  - apply NoDup_cons_iff in Hnd as [Hk0 Hnd].
    destruct (String.eqb_spec k0 k) as [->|Hne]; simpl.
    + now constructor.
    + constructor; [|auto]. rewrite keys_set. intuition congruence.
Qed.

Lemma In_set m k v k' v' :
  List.NoDup (keys m) ->
  In (k', v') (set k v m) <->
  (k' = k /\ v' = v) \/ (k' <> k /\ In (k', v') m).
Proof.
  induction m as [|[k0 v0] m IH]; simpl; intros Hnd.
  - split; [intros [[= <- <-]|[]]; now left | intros [[-> ->]|[_ []]]; now left].
  - apply NoDup_cons_iff in Hnd as [Hk0 Hnd].
    destruct (String.eqb_spec k0 k) as [->|Hne]; simpl.
    + split.
      * intros [[= <- <-]|Hin]; [now left|].
        right. split; [|now right].
        intros ->. apply Hk0. eauto using In_keys.
      * intros [[-> ->]|[Hne [[= <- <-]|Hin]]]; [now left|congruence|now right].
    + rewrite (IH Hnd). split.
      * intros [[= <- <-]|[?|[? ?]]]; [right; split; [congruence|now left]|now left|].
        right. split; [assumption|now right].
      * intros [[-> ->]|[Hne' [[= <- <-]|Hin]]]; [right; now left|now left|].
        right. right. now split.
Qed.

Lemma get_set_eq m k v : get k (set k v m) = Some v.
Proof.
  induction m as [|[k0 v0] m IH]; simpl.
  - now rewrite String.eqb_refl.
  - destruct (String.eqb_spec k0 k) as [->|Hne]; simpl.
    + now rewrite String.eqb_refl.
    + destruct (String.eqb_spec k0 k); [congruence|assumption].
Qed.

Lemma keys_delete m k k' :
  List.NoDup (keys m) -> In k' (keys (delete k m)) <-> k' <> k /\ In k' (keys m).
Proof.
  induction m as [|[k0 v0] m IH]; simpl; intros Hnd; [tauto|].
  apply NoDup_cons_iff in Hnd as [Hk0 Hnd].
  destruct (String.eqb_spec k0 k) as [->|Hne]; simpl.
  - split; [|intuition congruence].
    intros Hin. split; [|now right]. intros ->. contradiction.
  - rewrite (IH Hnd). intuition congruence.
Qed.

Lemma NoDup_delete m k : List.NoDup (keys m) -> List.NoDup (keys (delete k m)).
Proof.
  induction m as [|[k0 v0] m IH]; simpl; intros Hnd; [constructor|].
  apply NoDup_cons_iff in Hnd as [Hk0 Hnd].
  destruct (String.eqb_spec k0 k) as [->|Hne]; simpl; [assumption|].
  constructor; [|auto]. rewrite keys_delete by assumption. tauto.
Qed.

Lemma In_delete m k k' v' :
  List.NoDup (keys m) ->
  In (k', v') (delete k m) <-> k' <> k /\ In (k', v') m.
Proof.
  induction m as [|[k0 v0] m IH]; simpl; intros Hnd; [tauto|].
  apply NoDup_cons_iff in Hnd as [Hk0 Hnd].
  destruct (String.eqb_spec k0 k) as [->|Hne]; simpl.
  - split.
    + intros Hin. split; [|now right]. intros ->. apply Hk0. eauto using In_keys.
    + intros [Hne [[= <- <-]|Hin]]; [congruence|assumption].
  - rewrite (IH Hnd). split.
    + intros [[= <- <-]|[? ?]]; [split; [assumption|now left]|split; [assumption|now right]].
    + intros [Hne' [[= <- <-]|Hin]]; [now left|right; now split].
Qed.

Lemma get_delete_eq m k : List.NoDup (keys m) -> get k (delete k m) = None.
Proof. intros Hnd. apply get_None. rewrite keys_delete by assumption. tauto. Qed.

Lemma get_app_r m1 m2 k : ~ In k (keys m1) -> get k (m1 ++ m2) = get k m2.
Proof.
  induction m1 as [|[k0 v0] m1 IH]; simpl; [reflexivity|].
  intros Hn. destruct (String.eqb_spec k0 k) as [->|Hne]; [tauto|].
  apply IH. tauto.
Qed.

Lemma delete_app_r m1 m2 k :
  ~ In k (keys m1) -> delete k (m1 ++ m2) = m1 ++ delete k m2.
Proof.
  induction m1 as [|[k0 v0] m1 IH]; simpl; [reflexivity|].
  intros Hn. destruct (String.eqb_spec k0 k) as [->|Hne]; [tauto|].
  f_equal. apply IH. tauto.
Qed.
End Facts.
End JsMapFacts.

(** ** Running programs *)

Section RunFacts.
Context `{World}.

Lemma run_bind {A B : Type} (p : Prog A) (g : A -> Prog B) (st : State) :
  run (bind p g) st =
  match run p st with
  | (st', Ok a) => run (g a) st'
  | (st', Err e) => (st', Err e)
  end.
Proof.
  revert st. induction p as [a|e|X f k IH|k IH|r k IH]; intros st; simpl;
    try reflexivity.
  - destruct (f (store st)) as [s' x]. apply IH.
  - apply IH.
  - destruct (perform r (world st)) as [w' res]. apply IH.
Qed.

Lemma run_try_catch {A : Type} (p : Prog A) (h : JsError -> Prog A) (st : State) :
  run (try_catch p h) st =
  match run p st with
  | (st', Ok a) => (st', Ok a)
  | (st', Err e) => run (h e) st'
  end.
Proof.
  revert st. induction p as [a|e|X f k IH|k IH|r k IH]; intros st; simpl;
    try reflexivity.
  - destruct (f (store st)) as [s' x]. apply IH.
  - apply IH.
  - destruct (perform r (world st)) as [w' res]. apply IH.
Qed.

(** [catch (error) { logger.error(...); throw error; }] changes nothing. *)
Lemma run_rethrow {A : Type} (p : Prog A) (st : State) :
  run (try_catch p (fun e => Throw e)) st = run p st.
Proof.
  rewrite run_try_catch. destruct (run p st) as [st' [a|e]]; reflexivity.
Qed.


(** Running to completion is taking turns until the call settles. *)
Lemma run_advance {A : Type} (p : Prog A) (st : State) :
  run p st = run (snd (advance p st)) (fst (advance p st)).
Proof.
  revert st. induction p as [a|e|X f k IH|k IH|r k IH]; intros st; simpl;
    try reflexivity.
  - destruct (f (store st)) as [s' x]. apply IH.
  - apply IH.
Qed.

Lemma run_turn {A : Type} (p : Prog A) (st : State) :
  run p st = run (snd (turn p st)) (fst (turn p st)).
Proof.
  destruct p as [a|e|X f k|k|r k]; try apply run_advance.
  simpl. destruct (perform r (world st)) as [w' res]. apply run_advance.
Qed.

Lemma readonly_bind {A B : Type} (p : Prog A) (g : A -> Prog B) :
  readonly p -> (forall a, readonly (g a)) -> readonly (bind p g).
Proof. induction 1; intros Hg; simpl; try constructor; auto. Qed.

Lemma readonly_try_catch {A : Type} (p : Prog A) (h : JsError -> Prog A) :
  readonly p -> (forall e, readonly (h e)) -> readonly (try_catch p h).
Proof. induction 1; intros Hh; simpl; try constructor; auto. Qed.

Lemma readonly_read {X : Type} (f : Store -> X) : readonly (read f).
Proof. constructor; [reflexivity|constructor]. Qed.

Lemma readonly_await (r : Request) : readonly (await r).
Proof. constructor. intros [x|e]; constructor. Qed.

Lemma readonly_run {A : Type} (p : Prog A) (st : State) :
  readonly p -> store (fst (run p st)) = store st.
Proof.
  intros Hp. revert st.
  induction Hp as [a|e|X f k Hf Hk IH|k Hk IH|r k Hk IH]; intros st; simpl;
    try reflexivity.
  - specialize (Hf (store st)). destruct (f (store st)) as [s' x]. simpl in Hf.
    rewrite IH. simpl. assumption.
  - apply IH.
  - destruct (perform r (world st)) as [w' res]. rewrite IH. reflexivity.
Qed.
End RunFacts.

(** ** What the DockerService methods do, call by call *)

Section DockerFacts.
Context `{World}.
Import DockerService.

Lemma createSession_run (t c u : string) (st : State) :
  run (createSession t c u) st =
  let mk := fs_mkdir (workspaceOf t) in
  let '(w1, r1) := perform mk (world st) in
  let st1 := answered st mk w1 in
  match r1 with
  | Err e => (st1, Err e)
  | Ok _ =>
      let cr := docker_createContainer (containerOptions t t (workspaceOf t)) in
      let '(w2, r2) := perform cr w1 in
      let st2 := answered st1 cr w2 in
      match r2 with
      | Err e => (st2, Err e)
      | Ok cid =>
          let a := length (heap (store st)) in
          let st3 := set_store st2
            {| sessions := JsMap.set t a (sessions (store st));
               heap := heap (store st) ++ [newSession t t c u cid (clock w2)] |} in
          let '(w3, r3) := perform (container_start cid) w2 in
          (answered st3 (container_start cid) w3,
           match r3 with Ok _ => Ok a | Err e => Err e end)
      end
  end.
Proof.
  unfold createSession. rewrite run_rethrow. simpl.
  destruct (perform (fs_mkdir (workspaceOf t)) (world st)) as [w1 [[]|e1]]; simpl;
    [|reflexivity].
  destruct (perform (docker_createContainer _) w1) as [w2 [cid|e2]]; simpl;
    [|reflexivity].
  destruct (perform (container_start cid) w2) as [w3 [[]|e3]]; reflexivity.
Qed.

Lemma stopSession_run (k : string) (st : State) :
  run (stopSession k) st =
  match JsMap.get k (sessions (store st)) with
  | None => (st, Ok tt)
  | Some a =>
      match heap (store st) !! a with
      | None => (st, Err NonError)
      | Some s =>
          let stop := container_stop (containerId s) 10 in
          let '(w1, r1) := perform stop (world st) in
          let st1 := answered st stop w1 in
          match r1 with
          | Err e => (st1, Err e)
          | Ok _ =>
              let rm := container_remove (containerId s) in
              let '(w2, r2) := perform rm w1 in
              let st2 := answered st1 rm w2 in
              match r2 with
              | Err e => (st2, Err e)
              | Ok _ =>
                  (set_store st2
                     {| sessions := JsMap.delete k (sessions (store st));
                        heap := <[a := with_status completed s]> (heap (store st)) |},
                   Ok tt)
              end
          end
      end
  end.
Proof.
  unfold stopSession. rewrite run_rethrow. simpl.
  destruct (JsMap.get k (sessions (store st))) as [a|]; simpl; [|now destruct st].
  destruct (heap (store st) !! a) as [s|] eqn:Ha; simpl; [|now destruct st].
  destruct (perform (container_stop (containerId s) 10) (world st)) as [w1 [[]|e1]];
    simpl; [|reflexivity].
  destruct (perform (container_remove (containerId s)) w1) as [w2 [[]|e2]];
    simpl; [|reflexivity].
  rewrite Ha. reflexivity.
Qed.
End DockerFacts.

(** ** Well-formed stores *)

Section Preservation.
Context `{World}.
Import DockerService JsMapFacts.

Lemma preserves_bind {A B : Type} (I : Store -> Prop) (p : Prog A) (g : A -> Prog B) :
  preserves I p -> (forall a, preserves I (g a)) -> preserves I (bind p g).
Proof.
  intros Hp Hg st HI. rewrite run_bind. specialize (Hp st HI).
  destruct (run p st) as [st' [a|e]]; simpl in *; [now apply Hg|assumption].
Qed.

Lemma preserves_readonly {A : Type} (I : Store -> Prop) (p : Prog A) :
  readonly p -> preserves I p.
Proof. intros Hp st HI. now rewrite readonly_run. Qed.

Lemma wf_refs_inj (s : Store) k1 k2 a :
  wf_store s -> In (k1, a) (sessions s) -> In (k2, a) (sessions s) -> k1 = k2.
Proof.
  intros (_ & Hreg & _) H1 H2.
  destruct (Hreg _ _ H1) as (x1 & Hx1 & <- & _).
  destruct (Hreg _ _ H2) as (x2 & Hx2 & <- & _).
  congruence.
Qed.

Lemma wf_register (s : Store) (t c u cid : string) (now : Z) :
  wf_store s ->
  wf_store {| sessions := JsMap.set t (length (heap s)) (sessions s);
              heap := heap s ++ [newSession t t c u cid now] |}.
Proof.
  intros (Hnd & Hreg & Hst). split; [|split]; simpl.
  - now apply NoDup_set.
  - intros k a Hin. apply In_set in Hin; [|assumption].
    destruct Hin as [[-> ->]|[Hne Hin]].
    + exists (newSession t t c u cid now). split; [|now simpl].
      apply list_lookup_middle. reflexivity.
    + destruct (Hreg _ _ Hin) as (x & Hx & Hid). exists x. split; [|assumption].
      now apply lookup_app_l_Some.
  - intros a x Hx. apply lookup_app_Some in Hx as [Hx|[_ Hx]]; [eauto|].
    destruct (a - length (heap s))%nat; simpl in Hx; [|discriminate].
    injection Hx as <-. discriminate.
Qed.

Lemma wf_retire (s : Store) (k : string) (a : ref) (x : ClaudeCodeSession) :
  wf_store s -> JsMap.get k (sessions s) = Some a -> heap s !! a = Some x ->
  wf_store {| sessions := JsMap.delete k (sessions s);
              heap := <[a := with_status completed x]> (heap s) |}.
Proof.
  intros Hwf Hget Hx. pose proof Hwf as (Hnd & Hreg & Hst).
  apply get_In in Hget. split; [|split]; simpl.
  - now apply NoDup_delete.
  - intros k' a' Hin. apply In_delete in Hin as [Hne Hin]; [|assumption].
    destruct (Hreg _ _ Hin) as (x' & Hx' & Hid). exists x'. split; [|assumption].
    rewrite list_lookup_insert_ne; [assumption|].
    intros <-. apply Hne. eauto using wf_refs_inj.
  - intros a' x' Hx'. destruct (Nat.eq_dec a a') as [<-|Hne].
    + rewrite list_lookup_insert_eq in Hx' by eauto using lookup_lt_Some.
      injection Hx' as <-. discriminate.
    + rewrite list_lookup_insert_ne in Hx' by assumption. eauto.
Qed.

Lemma createSession_wf (t c u : string) : preserves wf_store (createSession t c u).
Proof.
  intros st Hwf. rewrite createSession_run. simpl.
  destruct (perform (fs_mkdir _) (world st)) as [w1 [[]|e1]]; simpl; [|assumption].
  destruct (perform (docker_createContainer _) w1) as [w2 [cid|e2]]; simpl; [|assumption].
  destruct (perform (container_start cid) w2) as [w3 r3]; simpl.
  now apply wf_register.
Qed.

Lemma stopSession_wf (k : string) : preserves wf_store (stopSession k).
Proof.
  intros st Hwf. rewrite stopSession_run.
  destruct (JsMap.get k (sessions (store st))) as [a|] eqn:Hget; [|assumption].
  destruct (heap (store st) !! a) as [x|] eqn:Hx; [|assumption].
  cbv zeta.
  destruct (perform (container_stop (containerId x) 10) (world st)) as [w1 [[]|e1]];
    simpl; [|assumption].
  destruct (perform (container_remove (containerId x)) w1) as [w2 [[]|e2]];
    simpl; [|assumption].
  now apply wf_retire.
Qed.

Lemma readonly_deref (a : ref) : readonly (deref a).
Proof.
  unfold deref. apply readonly_bind; [apply readonly_read|].
  intros [s|]; constructor.
Qed.

Lemma sweep_cons (now maxAge : Z) k a (rest : list (string * ref)) :
  sweep now maxAge ((k, a) :: rest) =
  (s <- deref a;;
   (if (now - createdAt s >? maxAge)%Z then stopSession k else Ret tt);;
   sweep now maxAge rest).
Proof. reflexivity. Qed.

Lemma sweep_wf (now maxAge : Z) (entries : list (string * ref)) :
  preserves wf_store (sweep now maxAge entries).
Proof.
  induction entries as [|[k a] rest IH].
  - intros st Hwf. assumption.
  - rewrite sweep_cons. apply preserves_bind; [apply preserves_readonly, readonly_deref|].
    intros s. apply preserves_bind; [|intros _; exact IH].
    destruct (_ >? _)%Z; [apply stopSession_wf|intros st Hwf; assumption].
Qed.

Lemma cleanupOldSessions_wf (maxAgeHours : Z) :
  preserves wf_store (cleanupOldSessions maxAgeHours).
Proof.
  intros st Hwf. unfold cleanupOldSessions. simpl. now apply sweep_wf.
Qed.
End Preservation.

(** ** The sweep when teardown succeeds *)

Section Sweep.
Context `{World}.
Import DockerService JsMapFacts.

Lemma retire_length now maxAge entries h :
  length (retire now maxAge entries h) = length h.
Proof.
  revert h. induction entries as [|[k a] rest IH]; intros h; simpl; [reflexivity|].
  rewrite IH. destruct (h !! a) as [s|]; [|reflexivity].
  destruct (_ >? _)%Z; [apply length_insert|reflexivity].
Qed.

Lemma retire_other now maxAge entries h a :
  ~ In a (JsMap.values entries) -> retire now maxAge entries h !! a = h !! a.
Proof.
  revert h. induction entries as [|[k b] rest IH]; intros h Hn; simpl in *;
    [reflexivity|].
  rewrite IH by tauto.
  destruct (h !! b) as [s|]; [|reflexivity].
  destruct (_ >? _)%Z; [|reflexivity].
  apply list_lookup_insert_ne. tauto.
Qed.

Lemma retire_lookup now maxAge entries h k a s :
  List.NoDup (JsMap.values entries) -> In (k, a) entries -> h !! a = Some s ->
  retire now maxAge entries h !! a =
  Some (if (now - createdAt s >? maxAge)%Z then with_status completed s else s).
Proof.
  revert h. induction entries as [|[k' b] rest IH]; intros h Hnd Hin Hs; simpl in *;
    [contradiction|].
  apply NoDup_cons_iff in Hnd as [Hb Hnd].
  destruct Hin as [[= -> ->]|Hin].
  - rewrite retire_other by assumption. rewrite Hs.
    destruct (now - createdAt s >? maxAge)%Z; [|assumption].
    apply list_lookup_insert_eq. eauto using lookup_lt_Some.
  - assert (a <> b) as Hne.
    { intros ->. apply Hb. change b with (snd (k, b)). now apply in_map. }
    apply IH; [assumption..|].
    destruct (h !! b) as [s'|]; [|assumption].
    destruct (now - createdAt s' >? maxAge)%Z; [|assumption].
    rewrite list_lookup_insert_ne; [assumption|congruence].
Qed.

Lemma filter_expired_ext now maxAge (h h' : list ClaudeCodeSession) entries :
  (forall a, In a (JsMap.values entries) -> h' !! a = h !! a) ->
  List.filter (fun e => negb (expired now maxAge h' e)) entries =
  List.filter (fun e => negb (expired now maxAge h e)) entries
  /\ List.filter (expired now maxAge h') entries =
     List.filter (expired now maxAge h) entries.
Proof.
  intros Hh. split; apply filter_ext_in; intros [k a] Hin; unfold expired; simpl;
    rewrite Hh; try reflexivity; change a with (snd (k, a)); now apply in_map.
Qed.

Lemma teardownRequests_ext (h h' : list ClaudeCodeSession) entries :
  (forall a, In a (JsMap.values entries) -> h' !! a = h !! a) ->
  teardownRequests h' entries = teardownRequests h entries.
Proof.
  unfold teardownRequests.
  induction entries as [|[k a] rest IH]; intros Hh; simpl; [reflexivity|].
  rewrite Hh by (simpl; tauto). f_equal. apply IH.
  intros b Hb. apply Hh. simpl. tauto.
Qed.

Lemma run_deref (a : ref) (s : ClaudeCodeSession) (st : State) :
  heap (store st) !! a = Some s -> run (deref a) st = (st, Ok s).
Proof. intros Hs. unfold deref. simpl. rewrite Hs. now destruct st. Qed.

(** With every teardown accepted, the sweep removes exactly the expired
    entries, marks their objects [completed], and issues stop and remove
    for each of them in map order. *)
Lemma sweep_run (now maxAge : Z) (entries pre : list (string * ref)) (st : State) :
  teardown_ok ->
  sessions (store st) = pre ++ entries ->
  List.NoDup (JsMap.keys (pre ++ entries)) ->
  List.NoDup (JsMap.values entries) ->
  (forall k a, In (k, a) entries -> is_Some (heap (store st) !! a)) ->
  exists w',
    run (sweep now maxAge entries) st =
    ({| store :=
          {| sessions :=
               pre ++ List.filter (fun e => negb (expired now maxAge (heap (store st)) e))
                                  entries;
             heap := retire now maxAge entries (heap (store st)) |};
        world := w';
        calls := calls st ++
                 teardownRequests (heap (store st))
                   (List.filter (expired now maxAge (heap (store st))) entries) |},
     Ok tt).
Proof.
  intros Hok. revert pre st.
  induction entries as [|[k a] rest IH]; intros pre st Hs Hnd Hrefs Hlive.
  - exists (world st). simpl. rewrite app_nil_r in Hs. rewrite <- Hs.
    destruct st as [[] ? ?]. simpl. now rewrite !app_nil_r.
  - destruct (Hlive k a (or_introl eq_refl)) as [s Ha].
    apply NoDup_cons_iff in Hrefs as [Ha_rest Hrefs].
    assert (~ In k (JsMap.keys pre)) as Hk_pre.
    { unfold JsMap.keys in *. rewrite map_app in Hnd.
      intros Hin. apply NoDup_app_remove_r in Hnd as Hpre.
      simpl in Hnd. apply NoDup_remove_2 in Hnd. apply Hnd.
      apply in_or_app. now left. }
    rewrite sweep_cons, run_bind, (run_deref a s) by assumption.
    rewrite run_bind.
    assert (expired now maxAge (heap (store st)) (k, a) =
            (now - createdAt s >? maxAge)%Z) as Hexp.
    { unfold expired. simpl. now rewrite Ha. }
    cbn [List.filter retire]. rewrite Hexp, Ha.
    destruct (now - createdAt s >? maxAge)%Z eqn:Hage; cbn [negb].
    + (* expired: stop, remove, mark, delete *)
      rewrite stopSession_run, Hs, get_app_r by assumption.
      simpl JsMap.get. rewrite String.eqb_refl, Ha. cbv zeta.
      destruct (Hok (containerId s) (world st)) as [Hstop _].
      destruct (perform (container_stop (containerId s) 10) (world st)) as [w1 r1].
      simpl in Hstop. subst r1.
      destruct (Hok (containerId s) w1) as [_ Hrm].
      destruct (perform (container_remove (containerId s)) w1) as [w2 r2].
      simpl in Hrm. subst r2.
      rewrite delete_app_r by assumption. simpl JsMap.delete.
      rewrite String.eqb_refl.
      set (h' := <[a := with_status completed s]> (heap (store st))).
      assert (forall b, In b (JsMap.values rest) -> h' !! b = heap (store st) !! b)
        as Hsame.
      { intros b Hb. apply list_lookup_insert_ne. intros Heq. subst b. contradiction. }
      edestruct (IH pre
        (set_store (answered (answered st (container_stop (containerId s) 10) w1)
                             (container_remove (containerId s)) w2)
                   {| sessions := pre ++ rest; heap := h' |}))
        as [w' Hrun].
      * reflexivity.
      * unfold JsMap.keys in *. rewrite map_app in *. simpl in Hnd.
        eapply NoDup_remove_1. exact Hnd.
      * assumption.
      * intros k' a' Hin. simpl. rewrite Hsame.
        -- apply (Hlive k'). now right.
        -- change a' with (snd (k', a')). now apply in_map.
      * exists w'. rewrite Hrun. simpl.
        destruct (filter_expired_ext now maxAge (heap (store st)) h' rest Hsame)
          as [-> ->].
        rewrite (teardownRequests_ext (heap (store st)) h').
        -- simpl. rewrite Ha. rewrite <- !app_assoc. reflexivity.
        -- intros b Hb. apply Hsame. unfold JsMap.values in *.
           apply in_map_iff in Hb as (e & <- & He).
           apply filter_In in He as [He _]. now apply in_map.
    + (* young enough: skipped *)
      simpl run at 1.
      edestruct (IH (pre ++ [(k, a)]) st) as [w' Hrun].
      * rewrite Hs, <- app_assoc. reflexivity.
      * rewrite <- app_assoc. exact Hnd.
      * assumption.
      * intros k' a' Hin. apply (Hlive k'). now right.
      * exists w'. rewrite Hrun. simpl. rewrite <- app_assoc. reflexivity.
Qed.
End Sweep.

(** ** The age threshold of the sweep *)

Section Threshold.
Context `{World}.
Import DockerService JsMapFacts.

Lemma NoDup_values (m : list (string * ref)) :
  List.NoDup (JsMap.keys m) ->
  (forall k1 k2 a, In (k1, a) m -> In (k2, a) m -> k1 = k2) ->
  List.NoDup (JsMap.values m).
Proof.
  induction m as [|[k a] m IH]; simpl; intros Hnd Hinj; [constructor|].
  apply NoDup_cons_iff in Hnd as [Hk Hnd]. constructor.
  - intros Hin. apply in_map_iff in Hin as ([k' a'] & Heq & Hin). simpl in Heq. subst a'.
    apply Hk. rewrite (Hinj k k' a); [eauto using In_keys|now left|now right].
  - apply IH; [assumption|]. intros k1 k2 b H1 H2. apply (Hinj k1 k2 b); now right.
Qed.

Lemma wf_values (s : Store) : wf_store s -> List.NoDup (JsMap.values (sessions s)).
Proof.
  intros Hwf. apply NoDup_values; [apply Hwf|]. intros. eauto using wf_refs_inj.
Qed.

Lemma cleanupOldSessions_run (maxAgeHours : Z) (st : State) :
  teardown_ok -> wf_store (store st) ->
  let now := clock (world st) in
  let maxAge := (maxAgeHours * 60 * 60 * 1000)%Z in
  let h := heap (store st) in
  exists w',
    run (cleanupOldSessions maxAgeHours) st =
    ({| store :=
          {| sessions := List.filter (fun e => negb (expired now maxAge h e))
                                     (sessions (store st));
             heap := retire now maxAge (sessions (store st)) h |};
        world := w';
        calls := calls st ++
                 teardownRequests h
                   (List.filter (expired now maxAge h) (sessions (store st))) |},
     Ok tt).
Proof.
  intros Hok Hwf now maxAge h. unfold cleanupOldSessions. simpl.
  destruct (sweep_run now maxAge (sessions (store st)) [] (set_store st (store st)) Hok)
    as [w' Hrun]; simpl.
  - reflexivity.
  - apply Hwf.
  - now apply wf_values.
  - intros k a Hin. destruct Hwf as (_ & Hreg & _).
    destruct (Hreg k a Hin) as (x & -> & _). eauto.
  - exists w'. exact Hrun.
Qed.


Lemma cleanup_expired (maxAgeHours : Z) (st : State) k a s :
  teardown_ok -> wf_store (store st) ->
  In (k, a) (sessions (store st)) -> heap (store st) !! a = Some s ->
  (clock (world st) - createdAt s > maxAgeHours * 60 * 60 * 1000)%Z ->
  stopped st (fst (run (cleanupOldSessions maxAgeHours) st)) k a s.
Proof.
  intros Hok Hwf Hin Hs Hgt.
  destruct (cleanupOldSessions_run maxAgeHours st Hok Hwf) as [w' Hrun].
  cbv zeta in Hrun. rewrite Hrun. clear Hrun.
  remember (clock (world st)) as now eqn:Hnow. clear Hnow.
  set (maxAge := (maxAgeHours * 60 * 60 * 1000)%Z) in *.
  assert ((now - createdAt s >? maxAge)%Z = true) as Hb
    by (destruct (Z.gtb_spec (now - createdAt s) maxAge); [reflexivity|lia]).
  assert (expired now maxAge (heap (store st)) (k, a) = true) as Hexp
    by (unfold expired; cbn [snd]; now rewrite Hs).
  split; [|split]; cbn [fst store sessions heap calls].
  - apply get_None. intros Hk.
    apply in_map_iff in Hk as ([k' a'] & Heq & Hf). simpl in Heq. subst k'.
    apply filter_In in Hf as [Hin' Hneg].
    assert (a' = a) as ->.
    { destruct Hwf as (Hnd & _).
      pose proof (In_get _ _ _ Hnd Hin) as E1.
      pose proof (In_get _ _ _ Hnd Hin') as E2. congruence. }
    cbv beta in Hneg. rewrite Hexp in Hneg. discriminate.
  - rewrite (retire_lookup _ _ _ _ k a s); [|now apply wf_values|assumption..].
    now rewrite Hb.
  - assert (In (k, a) (List.filter (expired now maxAge (heap (store st)))
                                   (sessions (store st)))) as Hf
      by (apply filter_In; split; assumption).
    apply in_split in Hf as (e1 & e2 & ->).
    exists (teardownRequests (heap (store st)) e1),
           (teardownRequests (heap (store st)) e2).
    unfold teardownRequests. rewrite flat_map_app. simpl. rewrite Hs.
    reflexivity.
Qed.

End Threshold.


(** ** The workspace walk *)

(** Entering a directory is the walk of its entries under the joined path. *)
Lemma readEntry_dir (baseDir nm : string) (sub : list Dirent) (files : list (string * string)) :
  DockerService.readEntry baseDir (DirEntry nm (Ok sub)) files
  = DockerService.readDir (path_join baseDir nm) sub files.
Proof.
  simpl. revert files. induction sub as [|e sub IH]; intros files; simpl; [reflexivity|].
  destruct (DockerService.readEntry (path_join baseDir nm) e files); [apply IH|reflexivity].
Qed.

Example readDir_nested :
  DockerService.readDir ""
    [ FileEntry "out.txt" (Ok "hi");
      DirEntry "src" (Ok [ FileEntry "main.ts" (Ok "export {}");
                           DirEntry "lib" (Ok [ FileEntry "a.py" (Ok "pass") ]) ]) ] []
  = Ok [ ("out.txt", "hi"); ("src/main.ts", "export {}"); ("src/lib/a.py", "pass") ].
Proof. reflexivity. Qed.

Example readDir_empty : DockerService.readDir "" [] [] = Ok [].
Proof. reflexivity. Qed.

Example readDir_unreadable_file :
  DockerService.readDir ""
    [ FileEntry "a.txt" (Ok "a"); FileEntry "b.bin" (Err (Error "EACCES")) ] []
  = Err (Error "EACCES").
Proof. reflexivity. Qed.

(** ** What [executeClaudeCode] does, call by call *)

Section ExecFacts.
Context `{World}.
Import DockerService ClaudeCodeService.

Lemma executeCommand_run (sid : string) (cmd : list string) (st : State) :
  run (executeCommand sid cmd) st =
  match JsMap.get sid (sessions (store st)) with
  | None => (st, Err (Error ("Session not found: " +:+ sid)))
  | Some a =>
      match heap (store st) !! a with
      | None => (st, Err NonError)
      | Some s =>
          let r := container_exec (containerId s) cmd in
          (answered st r (fst (perform r (world st))), snd (perform r (world st)))
      end
  end.
Proof.
  unfold executeCommand. rewrite run_rethrow. simpl.
  destruct (JsMap.get sid (sessions (store st))) as [a|]; simpl; [|now destruct st].
  destruct (heap (store st) !! a) as [s|]; simpl; [|now destruct st].
  destruct (perform (container_exec (containerId s) cmd) (world st)) as [w1 [x|e]];
    now destruct st.
Qed.

Lemma getWorkspaceFiles_run (sid : string) (st : State) :
  run (getWorkspaceFiles sid) st =
  let r := fs_readdir (workspaceOf sid) in
  (answered st r (fst (perform r (world st))),
   match snd (perform r (world st)) with
   | Ok root => readDir "" root []
   | Err e => Err e
   end).
Proof.
  unfold getWorkspaceFiles. rewrite run_rethrow. simpl.
  destruct (perform (fs_readdir (workspaceOf sid)) (world st)) as [w1 [root|e]];
    simpl; [|reflexivity].
  destruct (readDir "" root []) as [files|e]; reflexivity.
Qed.

Lemma executeClaudeCode_run (sid msg : string) (st : State) :
  run (executeClaudeCode sid msg) st =
  match JsMap.get sid (sessions (store st)) with
  | None => (st, Ok (errorResponse (Error ("Session not found: " +:+ sid))))
  | Some a =>
      match heap (store st) !! a with
      | None => (st, Ok (errorResponse NonError))
      | Some s =>
          let seed := container_exec (containerId s)
                        (seedCommand msg (messageFileAt (clock (world st)))) in
          let '(w1, r1) := perform seed (world st) in
          let st1 := answered st seed w1 in
          match r1 with
          | Err e => (st1, Ok (errorResponse e))
          | Ok _ =>
              let tool := container_exec (containerId s) (toolCommand msg) in
              let '(w2, r2) := perform tool w1 in
              let st2 := answered st1 tool w2 in
              match r2 with
              | Err e => (st2, Ok (errorResponse e))
              | Ok result =>
                  let rd := fs_readdir (workspaceOf sid) in
                  let '(w3, r3) := perform rd w2 in
                  let st3 := answered st2 rd w3 in
                  match r3 with
                  | Err e => (st3, Ok (errorResponse e))
                  | Ok root =>
                      match readDir "" root [] with
                      | Err e => (st3, Ok (errorResponse e))
                      | Ok files => (st3, Ok (resultResponse result files))
                      end
                  end
              end
          end
      end
  end.
Proof.
  unfold executeClaudeCode. rewrite run_try_catch, run_bind.
  change (run Date_now st) with (st, Ok (clock (world st))). cbv iota beta zeta.
  rewrite run_bind, executeCommand_run.
  destruct (JsMap.get sid (sessions (store st))) as [a|] eqn:Hget; [|reflexivity].
  destruct (heap (store st) !! a) as [s|] eqn:Hs; [|reflexivity].
  cbv zeta.
  destruct (perform (container_exec (containerId s) _) (world st)) as [w1 [x1|e1]];
    cbn [fst snd]; [|reflexivity].
  rewrite run_bind, executeCommand_run. cbn [store answered]. rewrite Hget, Hs.
  cbv zeta. cbn [world answered].
  destruct (perform (container_exec (containerId s) (toolCommand msg)) w1)
    as [w2 [result|e2]]; cbn [fst snd]; [|reflexivity].
  rewrite run_bind, getWorkspaceFiles_run. cbv zeta. cbn [world answered].
  destruct (perform (fs_readdir (workspaceOf sid)) w2) as [w3 [root|e3]];
    cbn [fst snd]; [|reflexivity].
  destruct (readDir "" root []) as [files|e]; reflexivity.
Qed.

Lemma readonly_executeCommand (k : string) (cmd : list string) :
  readonly (executeCommand k cmd).
Proof.
  apply readonly_try_catch; [|constructor].
  apply readonly_bind; [apply readonly_read|].
  intros [a|]; [|constructor].
  apply readonly_bind; [apply readonly_deref|]. intros s.
  exact (readonly_await (container_exec (containerId s) cmd)).
Qed.

Lemma readonly_getWorkspaceFiles (sid : string) : readonly (getWorkspaceFiles sid).
Proof.
  apply readonly_try_catch; [|constructor].
  apply readonly_bind; [exact (readonly_await (fs_readdir (workspaceOf sid)))|].
  intros root. destruct (readDir "" root []); constructor.
Qed.

Lemma readonly_executeClaudeCode (sid msg : string) : readonly (executeClaudeCode sid msg).
Proof.
  apply readonly_try_catch; [|constructor].
  constructor. intros now.
  apply readonly_bind; [apply readonly_executeCommand|]. intros _.
  apply readonly_bind; [apply readonly_executeCommand|]. intros result.
  apply readonly_bind; [apply readonly_getWorkspaceFiles|constructor].
Qed.
End ExecFacts.

(** C3: when both execs are answered and the workspace is read, the
    response of [executeClaudeCode] has [output] equal to the tool's stdout,
    [success] true exactly when stderr is empty, and [error] equal to stderr
    when stderr is not empty (absent otherwise).  No exit code enters the
    result: the engine's answer to an exec holds none. *)
Theorem executeClaudeCode_success_iff_stderr_empty `{World}
    (st : State) (sid msg : string) (a : ref) (s : ClaudeCodeSession)
    (w1 w2 w3 : W) (seeded : string * string) (stdout stderr : string)
    (root : list Dirent) (files : list (string * string)) :
  JsMap.get sid (sessions (store st)) = Some a ->
  heap (store st) !! a = Some s ->
  perform (container_exec (containerId s)
             (ClaudeCodeService.seedCommand msg
                (ClaudeCodeService.messageFileAt (clock (world st)))))
          (world st) = (w1, Ok seeded) ->
  perform (container_exec (containerId s) (ClaudeCodeService.toolCommand msg)) w1
    = (w2, Ok (stdout, stderr)) ->
  perform (fs_readdir (DockerService.workspaceOf sid)) w2 = (w3, Ok root) ->
  DockerService.readDir "" root [] = Ok files ->
  exists resp,
    snd (run (ClaudeCodeService.executeClaudeCode sid msg) st) = Ok resp /\
    output resp = Some stdout /\
    (success resp = true <-> stderr = "") /\
    (stderr = "" -> success resp = true /\ error resp = None) /\
    (stderr <> "" -> success resp = false /\ error resp = Some stderr).
Proof.
  intros Hget Hs Hseed Htool Hread Hwalk.
  rewrite executeClaudeCode_run, Hget, Hs. cbv zeta.
  rewrite Hseed, Htool, Hread, Hwalk. cbn [snd].
  eexists. split; [reflexivity|]. unfold ClaudeCodeService.resultResponse, truthy.
  cbn [success output error fst snd].
  destruct (String.eqb_spec stderr "") as [->|Hne]; cbn [negb].
  - repeat split; auto; congruence.
  - repeat split; auto; congruence.
Qed.

(** ** Initial states *)

Section InitialStates.
Context `{World}.

Lemma wf_empty : wf_store empty_store.
Proof.
  split; [constructor|split]; simpl.
  - intros k a [].
  - intros a x Hx. rewrite lookup_nil in Hx. discriminate.
Qed.

Lemma wf_one_session (w0 : W) : wf_store (store (one_session w0)).
Proof. unfold one_session. apply createSession_wf. exact wf_empty. Qed.

Lemma wf_two_sessions (w0 : W) : wf_store (store (two_sessions w0)).
Proof. unfold two_sessions. apply createSession_wf, wf_one_session. Qed.
End InitialStates.

Section SlowScenario.
#[local] Existing Instance slow_world.

Lemma slow_teardown_ok : teardown_ok.
Proof. intros cid w. split; reflexivity. Qed.

End SlowScenario.

Section StopRejectedScenario.
#[local] Existing Instance stop_rejected_world.

(** C6, evaluated: two registered sessions, both older than the threshold;
  the engine rejects the stop of the first one.  The sweep ends with that
  rejection after a single request: the second session is still
  registered and [running], and no stop was issued for its container. *)
Theorem cleanup_stops_at_first_failure :
let st := two_sessions sim0 in
let st' := fst (run (DockerService.cleanupOldSessions 0) st) in
map (fun s => (id s, containerId s, (clock (world st) - createdAt s)%Z)) (heap (store st))
  = [("t1", "c0", 14400000%Z); ("t2", "c1", 3600000%Z)] /\
snd (run (DockerService.cleanupOldSessions 0) st)
  = Err (Error "cannot stop container") /\
calls st' = calls st ++ [container_stop "c0" 10] /\
sessions (store st') = [("t1", 0); ("t2", 1)] /\
map status (heap (store st')) = [running; running].
Proof. vm_compute. repeat split; reflexivity. Qed.
End StopRejectedScenario.

Section StopRejectedSweep.
#[local] Existing Instance stop_rejected_world.

End StopRejectedSweep.

(** ** Provisioning failures *)

(** C2, as the code has it: when [createSession] rejects, it issued no
    stop and no remove, and either the workspace or the container could not
    be created and the store is unchanged, or the container was created and
    only its start was rejected, and then the session is registered under
    the thread, [running], holding the created container. *)
Theorem createSession_failure `{World}
    (st st' : State) (t c u : string) (e : JsError) :
  run (DockerService.createSession t c u) st = (st', Err e) ->
  List.filter is_teardown (calls st') = List.filter is_teardown (calls st) /\
  ((store st' = store st /\ creations (calls st') <= creations (calls st) + 1 /\
    (snd (perform (fs_mkdir (DockerService.workspaceOf t)) (world st)) = Err e \/
     exists w1 w2,
       perform (fs_mkdir (DockerService.workspaceOf t)) (world st) = (w1, Ok tt) /\
       perform (docker_createContainer
                  (DockerService.containerOptions t t (DockerService.workspaceOf t))) w1
         = (w2, Err e)))
   \/
   (exists w1 w2 cid,
      perform (fs_mkdir (DockerService.workspaceOf t)) (world st) = (w1, Ok tt) /\
      perform (docker_createContainer
                 (DockerService.containerOptions t t (DockerService.workspaceOf t))) w1
        = (w2, Ok cid) /\
      snd (perform (container_start cid) w2) = Err e /\
      JsMap.get t (sessions (store st')) = Some (length (heap (store st))) /\
      heap (store st') !! length (heap (store st))
        = Some (DockerService.newSession t t c u cid (clock w2)))).
Proof.
  rewrite createSession_run. cbv zeta.
  destruct (perform (fs_mkdir (DockerService.workspaceOf t)) (world st))
    as [w1 [[]|e1]] eqn:Hmk.
  2:{ intros [= <- <-]. cbn [calls answered store]. rewrite List.filter_app, app_nil_r.
      split; [reflexivity|]. left. split; [reflexivity|]. split; [|now left].
      unfold creations. rewrite List.filter_app, length_app. simpl. lia. }
  destruct (perform (docker_createContainer _) w1) as [w2 [cid|e2]] eqn:Hcr.
  2:{ intros [= <- <-]. cbn [calls answered store].
      rewrite !List.filter_app, !app_nil_r.
      split; [reflexivity|]. left. split; [reflexivity|]. split; [|right; eauto].
      unfold creations. rewrite !List.filter_app, !length_app. simpl. lia. }
  destruct (perform (container_start cid) w2) as [w3 [[]|e3]] eqn:Hst; [discriminate|].
  intros [= <- <-]. cbn [calls answered set_store store sessions heap].
  rewrite !List.filter_app, !app_nil_r. split; [reflexivity|].
  right. exists w1, w2, cid. repeat split; try reflexivity; try assumption.
  - now rewrite Hst.
  - apply JsMapFacts.get_set_eq.
  - apply list_lookup_middle. reflexivity.
Qed.

Section StartRejectedScenario.
#[local] Existing Instance start_rejected_world.

Lemma createSession_failure_witness :
  exists st' e,
    run (DockerService.createSession "t1" "ch" "u") (init sim0) = (st', Err e) /\
    List.filter is_teardown (calls st') = [] /\
    JsMap.get "t1" (sessions (store st')) = Some 0%nat.
Proof.
  eexists _, _. split; [vm_compute; reflexivity|].
  destruct (createSession_failure (H := start_rejected_world)
              (init (H := start_rejected_world) sim0) _ "t1" "ch" "u" _ eq_refl)
    as [Hcalls _].
  split; [exact Hcalls|reflexivity].
Defined.

(** C2 fails as stated: the engine creates container [c0] and rejects its
    start; [createSession] rejects, yet thread [t1] keeps a [running]
    session holding [c0], and no stop or remove was issued for it. *)
Lemma createSession_start_failure_keeps_session :
  let res := run (DockerService.createSession "t1" "ch" "u") (init sim0) in
  snd res = Err (Error "cannot start container") /\
  DockerService.find_by_thread "t1" (store (fst res)) = Some 0%nat /\
  map (fun s => (id s, containerId s, status s)) (heap (store (fst res)))
    = [("t1", "c0", running)] /\
  List.filter is_teardown (calls (fst res)) = [] /\
  created (world (fst res)) = ["t1"].
Proof. vm_compute. repeat split; reflexivity. Qed.
End StartRejectedScenario.

(** ** Workspace read failures *)

(** C4, as the code has it: when both execs are answered and the walk of
    the workspace is rejected with [e], [executeClaudeCode] returns the
    object of its [catch] block: [success] false, [error] the message of
    [e], and neither [output] nor [artifacts] (an absent [artifacts] is not
    an empty list).  The execs stay issued and the store is unchanged. *)
Theorem executeClaudeCode_read_failure `{World}
    (st : State) (sid msg : string) (a : ref) (s : ClaudeCodeSession)
    (w1 w2 w3 : W) (seeded result : string * string)
    (walk : Result (list Dirent)) (e : JsError) :
  JsMap.get sid (sessions (store st)) = Some a ->
  heap (store st) !! a = Some s ->
  let seed := container_exec (containerId s)
                (ClaudeCodeService.seedCommand msg
                   (ClaudeCodeService.messageFileAt (clock (world st)))) in
  let tool := container_exec (containerId s) (ClaudeCodeService.toolCommand msg) in
  let rd := fs_readdir (DockerService.workspaceOf sid) in
  perform seed (world st) = (w1, Ok seeded) ->
  perform tool w1 = (w2, Ok result) ->
  perform rd w2 = (w3, walk) ->
  match walk with Ok root => DockerService.readDir "" root [] | Err e' => Err e' end
    = Err e ->
  let st' := fst (run (ClaudeCodeService.executeClaudeCode sid msg) st) in
  let resp := ClaudeCodeService.errorResponse e in
  snd (run (ClaudeCodeService.executeClaudeCode sid msg) st) = Ok resp /\
  success resp = false /\
  output resp = None /\
  error resp = Some match e with Error m => m | NonError => "Unknown error" end /\
  artifacts resp = None /\ artifacts resp <> Some [] /\
  store st' = store st /\
  calls st' = calls st ++ [seed; tool; rd].
Proof.
  intros Hget Hs seed tool rd Hseed Htool Hrd Hwalk st' resp.
  subst st' resp seed tool rd.
  rewrite executeClaudeCode_run, Hget, Hs. cbv zeta. rewrite Hseed, Htool, Hrd.
  destruct walk as [root|e0]; [rewrite Hwalk|injection Hwalk as ->];
    unfold answered; cbn [fst snd store calls]; rewrite <- !app_assoc;
    (repeat split; try reflexivity); intros Hc; simpl in Hc; discriminate.
Qed.

Section UnreadableScenario.
#[local] Existing Instance unreadable_world.

Lemma executeClaudeCode_read_failure_witness :
  let st := one_session sim0 in
  let st' := fst (run (ClaudeCodeService.executeClaudeCode "t1" "build it") st) in
  snd (run (ClaudeCodeService.executeClaudeCode "t1" "build it") st)
    = Ok (ClaudeCodeService.errorResponse (Error "EACCES: permission denied")) /\
  store st' = store st.
Proof.
  destruct (executeClaudeCode_read_failure (H := unreadable_world)
              (one_session (H := unreadable_world) sim0) "t1" "build it" 0%nat
              _ _ _ _ ("hi", "") ("hi", "") _ (Error "EACCES: permission denied")
              eq_refl eq_refl eq_refl eq_refl eq_refl eq_refl)
    as (Hresp & _ & _ & _ & _ & _ & Hstore & _).
  split; [exact Hresp|exact Hstore].
Defined.

(** C4 fails as stated: the tool exec is answered with stdout [hi] and an
    empty stderr, then a file of the workspace cannot be read.  The
    response holds no [output]: the captured stdout is lost, and [error]
    is the read failure. *)
Lemma executeClaudeCode_read_failure_drops_stdout :
  let st := one_session sim0 in
  let run_ := run (ClaudeCodeService.executeClaudeCode "t1" "build it") st in
  exec_reply unreadable (ClaudeCodeService.toolCommand "build it") = Ok ("hi", "") /\
  In (container_exec "c0" (ClaudeCodeService.toolCommand "build it")) (calls (fst run_)) /\
  exists resp,
    snd run_ = Ok resp /\
    output resp <> Some "hi" /\
    output resp = None /\
    error resp = Some "EACCES: permission denied".
Proof.
  split; [reflexivity|]. split.
  - vm_compute. right. right. right. right. now left.
  - eexists. split; [vm_compute; reflexivity|].
    split; [discriminate|split; reflexivity].
Qed.
End UnreadableScenario.

Section UnreadableSuccess.
#[local] Existing Instance unreadable_world.

(** C3 fails as stated, for every exec result: the tool exec is answered
    with stdout [hi] and an empty stderr, and then a file of the workspace
    cannot be read.  The response has [success] false and no [output],
    although stderr was empty. *)
Lemma empty_stderr_yet_no_success :
  let st := one_session sim0 in
  (forall w, snd (perform (container_exec "c0" (ClaudeCodeService.toolCommand "build it")) w)
             = Ok ("hi", "")) /\
  exists resp,
    snd (run (ClaudeCodeService.executeClaudeCode "t1" "build it") st) = Ok resp /\
    success resp = false /\
    output resp = None /\
    error resp = Some "EACCES: permission denied".
Proof.
  intros st. split; [intros w; reflexivity|].
  eexists. split; [vm_compute; reflexivity|]. repeat split.
Qed.
End UnreadableSuccess.

Section CalmScenario.
#[local] Existing Instance calm_world.

Lemma executeClaudeCode_success_iff_stderr_empty_witness :
  exists resp,
    snd (run (ClaudeCodeService.executeClaudeCode "t1" "build it") (one_session sim0))
      = Ok resp /\
    output resp = Some "hi" /\
    (success resp = true <-> "" = "") /\
    ("" = "" -> success resp = true /\ error resp = None) /\
    ("" <> "" -> success resp = false /\ error resp = Some "").
Proof.
  apply (executeClaudeCode_success_iff_stderr_empty (H := calm_world)
           (one_session (H := calm_world) sim0) "t1" "build it" 0%nat
           _ _ _ _ ("hi", "") "hi" "" _ _
           eq_refl eq_refl eq_refl eq_refl eq_refl eq_refl).
Defined.

Example executeClaudeCode_calm :
  snd (run (ClaudeCodeService.executeClaudeCode "t1" "build it") (one_session sim0))
  = Ok {| success := true; output := Some "hi"; error := None;
          artifacts := Some [ {| type := file; path := "out.txt"; content := "hi" |};
                              {| type := code; path := "src/main.ts";
                                 content := "export {}" |} ] |}.
Proof. vm_compute. reflexivity. Qed.

Example executeClaudeCode_noisy :
  snd (run (H := noisy_world) (ClaudeCodeService.executeClaudeCode "t1" "build it")
         (one_session (H := noisy_world) sim0))
  = Ok {| success := false; output := Some "partial";
          error := Some "warning: deprecated"; artifacts := Some [] |}.
Proof. vm_compute. reflexivity. Qed.

Example executeClaudeCode_no_session :
  snd (run (ClaudeCodeService.executeClaudeCode "t9" "build it") (one_session sim0))
  = Ok {| success := false; output := None;
          error := Some "Session not found: t9"; artifacts := None |}.
Proof. vm_compute. reflexivity. Qed.

(** C9, evaluated: the message [$(id) `id` \] holds no double quote, so
    the script handed to [sh -c] carries it unchanged between double
    quotes, where the shell still expands [$(...)], backquotes and
    backslashes. *)
Theorem seed_script_keeps_expansions :
  let msg := "$(id) `id` " +:+ String backslash "" in
  ClaudeCodeService.seedScript msg "/workspace/user_message_3.txt"
    = "echo " +:+ String dquote msg +:+ String dquote " > /workspace/user_message_3.txt" /\
  nth_error (calls (fst (run (ClaudeCodeService.executeClaudeCode "t1" msg)
                           (one_session sim0)))) 3
    = Some (container_exec "c0"
              [ "sh"; "-c";
                "echo " +:+ String dquote msg
                  +:+ String dquote " > /workspace/user_message_3.txt" ]).
Proof. vm_compute. split; reflexivity. Qed.
End CalmScenario.

(** ** Artifact classification *)

Section Strings.


Lemma length_append (a b : string) :
  String.length (a +:+ b) = (String.length a + String.length b)%nat.
Proof. induction a as [|c a IH]; simpl; [reflexivity|now rewrite IH]. Qed.





End Strings.






(** ** Create-or-attach *)

Section Attach.
Context `{World}.
Import DockerService ClaudeCodeService.

Lemma run_read {X : Type} (f : Store -> X) (st : State) :
  run (read f) st = (st, Ok (f (store st))).
Proof. now destruct st. Qed.


Lemma processMessage_session_attached (c t u : string) (a : ref) (st : State) :
  find_by_thread t (store st) = Some a ->
  run (processMessage_session c t u) st = (st, Ok a).
Proof.
  intros Hfind. unfold processMessage_session, getSessionByThread.
  rewrite run_bind, run_read, Hfind. reflexivity.
Qed.

End Attach.


Section CalmAttach.
#[local] Existing Instance calm_world.

End CalmAttach.


(** ** Reachable states *)

Section Reachable.
Context `{World}.

Lemma preserves_await (I : Store -> Prop) (r : Request) : preserves I (await r).
Proof. apply preserves_readonly, readonly_await. Qed.

Lemma preserves_void {A : Type} (I : Store -> Prop) (p : Prog A) :
  preserves I p -> preserves I (void p).
Proof.
  intros Hp. apply preserves_bind; [exact Hp|]. intros _ st HI. exact HI.
Qed.

Lemma processMessage_session_wf (c t u : string) :
  preserves wf_store (ClaudeCodeService.processMessage_session c t u).
Proof.
  apply preserves_bind; [apply preserves_readonly, readonly_read|].
  intros [a|]; [intros st' Hwf; assumption|].
  apply preserves_bind; [apply preserves_await|]. intros _.
  apply preserves_bind; [apply createSession_wf|]. intros a.
  apply preserves_bind; [apply preserves_await|]. intros _ st' Hwf. assumption.
Qed.

Lemma stopThread_wf (t : string) : preserves wf_store (ClaudeCodeService.stopSession t).
Proof.
  apply preserves_bind; [apply preserves_readonly, readonly_read|].
  intros [a|]; [|intros st' Hwf; assumption].
  apply preserves_bind; [apply preserves_readonly, readonly_deref|].
  intros s. apply stopSession_wf.
Qed.

Lemma apply_op_wf (o : Op) (st : State) :
  wf_store (store st) -> wf_store (store (apply_op o st)).
Proof.
  destruct o as [t c u|k|h|k cmd|k|c t u|k msg|t]; unfold apply_op, after, call;
    apply preserves_void.
  - apply createSession_wf.
  - apply stopSession_wf.
  - apply cleanupOldSessions_wf.
  - apply preserves_readonly, readonly_executeCommand.
  - apply preserves_readonly, readonly_getWorkspaceFiles.
  - apply processMessage_session_wf.
  - apply preserves_readonly, readonly_executeClaudeCode.
  - apply stopThread_wf.
Qed.

Lemma apply_ops_wf (ops : list Op) (st : State) :
  wf_store (store st) -> wf_store (store (apply_ops ops st)).
Proof.
  revert st. induction ops as [|o ops IH]; intros st Hwf; simpl; [assumption|].
  apply IH, apply_op_wf, Hwf.
Qed.

Lemma reachable_wf (w0 : W) (ops : list Op) :
  wf_store (store (apply_ops ops (init w0))).
Proof. apply apply_ops_wf. exact wf_empty. Qed.

(** In a map with unique keys, at most one value passes a test that only
    the value under key [t] can pass. *)
Lemma filter_at_most_one (P : ref -> bool) (t : string) (m : list (string * ref)) :
  List.NoDup (JsMap.keys m) ->
  (forall k a, In (k, a) m -> P a = true -> k = t) ->
  (length (List.filter P (JsMap.values m)) <= 1)%nat.
Proof.
  induction m as [|[k a] m IH]; simpl; intros Hnd HP; [lia|].
  apply NoDup_cons_iff in Hnd as [Hk Hnd].
  destruct (P a) eqn:Ha; [|apply IH; [assumption|intros; eapply HP; eauto]].
  assert (k = t) as -> by (eapply HP; eauto).
  assert (List.filter P (JsMap.values m) = []) as ->; [|simpl; lia].
  clear IH. induction m as [|[k' a'] m IHm]; simpl; [reflexivity|].
  destruct (P a') eqn:Ha'.
  - exfalso. apply Hk. left. simpl. eapply HP; [right; left; reflexivity|assumption].
  - apply IHm.
    + simpl in Hk. tauto.
    + now apply NoDup_cons_iff in Hnd as [_ ?].
    + intros k0 a0 [Hin|Hin]; [eapply HP; left; exact Hin|].
      eapply HP. right. right. exact Hin.
Qed.
End Reachable.

(** C7: from the empty registry, after any sequence of calls to the
    services and whatever the environment answers, for every thread
    identifier at most one stored session is [running] for it, and every
    stored session carries its map key as [id] and as [threadId]. *)
Theorem registry_invariant `{World} (w0 : W) (ops : list Op) :
  let s := store (apply_ops ops (init w0)) in
  (forall t,
     (length (List.filter (running_for t (heap s)) (JsMap.values (sessions s))) <= 1)%nat) /\
  (forall k a,
     In (k, a) (sessions s) ->
     exists x, heap s !! a = Some x /\ id x = k /\ threadId x = k).
Proof.
  intros s. pose proof (reachable_wf w0 ops) as Hwf. fold s in Hwf.
  destruct Hwf as (Hnd & Hreg & _). split.
  - intros t. apply (filter_at_most_one _ t); [assumption|].
    intros k a Hin Hrun. unfold running_for in Hrun.
    destruct (Hreg k a Hin) as (x & Hx & _ & Hth & _). rewrite Hx in Hrun.
    apply andb_true_iff in Hrun as [Heq _]. apply String.eqb_eq in Heq. congruence.
  - intros k a Hin. destruct (Hreg k a Hin) as (x & Hx & Hid & Hth & _). eauto.
Qed.

Section CalmReachable.
#[local] Existing Instance calm_world.

Lemma registry_invariant_witness :
  let s := store (apply_ops [ op_createSession "t1" "ch" "u";
                              op_createSession "t1" "ch" "u";
                              op_createSession "t2" "ch" "u" ] (init sim0)) in
  (length (List.filter (running_for "t1" (heap s)) (JsMap.values (sessions s))) <= 1)%nat /\
  exists x, heap s !! 1%nat = Some x /\ id x = "t1" /\ threadId x = "t1".
Proof.
  intros s.
  destruct (registry_invariant (H := calm_world) sim0
              [ op_createSession "t1" "ch" "u"; op_createSession "t1" "ch" "u";
                op_createSession "t2" "ch" "u" ]) as [Hone Hkey].
  split; [apply Hone|]. apply (Hkey "t1" 1%nat). vm_compute. now left.
Defined.
End CalmReachable.

(** ** Session status *)

Section Status.
Context `{World}.

Lemma stopSession_completes (st : State) (k : string) (a : ref) (s : ClaudeCodeSession) :
  wf_store (store st) ->
  JsMap.get k (sessions (store st)) = Some a ->
  heap (store st) !! a = Some s ->
  snd (run (DockerService.stopSession k) st) = Ok tt ->
  JsMap.get k (sessions (store (after (DockerService.stopSession k) st))) = None /\
  heap (store (after (DockerService.stopSession k) st)) !! a
    = Some (with_status completed s).
Proof.
  intros (Hnd & _) Hget Hs. unfold after. rewrite stopSession_run, Hget, Hs. cbv zeta.
  destruct (perform (container_stop (containerId s) 10) (world st)) as [w1 [[]|e1]];
    [|discriminate].
  destruct (perform (container_remove (containerId s)) w1) as [w2 [[]|e2]];
    [|discriminate].
  intros _. cbn [fst store set_store sessions heap]. split.
  - now apply JsMapFacts.get_delete_eq.
  - apply list_lookup_insert_eq. eauto using lookup_lt_Some.
Qed.
End Status.

(** C10, as the code has it: in every reachable state every session object
    is [running] or [completed] and every registered one is [running];
    [executeClaudeCode], failing or not, leaves the registry and every
    session object as they are; a [stopSession] that succeeds on a
    registered session marks its object [completed] and deletes its key, and
    so does the sweep for every session older than the threshold when the
    engine accepts the teardown. *)
Theorem session_status_lifecycle `{World} (w0 : W) (ops : list Op) :
  let st := apply_ops ops (init w0) in
  (forall (a : ref) s, heap (store st) !! a = Some s ->
     status s = running \/ status s = completed) /\
  (forall k a, In (k, a) (sessions (store st)) ->
     exists s, heap (store st) !! a = Some s /\ status s = running) /\
  (forall sid msg,
     store (after (ClaudeCodeService.executeClaudeCode sid msg) st) = store st) /\
  (forall k a s,
     JsMap.get k (sessions (store st)) = Some a ->
     heap (store st) !! a = Some s ->
     snd (run (DockerService.stopSession k) st) = Ok tt ->
     JsMap.get k (sessions (store (after (DockerService.stopSession k) st))) = None /\
     heap (store (after (DockerService.stopSession k) st)) !! a
       = Some (with_status completed s)) /\
  (forall maxAgeHours k a s,
     teardown_ok ->
     In (k, a) (sessions (store st)) ->
     heap (store st) !! a = Some s ->
     (clock (world st) - createdAt s > maxAgeHours * 60 * 60 * 1000)%Z ->
     stopped st (after (DockerService.cleanupOldSessions maxAgeHours) st) k a s).
Proof.
  intros st. pose proof (reachable_wf w0 ops) as Hwf. fold st in Hwf.
  split; [|split; [|split; [|split]]].
  - intros a s Hs. destruct Hwf as (_ & _ & Hst). specialize (Hst a s Hs).
    destruct (status s); [now left|now right|contradiction].
  - intros k a Hin. destruct Hwf as (_ & Hreg & _).
    destruct (Hreg k a Hin) as (x & Hx & _ & _ & Hrun). eauto.
  - intros sid msg. apply readonly_run, readonly_executeClaudeCode.
  - intros k a s. now apply stopSession_completes.
  - intros maxAgeHours k a s Hok Hin Hs Hage. now apply cleanup_expired.
Qed.

Section SlowStatus.
#[local] Existing Instance slow_world.

Lemma session_status_lifecycle_witness :
  let st := apply_ops [ op_createSession "t1" "ch" "u";
                        op_executeClaudeCode "nobody" "hello" ] (init sim0) in
  map status (heap (store st)) = [running] /\
  JsMap.get "t1" (sessions (store (after (DockerService.stopSession "t1") st))) = None /\
  map status (heap (store (after (DockerService.stopSession "t1") st))) = [completed] /\
  exists s, stopped st (after (DockerService.cleanupOldSessions 0) st) "t1" 0%nat s.
Proof.
  intros st.
  destruct (session_status_lifecycle (H := slow_world) sim0
              [ op_createSession "t1" "ch" "u";
                op_executeClaudeCode "nobody" "hello" ])
    as (_ & _ & _ & Hstop & Hsweep).
  split; [reflexivity|].
  destruct (Hstop "t1" 0%nat _ eq_refl eq_refl eq_refl) as [Hgone _].
  split; [exact Hgone|]. split; [reflexivity|].
  eexists. apply (Hsweep 0%Z "t1" 0%nat _ slow_teardown_ok).
  - now left.
  - reflexivity.
  - vm_compute. reflexivity.
Defined.
End SlowStatus.

(** C10 fails as stated: no execution reaches a state in which some
    session object is [failed], whatever the environment answers. *)
Lemma no_session_ever_failed :
  ~ exists (Wd : World) (w0 : W) (ops : list Op) (a : ref) (s : ClaudeCodeSession),
      heap (store (apply_ops ops (init w0))) !! a = Some s /\ status s = failed.
Proof.
  intros (Wd & w0 & ops & a & s & Hs & Hfailed).
  destruct (reachable_wf w0 ops) as (_ & _ & Hst). exact (Hst a s Hs Hfailed).
Qed.

(** ** Interleaved calls keep the registry well formed *)

Section Interference.
Context `{World}.
Import DockerService.

Lemma extends_refl (s : Store) : extends s s.
Proof. intros a x Hx. eauto. Qed.

Lemma extends_trans (s1 s2 s3 : Store) : extends s1 s2 -> extends s2 s3 -> extends s1 s3.
Proof.
  intros H12 H23 a x Hx.
  destruct (H12 a x Hx) as (x2 & Hx2 & Hid2 & Hth2).
  destruct (H23 a x2 Hx2) as (x3 & Hx3 & Hid3 & Hth3).
  exists x3. repeat split; congruence.
Qed.

Lemma safe_weaken {A : Type} (Q Q' : A -> Store -> Store -> Prop)
    (E E' : JsError -> Store -> Store -> Prop) (p : Prog A) (s0 s : Store) :
  (forall a s0 s, Q a s0 s -> Q' a s0 s) ->
  (forall e s0 s, E e s0 s -> E' e s0 s) ->
  safe Q E p s0 s -> safe Q' E' p s0 s.
Proof.
  intros HQ HE. revert s0 s.
  induction p as [a|e|X f k IH|k IH|r k IH]; intros s0 s; simpl; eauto.
  intros [Hset Hk]. split; [assumption|]. intros res s' Hext Hwf. eauto.
Qed.

Lemma safe_bind {A B : Type} (Q : B -> Store -> Store -> Prop)
    (E : JsError -> Store -> Store -> Prop) (p : Prog A) (g : A -> Prog B) (s0 s : Store) :
  safe (fun a s0 s => safe Q E (g a) s0 s) E p s0 s -> safe Q E (bind p g) s0 s.
Proof.
  revert s0 s. induction p as [a|e|X f k IH|k IH|r k IH]; intros s0 s; simpl; eauto.
  intros [Hset Hk]. split; [assumption|]. intros res s' Hext Hwf. eauto.
Qed.

Lemma safe_try_catch {A : Type} (Q : A -> Store -> Store -> Prop)
    (E : JsError -> Store -> Store -> Prop) (p : Prog A) (h : JsError -> Prog A)
    (s0 s : Store) :
  safe Q (fun e s0 s => safe Q E (h e) s0 s) p s0 s -> safe Q E (try_catch p h) s0 s.
Proof.
  revert s0 s. induction p as [a|e|X f k IH|k IH|r k IH]; intros s0 s; simpl; eauto.
  intros [Hset Hk]. split; [assumption|]. intros res s' Hext Hwf. eauto.
Qed.

Lemma op_safe_ret {A : Type} (a : A) : op_safe (Ret a).
Proof. intros s0 s Hwf Hext. now split. Qed.

Lemma op_safe_throw {A : Type} (e : JsError) : op_safe (@Throw A e).
Proof. intros s0 s Hwf Hext. now split. Qed.

Lemma op_safe_bind {A B : Type} (p : Prog A) (g : A -> Prog B) :
  op_safe p -> (forall a, op_safe (g a)) -> op_safe (bind p g).
Proof.
  intros Hp Hg s0 s Hwf Hext. apply safe_bind.
  eapply safe_weaken; [| |apply Hp; assumption].
  - intros a s0' s' [Hwf' Hext']. now apply Hg.
  - auto.
Qed.

Lemma op_safe_rethrow {A : Type} (p : Prog A) :
  op_safe p -> op_safe (try_catch p (fun e => Throw e)).
Proof.
  intros Hp s0 s Hwf Hext. apply safe_try_catch.
  eapply safe_weaken; [| |apply Hp; assumption]; auto.
Qed.

Lemma op_safe_readonly {A : Type} (p : Prog A) : readonly p -> op_safe p.
Proof.
  induction 1 as [a|e|X f k Hf Hk IH|k Hk IH|r k Hk IH]; intros s0 s Hwf Hext; simpl.
  - now split.
  - now split.
  - rewrite Hf. now apply IH.
  - intros t. now apply IH.
  - split; [now split|]. intros res s' Hext' Hwf'.
    apply IH; [assumption|apply extends_refl].
Qed.

Lemma op_safe_await (r : Request) : op_safe (await r).
Proof. apply op_safe_readonly, readonly_await. Qed.

Lemma extends_register (s : Store) (k : string) (x : ClaudeCodeSession) :
  extends s {| sessions := JsMap.set k (length (heap s)) (sessions s);
               heap := heap s ++ [x] |}.
Proof.
  intros a y Hy. exists y. simpl. split; [now apply lookup_app_l_Some|now split].
Qed.

Lemma extends_retire (s : Store) (k : string) (a : ref) (x : ClaudeCodeSession) :
  heap s !! a = Some x ->
  extends s {| sessions := JsMap.delete k (sessions s);
               heap := <[a := with_status completed x]> (heap s) |}.
Proof.
  intros Hx b y Hy. simpl. destruct (Nat.eq_dec a b) as [<-|Hne].
  - exists (with_status completed x).
    rewrite list_lookup_insert_eq by eauto using lookup_lt_Some.
    split; [reflexivity|]. rewrite Hx in Hy. injection Hy as <-. now split.
  - exists y. rewrite list_lookup_insert_ne by assumption. now split.
Qed.

Lemma createSession_safe (t c u : string) : op_safe (createSession t c u).
Proof.
  apply op_safe_rethrow.
  apply op_safe_bind; [apply op_safe_bind; [apply op_safe_await|intros; apply op_safe_ret]|].
  intros wp. apply op_safe_bind; [apply op_safe_await|]. intros cid.
  intros s0 s Hwf Hext. simpl. intros now. split.
  - split.
    + now apply wf_register.
    + eapply extends_trans; [exact Hext|apply extends_register].
  - intros res s' Hext' Hwf'. destruct res as [[]|e]; simpl;
      (split; [assumption|apply extends_refl]).
Qed.

(** Between the lookup of [stopSession] and its last two statements the
    store may change; the object keeps its [id], so only the key of this
    very session can still lead to it. *)
Lemma wf_retire_later (s : Store) (k : string) (a : ref) (x : ClaudeCodeSession) :
  wf_store s -> heap s !! a = Some x -> id x = k ->
  wf_store {| sessions := JsMap.delete k (sessions s);
              heap := <[a := with_status completed x]> (heap s) |}.
Proof.
  intros (Hnd & Hreg & Hst) Hx Hid. split; [|split]; simpl.
  - now apply JsMapFacts.NoDup_delete.
  - intros k' a' Hin. apply JsMapFacts.In_delete in Hin as [Hne Hin]; [|assumption].
    destruct (Hreg _ _ Hin) as (x' & Hx' & Hid' & Hrest). exists x'.
    split; [|split; assumption].
    rewrite list_lookup_insert_ne; [assumption|].
    intros <-. apply Hne. congruence.
  - intros a' x' Hx'. destruct (Nat.eq_dec a a') as [<-|Hne].
    + rewrite list_lookup_insert_eq in Hx' by eauto using lookup_lt_Some.
      injection Hx' as <-. discriminate.
    + rewrite list_lookup_insert_ne in Hx' by assumption. eauto.
Qed.

Lemma stopSession_safe (k : string) : op_safe (stopSession k).
Proof.
  apply op_safe_rethrow. intros s0 s Hwf Hext. simpl.
  destruct (JsMap.get k (sessions s)) as [a|] eqn:Hget; simpl; [|now split].
  destruct (heap s !! a) as [x|] eqn:Hx; simpl; [|now split].
  assert (id x = k) as Hid.
  { destruct Hwf as (_ & Hreg & _). apply JsMapFacts.get_In in Hget.
    destruct (Hreg _ _ Hget) as (x' & Hx' & Hid' & _). congruence. }
  split; [now split|]. intros [[]|e1] s1 Hext1 Hwf1; simpl;
    [|split; [assumption|apply extends_refl]].
  split; [split; [assumption|apply extends_refl]|].
  intros [[]|e2] s2 Hext2 Hwf2; simpl; [|split; [assumption|apply extends_refl]].
  destruct (extends_trans _ _ _ Hext1 Hext2 a x Hx) as (x2 & Hx2 & Hid2 & _).
  rewrite Hx2. simpl. split.
  - apply wf_retire_later; [assumption..|congruence].
  - now apply extends_retire.
Qed.

Lemma op_safe_deref (a : ref) : op_safe (deref a).
Proof. apply op_safe_readonly, readonly_deref. Qed.

Lemma sweep_safe (now maxAge : Z) (entries : list (string * ref)) :
  op_safe (sweep now maxAge entries).
Proof.
  induction entries as [|[k a] rest IH]; [apply op_safe_ret|].
  rewrite sweep_cons. apply op_safe_bind; [apply op_safe_deref|].
  intros s. apply op_safe_bind; [|intros _; exact IH].
  destruct (_ >? _)%Z; [apply stopSession_safe|apply op_safe_ret].
Qed.

Lemma cleanupOldSessions_safe (maxAgeHours : Z) : op_safe (cleanupOldSessions maxAgeHours).
Proof.
  intros s0 s Hwf Hext. simpl. intros now. now apply sweep_safe.
Qed.

Lemma call_safe (o : Op) : op_safe (call o).
Proof.
  destruct o as [t c u|k|h|k cmd|k|c t u|k msg|t]; unfold call, void;
    (apply op_safe_bind; [|intros; apply op_safe_ret]).
  - apply createSession_safe.
  - apply stopSession_safe.
  - apply cleanupOldSessions_safe.
  - apply op_safe_readonly, readonly_executeCommand.
  - apply op_safe_readonly, readonly_getWorkspaceFiles.
  - apply op_safe_bind; [apply op_safe_readonly, readonly_read|].
    intros [a|]; [apply op_safe_ret|].
    apply op_safe_bind; [apply op_safe_await|]. intros _.
    apply op_safe_bind; [apply createSession_safe|]. intros a.
    apply op_safe_bind; [apply op_safe_await|]. intros _. apply op_safe_ret.
  - apply op_safe_readonly, readonly_executeClaudeCode.
  - apply op_safe_bind; [apply op_safe_readonly, readonly_read|].
    intros [a|]; [|apply op_safe_ret].
    apply op_safe_bind; [apply op_safe_deref|]. intros s. apply stopSession_safe.
Qed.

Lemma advance_safe {A : Type} (p : Prog A) (st : State) (s0 : Store) :
  safe (fun _ => settled) (fun _ => settled) p s0 (store st) ->
  safe (fun _ => settled) (fun _ => settled) (snd (advance p st)) s0
       (store (fst (advance p st))) /\
  suspended (snd (advance p st)).
Proof.
  revert st. induction p as [a|e|X f k IH|k IH|r k IH]; intros st; simpl.
  - tauto.
  - tauto.
  - intros Hs. destruct (f (store st)) as [s' x] eqn:Hf. simpl in Hs.
    apply (IH x (set_store st s')). exact Hs.
  - intros Hs. apply IH, Hs.
  - tauto.
Qed.

Lemma suspended_stable {A : Type} (p : Prog A) (s0 s : Store) :
  suspended p -> safe (fun _ => settled) (fun _ => settled) p s0 s ->
  settled s0 s /\ stable p s.
Proof.
  destruct p as [a|e|X f k|k|r k]; simpl; try contradiction; intros _ Hs.
  - split; [exact Hs|]. intros s' Hext Hwf. split; [assumption|apply extends_refl].
  - split; [exact Hs|]. intros s' Hext Hwf. split; [assumption|apply extends_refl].
  - destruct Hs as [Hset Hk]. split; [exact Hset|].
    intros s' Hext Hwf. simpl. split; [split; [assumption|apply extends_refl]|].
    intros res s'' Hext' Hwf'. apply Hk; [|assumption].
    eapply extends_trans; eassumption.
Qed.

Lemma stable_later {A : Type} (p : Prog A) (s s' : Store) :
  stable p s -> extends s s' -> stable p s'.
Proof.
  intros Hp Hext s'' Hext' Hwf. apply Hp; [|assumption].
  eapply extends_trans; eassumption.
Qed.

(** One turn of a call that is safe to resume: the store it leaves is well
    formed and extends the one it found, and the call is again safe to
    resume. *)
Lemma turn_stable {A : Type} (p : Prog A) (st : State) :
  wf_store (store st) -> stable p (store st) ->
  settled (store st) (store (fst (turn p st))) /\
  stable (snd (turn p st)) (store (fst (turn p st))).
Proof.
  intros Hwf Hp. specialize (Hp (store st) (extends_refl _) Hwf).
  assert (forall (q : Prog A) st', store st' = store st ->
            safe (fun _ => settled) (fun _ => settled) q (store st) (store st') ->
            settled (store st) (store (fst (advance q st'))) /\
            stable (snd (advance q st')) (store (fst (advance q st')))) as Hadv.
  { intros q st' Heq Hq. destruct (advance_safe q st' (store st) Hq) as [Hs Hsusp].
    now apply suspended_stable. }
  destruct p as [a|e|X f k|k|r k]; try (apply Hadv; [reflexivity|exact Hp]).
  simpl. destruct (perform r (world st)) as [w' res].
  apply Hadv; [reflexivity|]. simpl. destruct Hp as [_ Hk].
  apply Hk; [apply extends_refl|assumption].
Qed.

Lemma step_pool_stable {A : Type} (i : nat) (pool : list (Prog A)) (st : State) :
  wf_store (store st) -> Forall (fun p => stable p (store st)) pool ->
  wf_store (store (fst (step_pool i pool st))) /\
  Forall (fun p => stable p (store (fst (step_pool i pool st)))) (snd (step_pool i pool st)).
Proof.
  intros Hwf Hpool. unfold step_pool.
  destruct (pool !! i) as [p|] eqn:Hp; [|now split].
  assert (stable p (store st)) as Hstable.
  { rewrite Forall_forall in Hpool. apply Hpool. eapply list_elem_of_lookup_2. exact Hp. }
  destruct (turn_stable p st Hwf Hstable) as [[Hwf' Hext] Hp'].
  destruct (turn p st) as [st' p']. simpl in *. split; [assumption|].
  apply Forall_insert; [|assumption].
  eapply Forall_impl; [exact Hpool|]. intros q Hq. cbv beta in Hq.
  exact (stable_later q _ _ Hq Hext).
Qed.

Lemma run_schedule_stable {A : Type} (sched : list nat) (pool : list (Prog A)) (st : State) :
  wf_store (store st) -> Forall (fun p => stable p (store st)) pool ->
  wf_store (store (fst (run_schedule sched pool st))).
Proof.
  revert pool st. induction sched as [|i sched IH]; intros pool st Hwf Hpool; simpl;
    [assumption|].
  destruct (step_pool_stable i pool st Hwf Hpool) as [Hwf' Hpool'].
  destruct (step_pool i pool st) as [st' pool']. simpl in *. now apply IH.
Qed.

(** Whatever calls are in flight and however their turns interleave, the
    registry stays well formed. *)
Lemma interleaved_wf (w0 : W) (ops : list Op) (sched : list nat) :
  wf_store (store (fst (run_schedule sched (map call ops) (init w0)))).
Proof.
  apply run_schedule_stable; [exact wf_empty|].
  apply Forall_forall. intros p Hp. apply list_elem_of_In, in_map_iff in Hp as (o & <- & _).
  intros s' Hext Hwf. apply call_safe; [assumption|apply extends_refl].
Qed.
End Interference.

(** X25: the registry invariant under interleaving, for calls other than
    the cleanup sweep: with any such calls in flight, taking turns in any
    order, at most one stored session is [running] for a thread, every
    stored session carries its key as [id] and [threadId], and no session
    object is [failed]. *)
Theorem interleaved_registry_invariant `{World}
    (w0 : W) (ops : list Op) (sched : list nat) :
  forallb (fun o => negb (is_sweep o)) ops = true ->
  let s := store (fst (run_schedule sched (map call ops) (init w0))) in
  (forall t,
     (length (List.filter (running_for t (heap s)) (JsMap.values (sessions s))) <= 1)%nat) /\
  (forall k a,
     In (k, a) (sessions s) ->
     exists x, heap s !! a = Some x /\ id x = k /\ threadId x = k) /\
  (forall (a : ref) x, heap s !! a = Some x -> status x <> failed).
Proof.
  intros _ s. pose proof (interleaved_wf w0 ops sched) as Hwf. fold s in Hwf.
  destruct Hwf as (Hnd & Hreg & Hst). split; [|split].
  - intros t. apply (filter_at_most_one _ t); [assumption|].
    intros k a Hin Hrun. unfold running_for in Hrun.
    destruct (Hreg k a Hin) as (x & Hx & _ & Hth & _). rewrite Hx in Hrun.
    apply andb_true_iff in Hrun as [Heq _]. apply String.eqb_eq in Heq. congruence.
  - intros k a Hin. destruct (Hreg k a Hin) as (x & Hx & Hid & Hth & _). eauto.
  - exact Hst.
Qed.

Section CalmInterleaved.
#[local] Existing Instance calm_world.

Lemma interleaved_registry_invariant_witness :
  let ops := [ op_processMessage "ch" "t1" "u1";
               op_processMessage "ch" "t1" "u2";
               op_stopSession "t1" ] in
  let sched := [0; 1; 2; 0; 1; 2; 0; 1; 2; 0; 1; 0; 1; 0; 1]%nat in
  let s := store (fst (run_schedule sched (map call ops) (init sim0))) in
  forallb (fun o => negb (is_sweep o)) ops = true /\
  (forall t,
     (length (List.filter (running_for t (heap s)) (JsMap.values (sessions s))) <= 1)%nat) /\
  (forall k a,
     In (k, a) (sessions s) ->
     exists x, heap s !! a = Some x /\ id x = k /\ threadId x = k) /\
  (forall (a : ref) x, heap s !! a = Some x -> status x <> failed).
Proof.
  intros ops sched s. split; [reflexivity|].
  exact (interleaved_registry_invariant (H := calm_world) sim0 ops sched eq_refl).
Defined.
End CalmInterleaved.

(** * Further properties of the services *)

(** ** Lookup, registration and teardown *)

Section Registry.
Context `{World}.
Import DockerService.

Lemma get_set_ne {V : Type} (m : list (string * V)) (k k' : string) (v : V) :
  k' <> k -> JsMap.get k' (JsMap.set k v m) = JsMap.get k' m.
Proof.
  intros Hne. induction m as [|[k0 v0] m IH]; simpl.
  - destruct (String.eqb_spec k k'); [congruence|reflexivity].
  - destruct (String.eqb_spec k0 k) as [->|Hk0]; simpl.
    + destruct (String.eqb_spec k k'); [congruence|reflexivity].
    + destruct (String.eqb_spec k0 k'); [reflexivity|exact IH].
Qed.

Lemma get_delete_ne {V : Type} (m : list (string * V)) (k k' : string) :
  k' <> k -> JsMap.get k' (JsMap.delete k m) = JsMap.get k' m.
Proof.
  intros Hne. induction m as [|[k0 v0] m IH]; simpl; [reflexivity|].
  destruct (String.eqb_spec k0 k) as [->|Hk0]; simpl.
  - destruct (String.eqb_spec k k'); [congruence|reflexivity].
  - destruct (String.eqb_spec k0 k'); [reflexivity|exact IH].
Qed.

Lemma delete_set_fresh {V : Type} (m : list (string * V)) (k : string) (v : V) :
  JsMap.get k m = None -> JsMap.delete k (JsMap.set k v m) = m.
Proof.
  induction m as [|[k0 v0] m IH]; simpl.
  - now rewrite String.eqb_refl.
  - destruct (String.eqb_spec k0 k) as [->|Hk0]; [discriminate|]. simpl.
    destruct (String.eqb_spec k0 k); [congruence|]. intros Hn. now rewrite IH.
Qed.

Lemma length_set {V : Type} (m : list (string * V)) (k : string) (v : V) :
  length (JsMap.set k v m)
  = match JsMap.get k m with Some _ => length m | None => S (length m) end.
Proof.
  induction m as [|[k0 v0] m IH]; simpl; [reflexivity|].
  destruct (String.eqb_spec k0 k) as [->|Hk0]; simpl; [reflexivity|].
  rewrite IH. now destruct (JsMap.get k m).
Qed.

Lemma length_delete {V : Type} (m : list (string * V)) (k : string) :
  length (JsMap.delete k m)
  = match JsMap.get k m with Some _ => pred (length m) | None => length m end.
Proof.
  induction m as [|[k0 v0] m IH]; simpl; [reflexivity|].
  destruct (String.eqb_spec k0 k) as [->|Hk0]; simpl; [reflexivity|].
  rewrite IH. destruct (JsMap.get k m) eqn:Hg; [|reflexivity].
  destruct m; [discriminate|reflexivity].
Qed.

(** In a well-formed store the scan by [threadId] and the lookup by key
    agree. *)
Lemma find_by_thread_get (s : Store) (t : string) :
  wf_store s -> find_by_thread t s = JsMap.get t (sessions s).
Proof.
  intros (_ & Hreg & _). unfold find_by_thread.
  induction (sessions s) as [|[k a] m IH]; simpl; [reflexivity|].
  destruct (Hreg k a (or_introl eq_refl)) as (x & Hx & _ & Hth & _).
  rewrite Hx, Hth. destruct (String.eqb k t); [reflexivity|].
  apply IH. intros k' a' Hin. apply Hreg. now right.
Qed.
End Registry.

(** X1: [stopSession] for a key without a session succeeds, issues no
    request and changes nothing. *)
Theorem stopSession_absent `{World} (st : State) (k : string) :
  JsMap.get k (sessions (store st)) = None ->
  run (DockerService.stopSession k) st = (st, Ok tt).
Proof. intros Hget. now rewrite stopSession_run, Hget. Qed.

(** X2: when [stopSession] rejects on a well-formed store, the registry and
    every session object are as before: the session stays registered and
    [running].  The rejection is the engine's answer to stop, and then
    remove was never asked; or stop was accepted and the rejection is the
    engine's answer to remove. *)
Theorem stopSession_rejected `{World} (st st' : State) (k : string) (e : JsError) :
  wf_store (store st) ->
  run (DockerService.stopSession k) st = (st', Err e) ->
  store st' = store st /\
  exists (a : ref) s,
    JsMap.get k (sessions (store st)) = Some a /\
    heap (store st) !! a = Some s /\ status s = running /\
    ((snd (perform (container_stop (containerId s) 10) (world st)) = Err e /\
      calls st' = calls st ++ [container_stop (containerId s) 10]) \/
     (snd (perform (container_stop (containerId s) 10) (world st)) = Ok tt /\
      snd (perform (container_remove (containerId s))
             (fst (perform (container_stop (containerId s) 10) (world st)))) = Err e /\
      calls st' = calls st ++ [container_stop (containerId s) 10;
                               container_remove (containerId s)])).
Proof.
  intros (_ & Hreg & _). rewrite stopSession_run.
  destruct (JsMap.get k (sessions (store st))) as [a|] eqn:Hget; [|discriminate].
  destruct (Hreg k a (JsMapFacts.get_In _ _ _ Hget)) as (s & Hs & _ & _ & Hrun).
  rewrite Hs. cbv zeta.
  destruct (perform (container_stop (containerId s) 10) (world st)) as [w1 [[]|e1]] eqn:Hstop.
  - destruct (perform (container_remove (containerId s)) w1) as [w2 [[]|e2]] eqn:Hrm;
      [discriminate|].
    intros [= <- <-]. split; [reflexivity|]. exists a, s. repeat split; try assumption.
    right. rewrite Hstop. cbn [fst snd]. rewrite Hrm. split; [reflexivity|].
    split; [reflexivity|]. unfold answered. simpl. now rewrite <- app_assoc.
  - intros [= <- <-]. split; [reflexivity|]. exists a, s. repeat split; try assumption.
    left. rewrite Hstop. split; reflexivity.
Qed.

(** X3: on a well-formed store, [getSessionByThread(t)] returns exactly the
    session stored under key [t], and so [ClaudeCodeService.stopSession(t)]
    runs as [DockerService.stopSession(t)] does. *)
Theorem stopSession_by_thread `{World} (st : State) (t : string) :
  wf_store (store st) ->
  DockerService.find_by_thread t (store st) = JsMap.get t (sessions (store st)) /\
  run (ClaudeCodeService.stopSession t) st = run (DockerService.stopSession t) st.
Proof.
  intros Hwf. pose proof (find_by_thread_get (store st) t Hwf) as Hfind.
  split; [exact Hfind|].
  unfold ClaudeCodeService.stopSession, DockerService.getSessionByThread.
  rewrite run_bind, run_read, Hfind.
  destruct (JsMap.get t (sessions (store st))) as [a|] eqn:Hget.
  - destruct Hwf as (_ & Hreg & _).
    destruct (Hreg t a (JsMapFacts.get_In _ _ _ Hget)) as (s & Hs & Hid & _).
    rewrite run_bind, (run_deref a s st Hs), Hid. reflexivity.
  - now rewrite stopSession_run, Hget.
Qed.

(** X4: after a [createSession] that succeeds on a well-formed store, the
    lookup by thread and the lookup by key both return the new session; it
    is [running], carries the container handle the engine answered with and
    the clock value read after that answer; the requests were mkdir, create
    and start, in that order. *)
Theorem createSession_registers `{World} (st st' : State) (t c u : string) (a : ref) :
  wf_store (store st) ->
  run (DockerService.createSession t c u) st = (st', Ok a) ->
  DockerService.find_by_thread t (store st') = Some a /\
  JsMap.get t (sessions (store st')) = Some a /\
  exists w1 w2 cid,
    perform (docker_createContainer
               (DockerService.containerOptions t t (DockerService.workspaceOf t))) w1
      = (w2, Ok cid) /\
    heap (store st') !! a = Some (DockerService.newSession t t c u cid (clock w2)) /\
    calls st' = calls st ++
      [ fs_mkdir (DockerService.workspaceOf t);
        docker_createContainer
          (DockerService.containerOptions t t (DockerService.workspaceOf t));
        container_start cid ].
Proof.
  intros Hwf Hrun.
  assert (wf_store (store st')) as Hwf'.
  { pose proof (createSession_wf t c u st Hwf) as Hp. now rewrite Hrun in Hp. }
  rewrite (find_by_thread_get _ _ Hwf'). clear Hwf'.
  revert Hrun. rewrite createSession_run. cbv zeta.
  destruct (perform (fs_mkdir (DockerService.workspaceOf t)) (world st))
    as [w1 [[]|e1]]; [|discriminate].
  destruct (perform (docker_createContainer _) w1) as [w2 [cid|e2]] eqn:Hcr;
    [|discriminate].
  destruct (perform (container_start cid) w2) as [w3 [[]|e3]]; [|discriminate].
  intros [= <- <-]. unfold answered, set_store. cbn [store sessions heap calls].
  assert (JsMap.get t (JsMap.set t (length (heap (store st))) (sessions (store st)))
          = Some (length (heap (store st)))) as Hget by apply JsMapFacts.get_set_eq.
  split; [exact Hget|]. split; [exact Hget|].
  exists w1, w2, cid. split; [exact Hcr|]. split.
  - apply list_lookup_middle. reflexivity.
  - now rewrite <- !app_assoc.
Qed.

(** X5: create, then stop.  From a well-formed store without a session for
    [t], a successful [createSession(t)] followed by a successful
    [stopSession(t)] leaves the session map exactly as it was; the thread
    has no session again, the object is [completed], and the engine saw
    mkdir, create, start, stop, remove for one and the same handle. *)
Theorem create_then_stop `{World} (st st1 st2 : State) (t c u : string) (a : ref) :
  wf_store (store st) ->
  JsMap.get t (sessions (store st)) = None ->
  run (DockerService.createSession t c u) st = (st1, Ok a) ->
  run (DockerService.stopSession t) st1 = (st2, Ok tt) ->
  sessions (store st2) = sessions (store st) /\
  DockerService.find_by_thread t (store st2) = None /\
  exists cid now,
    heap (store st2)
      = heap (store st) ++
        [with_status completed (DockerService.newSession t t c u cid now)] /\
    calls st2 = calls st ++
      [ fs_mkdir (DockerService.workspaceOf t);
        docker_createContainer
          (DockerService.containerOptions t t (DockerService.workspaceOf t));
        container_start cid;
        container_stop cid 10;
        container_remove cid ].
Proof.
  intros Hwf Hnone Hcreate Hstop.
  assert (wf_store (store st2)) as Hwf2.
  { pose proof (createSession_wf t c u st Hwf) as H1. rewrite Hcreate in H1.
    pose proof (stopSession_wf t st1 H1) as H2. now rewrite Hstop in H2. }
  rewrite (find_by_thread_get _ _ Hwf2). clear Hwf2.
  revert Hcreate. rewrite createSession_run. cbv zeta.
  destruct (perform (fs_mkdir (DockerService.workspaceOf t)) (world st))
    as [w1 [[]|e1]]; [|discriminate].
  destruct (perform (docker_createContainer _) w1) as [w2 [cid|e2]]; [|discriminate].
  destruct (perform (container_start cid) w2) as [w3 [[]|e3]]; [|discriminate].
  intros [= <- <-].
  rewrite stopSession_run in Hstop. unfold answered, set_store in Hstop.
  cbn [store sessions heap world calls] in Hstop.
  rewrite JsMapFacts.get_set_eq in Hstop.
  rewrite list_lookup_middle in Hstop by reflexivity.
  cbv zeta in Hstop. cbn [containerId DockerService.newSession] in Hstop.
  destruct (perform (container_stop cid 10) w3) as [w4 [[]|e4]]; [|discriminate].
  destruct (perform (container_remove cid) w4) as [w5 [[]|e5]]; [|discriminate].
  injection Hstop as <-. cbn [store sessions heap calls].
  rewrite (delete_set_fresh _ _ _ Hnone).
  split; [reflexivity|]. split; [exact Hnone|].
  exists cid, (clock w2). split.
  - rewrite insert_app_r_alt by lia. rewrite Nat.sub_diag. reflexivity.
  - now rewrite <- !app_assoc.
Qed.

(** ** Sessions do not disturb each other *)

(** X6: [stopSession(k)], whatever its outcome, leaves every other key of a
    well-formed registry bound to the same object, and that object
    unchanged. *)
Theorem stopSession_leaves_others `{World} (st : State) (k k' : string) :
  wf_store (store st) -> k' <> k ->
  let st' := after (DockerService.stopSession k) st in
  JsMap.get k' (sessions (store st')) = JsMap.get k' (sessions (store st)) /\
  forall (a' : ref) s',
    JsMap.get k' (sessions (store st)) = Some a' ->
    heap (store st) !! a' = Some s' ->
    heap (store st') !! a' = Some s'.
Proof.
  intros Hwf Hne st'. subst st'. unfold after. rewrite stopSession_run.
  destruct (JsMap.get k (sessions (store st))) as [a|] eqn:Hget; [|now split].
  destruct (heap (store st) !! a) as [s|] eqn:Hs; [|now split]. cbv zeta.
  destruct (perform (container_stop (containerId s) 10) (world st)) as [w1 [[]|e1]];
    [|now split].
  destruct (perform (container_remove (containerId s)) w1) as [w2 [[]|e2]];
    [|now split].
  cbn [fst store set_store sessions heap]. split; [now apply get_delete_ne|].
  intros a' s' Hget' Hs'. rewrite list_lookup_insert_ne; [assumption|].
  intros <-. apply Hne.
  eapply wf_refs_inj; eauto using JsMapFacts.get_In.
Qed.

(** X7: [createSession(t)], whatever its outcome, leaves every other key
    bound as before and every existing session object unchanged. *)
Theorem createSession_leaves_others `{World} (st : State) (t c u : string) :
  let st' := after (DockerService.createSession t c u) st in
  (forall k', k' <> t ->
     JsMap.get k' (sessions (store st')) = JsMap.get k' (sessions (store st))) /\
  (forall (a' : ref) s',
     heap (store st) !! a' = Some s' -> heap (store st') !! a' = Some s').
Proof.
  intros st'. subst st'. unfold after. rewrite createSession_run. cbv zeta.
  destruct (perform (fs_mkdir (DockerService.workspaceOf t)) (world st))
    as [w1 [[]|e1]]; [|now split].
  destruct (perform (docker_createContainer _) w1) as [w2 [cid|e2]]; [|now split].
  destruct (perform (container_start cid) w2) as [w3 r3].
  cbn [fst store answered set_store sessions heap]. split.
  - intros k' Hne. now apply get_set_ne.
  - intros a' s' Hs'. now apply lookup_app_l_Some.
Qed.

(** ** Which containers are torn down *)

Section Teardown.
Context `{World}.
Import DockerService.

Lemma sub_registered_refl (s : Store) : sub_registered s s.
Proof. intros k a x Hin Hx. eauto. Qed.

Lemma sub_registered_trans (s1 s2 s3 : Store) :
  sub_registered s1 s2 -> sub_registered s2 s3 -> sub_registered s1 s3.
Proof.
  intros H12 H23 k a x Hin Hx.
  destruct (H12 k a x Hin Hx) as (x2 & Hin2 & Hx2 & Hc2).
  destruct (H23 k a x2 Hin2 Hx2) as (x3 & Hin3 & Hx3 & Hc3).
  exists x3. repeat split; congruence.
Qed.

Lemma targets_registered_sub (s s0 : Store) (r : Request) :
  sub_registered s s0 -> targets_registered s r -> targets_registered s0 r.
Proof.
  intros Hsub (k & a & x & Hin & Hx & Hr).
  destruct (Hsub k a x Hin Hx) as (x0 & Hin0 & Hx0 & Hc).
  exists k, a, x0. repeat split; try assumption.
  unfold teardown_of in *. now rewrite Hc.
Qed.

(** A program free of [P] logs only requests outside [P]. *)
Lemma free_of_calls {A : Type} (P : Request -> bool) (p : Prog A) (st : State) :
  free_of P p ->
  exists l, calls (fst (run p st)) = calls st ++ l /\ Forall (fun r => P r = false) l.
Proof.
  intros Hp. revert st.
  induction Hp as [a|e|X f k Hk IH|k Hk IH|r k Hr Hk IH]; intros st; simpl.
  - exists []. split; [now rewrite app_nil_r|constructor].
  - exists []. split; [now rewrite app_nil_r|constructor].
  - destruct (f (store st)) as [s' x]. apply (IH x (set_store st s')).
  - apply IH.
  - destruct (perform r (world st)) as [w' res].
    destruct (IH res (answered st r w')) as (l & Hl & Hall).
    exists (r :: l). split; [|now constructor].
    rewrite Hl. simpl. now rewrite <- app_assoc.
Qed.

Lemma free_of_bind {A B : Type} (P : Request -> bool) (p : Prog A) (g : A -> Prog B) :
  free_of P p -> (forall a, free_of P (g a)) -> free_of P (bind p g).
Proof. induction 1; intros Hg; simpl; try constructor; auto. Qed.

Lemma free_of_try_catch {A : Type} (P : Request -> bool) (p : Prog A)
    (h : JsError -> Prog A) :
  free_of P p -> (forall e, free_of P (h e)) -> free_of P (try_catch p h).
Proof. induction 1; intros Hh; simpl; try constructor; auto. Qed.

Lemma free_of_await (P : Request -> bool) (r : Request) :
  P r = false -> free_of P (await r).
Proof. intros Hr. constructor; [assumption|]. intros [x|e]; constructor. Qed.

Lemma free_of_read {X : Type} (P : Request -> bool) (f : Store -> X) :
  free_of P (read f).
Proof. constructor. intros x. constructor. Qed.

Lemma createSession_no_teardown (t c u : string) :
  free_of is_teardown (createSession t c u).
Proof.
  apply free_of_try_catch; [|constructor].
  apply free_of_bind.
  { apply free_of_bind; [now apply free_of_await|]. intros. constructor. }
  intros wp. apply free_of_bind; [now apply free_of_await|]. intros cid.
  constructor. intros now. constructor. intros a. constructor. intros _.
  apply free_of_bind; [now apply free_of_await|]. intros. constructor.
Qed.

Lemma executeCommand_no_teardown (k : string) (cmd : list string) :
  free_of is_teardown (executeCommand k cmd).
Proof.
  apply free_of_try_catch; [|constructor].
  apply free_of_bind; [apply free_of_read|]. intros [a|]; [|constructor].
  apply free_of_bind.
  { apply free_of_bind; [apply free_of_read|]. intros [s|]; constructor. }
  intros s. exact (free_of_await _ (container_exec (containerId s) cmd) eq_refl).
Qed.

Lemma getWorkspaceFiles_no_teardown (k : string) :
  free_of is_teardown (getWorkspaceFiles k).
Proof.
  apply free_of_try_catch; [|constructor].
  apply free_of_bind; [now apply free_of_await|].
  intros root. destruct (readDir "" root []); constructor.
Qed.

Lemma executeClaudeCode_no_teardown (k msg : string) :
  free_of is_teardown (ClaudeCodeService.executeClaudeCode k msg).
Proof.
  apply free_of_try_catch; [|constructor].
  constructor. intros now.
  apply free_of_bind; [apply executeCommand_no_teardown|]. intros _.
  apply free_of_bind; [apply executeCommand_no_teardown|]. intros result.
  apply free_of_bind; [apply getWorkspaceFiles_no_teardown|]. constructor.
Qed.

Lemma processMessage_session_no_teardown (c t u : string) :
  free_of is_teardown (ClaudeCodeService.processMessage_session c t u).
Proof.
  apply free_of_bind; [apply free_of_read|]. intros [a|]; [constructor|].
  apply free_of_bind; [now apply free_of_await|]. intros _.
  apply free_of_bind; [apply createSession_no_teardown|]. intros a.
  apply free_of_bind; [now apply free_of_await|]. constructor.
Qed.

(** A program whose teardown requests all target sessions registered in
    [s0], from any well-formed store whose registrations come from [s0],
    and which only removes registrations. *)
Definition tears_registered {A : Type} (p : Prog A) : Prop :=
  forall st s0, wf_store (store st) -> sub_registered (store st) s0 ->
    sub_registered (store (fst (run p st))) s0 /\
    exists l, calls (fst (run p st)) = calls st ++ l /\
              Forall (fun r => is_teardown r = true -> targets_registered s0 r) l.

Lemma tears_registered_bind {A B : Type} (p : Prog A) (g : A -> Prog B) :
  preserves wf_store p ->
  tears_registered p -> (forall a, tears_registered (g a)) ->
  tears_registered (bind p g).
Proof.
  intros Hwfp Hp Hg st s0 Hwf Hsub. rewrite run_bind.
  destruct (Hp st s0 Hwf Hsub) as (Hsub1 & l1 & Hl1 & Hall1).
  specialize (Hwfp st Hwf).
  destruct (run p st) as [st1 [a|e]]; simpl in *.
  - destruct (Hg a st1 s0 Hwfp Hsub1) as (Hsub2 & l2 & Hl2 & Hall2).
    split; [assumption|]. exists (l1 ++ l2). split.
    + rewrite Hl2, Hl1. now rewrite <- app_assoc.
    + now apply Forall_app.
  - split; [assumption|]. eauto.
Qed.

Lemma tears_registered_readonly {A : Type} (p : Prog A) :
  readonly p -> free_of is_teardown p -> tears_registered p.
Proof.
  intros Hro Hfree st s0 Hwf Hsub. rewrite (readonly_run p st Hro).
  split; [assumption|].
  destruct (free_of_calls is_teardown p st Hfree) as (l & Hl & Hall).
  exists l. split; [assumption|].
  eapply Forall_impl; [exact Hall|]. intros r Hr Ht. congruence.
Qed.

Lemma tears_registered_ret {A : Type} (a : A) : tears_registered (Ret a).
Proof.
  intros st s0 Hwf Hsub. simpl. split; [assumption|].
  exists []. split; [now rewrite app_nil_r|constructor].
Qed.

Lemma stopSession_tears_registered (k : string) : tears_registered (stopSession k).
Proof.
  intros st s0 Hwf Hsub. rewrite stopSession_run.
  assert (exists l, calls st = calls st ++ l /\
            Forall (fun r => is_teardown r = true -> targets_registered s0 r) l) as Hnil.
  { exists []. split; [now rewrite app_nil_r|constructor]. }
  destruct (JsMap.get k (sessions (store st))) as [a|] eqn:Hget; [|now split].
  destruct (heap (store st) !! a) as [s|] eqn:Hs; [|now split]. cbv zeta.
  assert (forall r, teardown_of s r -> targets_registered s0 r) as Htarget.
  { intros r Hr. apply (targets_registered_sub (store st)); [assumption|].
    exists k, a, s. eauto using JsMapFacts.get_In. }
  destruct (perform (container_stop (containerId s) 10) (world st)) as [w1 [[]|e1]].
  2:{ split; [assumption|]. exists [container_stop (containerId s) 10].
      split; [reflexivity|]. constructor; [|constructor].
      intros _. apply Htarget. now left. }
  destruct (perform (container_remove (containerId s)) w1) as [w2 [[]|e2]].
  2:{ split; [assumption|].
      exists [container_stop (containerId s) 10; container_remove (containerId s)].
      split; [simpl; now rewrite <- app_assoc|].
      constructor; [intros _; apply Htarget; now left|].
      constructor; [intros _; apply Htarget; now right|constructor]. }
  cbn [fst store set_store answered sessions heap calls]. split.
  - eapply sub_registered_trans; [|exact Hsub].
    intros k' a' x' Hin Hx'. cbn [sessions heap] in *.
    destruct Hwf as (Hnd & Hreg & _).
    apply JsMapFacts.In_delete in Hin as [Hne Hin]; [|assumption].
    assert (a' <> a) as Hne'.
    { intros ->. apply Hne. apply JsMapFacts.get_In in Hget.
      destruct (Hreg _ _ Hin) as (y1 & Hy1 & Hid1 & _).
      destruct (Hreg _ _ Hget) as (y2 & Hy2 & Hid2 & _). congruence. }
    rewrite list_lookup_insert_ne in Hx' by congruence. eauto.
  - exists [container_stop (containerId s) 10; container_remove (containerId s)].
    split; [now rewrite <- app_assoc|].
    constructor; [intros _; apply Htarget; now left|].
    constructor; [intros _; apply Htarget; now right|constructor].
Qed.

Lemma sweep_tears_registered (now maxAge : Z) (entries : list (string * ref)) :
  tears_registered (sweep now maxAge entries).
Proof.
  induction entries as [|[k a] rest IH]; [apply tears_registered_ret|].
  rewrite sweep_cons.
  apply tears_registered_bind.
  - apply preserves_readonly, readonly_deref.
  - apply tears_registered_readonly; [apply readonly_deref|].
    apply free_of_bind; [apply free_of_read|]. intros [s|]; constructor.
  - intros s. apply tears_registered_bind; [| |intros _; exact IH].
    + destruct (_ >? _)%Z; [apply stopSession_wf|intros st Hwf; assumption].
    + destruct (_ >? _)%Z; [apply stopSession_tears_registered|apply tears_registered_ret].
Qed.

Lemma tears_registered_free {A : Type} (p : Prog A) (st : State) :
  free_of is_teardown p ->
  exists l, calls (fst (run p st)) = calls st ++ l /\
            Forall (fun r => is_teardown r = true -> targets_registered (store st) r) l.
Proof.
  intros Hfree. destruct (free_of_calls is_teardown p st Hfree) as (l & Hl & Hall).
  exists l. split; [assumption|].
  eapply Forall_impl; [exact Hall|]. intros r Hr Ht. congruence.
Qed.

Lemma tears_registered_here {A : Type} (p : Prog A) (st : State) :
  tears_registered p -> wf_store (store st) ->
  exists l, calls (fst (run p st)) = calls st ++ l /\
            Forall (fun r => is_teardown r = true -> targets_registered (store st) r) l.
Proof.
  intros Hp Hwf. now destruct (Hp st (store st) Hwf (sub_registered_refl _)) as [_ Hl].
Qed.
End Teardown.

(** X8: whatever call is made on a well-formed store, every stop and every
    remove it sends to the engine names the container of a session that was
    registered when the call began.  A container whose session is not in
    the registry is never torn down. *)
Theorem teardown_only_registered `{World} (o : Op) (st : State) :
  wf_store (store st) ->
  exists l,
    calls (apply_op o st) = calls st ++ l /\
    forall r, In r l -> is_teardown r = true -> targets_registered (store st) r.
Proof.
  intros Hwf.
  assert (forall (A : Type) (p : Prog A),
            (exists l, calls (fst (run p st)) = calls st ++ l /\
               Forall (fun r => is_teardown r = true ->
                                targets_registered (store st) r) l) ->
            exists l, calls (after (void p) st) = calls st ++ l /\
              forall r, In r l -> is_teardown r = true ->
                        targets_registered (store st) r) as Hvoid.
  { intros A p (l & Hl & Hall). exists l. split.
    - unfold after, void. rewrite run_bind.
      destruct (run p st) as [st1 [a|e]]; exact Hl.
    - rewrite Forall_forall in Hall. intros r Hin. apply Hall.
      now apply list_elem_of_In. }
  destruct o as [t c u|k|h|k cmd|k|c t u|k msg|t]; unfold apply_op, call; apply Hvoid.
  - apply tears_registered_free, createSession_no_teardown.
  - apply tears_registered_here; [apply stopSession_tears_registered|assumption].
  - unfold DockerService.cleanupOldSessions. simpl.
    apply (tears_registered_here _ (set_store st (store st)));
      [apply sweep_tears_registered|assumption].
  - apply tears_registered_free, executeCommand_no_teardown.
  - apply tears_registered_free, getWorkspaceFiles_no_teardown.
  - apply tears_registered_free, processMessage_session_no_teardown.
  - apply tears_registered_free, executeClaudeCode_no_teardown.
  - apply tears_registered_here; [|assumption].
    apply tears_registered_bind.
    + apply preserves_readonly, readonly_read.
    + apply tears_registered_readonly; [apply readonly_read|apply free_of_read].
    + intros [a|]; [|apply tears_registered_ret].
      apply tears_registered_bind.
      * apply preserves_readonly, readonly_deref.
      * apply tears_registered_readonly; [apply readonly_deref|].
        apply free_of_bind; [apply free_of_read|]. intros [s|]; constructor.
      * intros s. apply stopSession_tears_registered.
Qed.

(** X9: the number of listed sessions.  [createSession(t)] adds one session
    when the container was created and [t] had no session, also when the
    start is then rejected; it leaves the number alone when [t] had a
    session or when nothing was created.  [stopSession(k)] removes one
    session when it resolves and [k] had one, and none otherwise. *)
Theorem listSessions_count `{World} (st : State) (t c u k : string) :
  let n := length (JsMap.values (sessions (store st))) in
  let mk := fs_mkdir (DockerService.workspaceOf t) in
  let cr := docker_createContainer
              (DockerService.containerOptions t t (DockerService.workspaceOf t)) in
  length (JsMap.values (sessions (store (after (DockerService.createSession t c u) st))))
  = match snd (perform mk (world st)),
          snd (perform cr (fst (perform mk (world st)))),
          JsMap.get t (sessions (store st)) with
    | Ok _, Ok _, None => S n
    | _, _, _ => n
    end /\
  length (JsMap.values (sessions (store (after (DockerService.stopSession k) st))))
  = match snd (run (DockerService.stopSession k) st),
          JsMap.get k (sessions (store st)) with
    | Ok _, Some _ => pred n
    | _, _ => n
    end.
Proof.
  intros n mk cr. subst n mk cr. unfold JsMap.values, after. rewrite !length_map. split.
  - rewrite createSession_run. cbv zeta.
    destruct (perform (fs_mkdir (DockerService.workspaceOf t)) (world st))
      as [w1 [[]|e1]]; cbn [fst snd]; [|reflexivity].
    destruct (perform (docker_createContainer _) w1) as [w2 [cid|e2]]; cbn [fst snd];
      [|now destruct (JsMap.get t (sessions (store st)))].
    destruct (perform (container_start cid) w2) as [w3 r3].
    cbn [fst store answered set_store sessions]. rewrite length_set.
    now destruct (JsMap.get t (sessions (store st))).
  - rewrite stopSession_run.
    destruct (JsMap.get k (sessions (store st))) as [a|] eqn:Hget; [|reflexivity].
    destruct (heap (store st) !! a) as [s|]; [|reflexivity]. cbv zeta.
    destruct (perform (container_stop (containerId s) 10) (world st)) as [w1 [[]|e1]];
      [|reflexivity].
    destruct (perform (container_remove (containerId s)) w1) as [w2 [[]|e2]];
      [|reflexivity].
    cbn [fst snd store set_store sessions]. rewrite length_delete, Hget. reflexivity.
Qed.

(** ** What [executeClaudeCode] returns and sends *)

(** X10: [executeClaudeCode] never rejects and never changes the registry.
    Its response has [success] exactly when [error] is absent; a successful
    response carries an output and an artifact list; a response without an
    artifact list is a failure without output. *)
Theorem executeClaudeCode_never_rejects `{World} (st : State) (sid msg : string) :
  exists resp,
    snd (run (ClaudeCodeService.executeClaudeCode sid msg) st) = Ok resp /\
    store (fst (run (ClaudeCodeService.executeClaudeCode sid msg) st)) = store st /\
    (success resp = true <-> error resp = None) /\
    (success resp = true -> output resp <> None /\ artifacts resp <> None) /\
    (artifacts resp = None -> success resp = false /\ output resp = None).
Proof.
  assert (forall e, let resp := ClaudeCodeService.errorResponse e in
            (success resp = true <-> error resp = None) /\
            (success resp = true -> output resp <> None /\ artifacts resp <> None) /\
            (artifacts resp = None -> success resp = false /\ output resp = None))
    as Herr.
  { intros e. simpl. repeat split; intros; discriminate. }
  assert (forall r fs, let resp := ClaudeCodeService.resultResponse r fs in
            (success resp = true <-> error resp = None) /\
            (success resp = true -> output resp <> None /\ artifacts resp <> None) /\
            (artifacts resp = None -> success resp = false /\ output resp = None))
    as Hres.
  { intros r fs. simpl. destruct (truthy (snd r)); simpl;
      repeat split; intros; discriminate. }
  rewrite (readonly_run _ st (readonly_executeClaudeCode sid msg)).
  rewrite executeClaudeCode_run.
  destruct (JsMap.get sid (sessions (store st))) as [a|]; [|eauto].
  destruct (heap (store st) !! a) as [s|]; [|eauto]. cbv zeta.
  destruct (perform _ (world st)) as [w1 [x1|e1]]; [|eauto].
  destruct (perform _ w1) as [w2 [result|e2]]; [|eauto].
  destruct (perform _ w2) as [w3 [root|e3]]; [|eauto].
  destruct (DockerService.readDir "" root []) as [files|e]; eauto.
Qed.

(** X11: the requests of one [executeClaudeCode(sid, msg)].  Without a
    session for [sid] nothing is sent.  With one, the seeding command goes
    first; the tool command goes to the same container if and only if the
    seeding command was answered; the workspace is read if and only if the
    tool command was answered; nothing else is sent. *)
Theorem executeClaudeCode_requests `{World} (st : State) (sid msg : string) :
  let st' := fst (run (ClaudeCodeService.executeClaudeCode sid msg) st) in
  match JsMap.get sid (sessions (store st)) with
  | None => calls st' = calls st
  | Some a =>
      forall s, heap (store st) !! a = Some s ->
      let seed := container_exec (containerId s)
                    (ClaudeCodeService.seedCommand msg
                       (ClaudeCodeService.messageFileAt (clock (world st)))) in
      let tool := container_exec (containerId s) (ClaudeCodeService.toolCommand msg) in
      let rd := fs_readdir (DockerService.workspaceOf sid) in
      match snd (perform seed (world st)) with
      | Err _ => calls st' = calls st ++ [seed]
      | Ok _ =>
          match snd (perform tool (fst (perform seed (world st)))) with
          | Err _ => calls st' = calls st ++ [seed; tool]
          | Ok _ => calls st' = calls st ++ [seed; tool; rd]
          end
      end
  end.
Proof.
  intros st'. subst st'. rewrite executeClaudeCode_run.
  destruct (JsMap.get sid (sessions (store st))) as [a|]; [|reflexivity].
  intros s Hs. rewrite Hs. cbv zeta.
  destruct (perform _ (world st)) as [w1 [x1|e1]]; cbn [fst snd]; [|reflexivity].
  destruct (perform _ w1) as [w2 [result|e2]]; cbn [fst snd];
    [|cbn; now rewrite <- app_assoc].
  destruct (perform _ w2) as [w3 [root|e3]].
  - destruct (DockerService.readDir "" root []); cbn; now rewrite <- !app_assoc.
  - cbn. now rewrite <- !app_assoc.
Qed.

(** ** The workspace walk as a listing *)


Lemma Dirent_nested_ind (P : Dirent -> Prop) :
  (forall nm r, P (FileEntry nm r)) ->
  (forall nm e, P (DirEntry nm (Err e))) ->
  (forall nm sub, List.Forall P sub -> P (DirEntry nm (Ok sub))) ->
  forall d, P d.
Proof.
  intros Hfile Herr Hdir. fix IH 1. intros [nm r|nm [sub|e]].
  - apply Hfile.
  - apply Hdir. induction sub as [|d sub IHsub]; constructor; [apply IH|exact IHsub].
  - apply Herr.
Qed.

Lemma readEntry_listing (d : Dirent) (baseDir : string) (files : list (string * string)) :
  match DockerService.readEntry baseDir d files with
  | Ok files' => readable d = true /\ files' = files ++ listing baseDir d
  | Err _ => readable d = false
  end.
Proof.
  revert baseDir files. induction d as [nm [text|e]|nm e|nm sub IH] using Dirent_nested_ind;
    intros baseDir files.
  - simpl. now split.
  - reflexivity.
  - reflexivity.
  - rewrite readEntry_dir.
    change (readable (DirEntry nm (Ok sub))) with (forallb readable sub).
    change (listing baseDir (DirEntry nm (Ok sub)))
      with (flat_map (listing (path_join baseDir nm)) sub).
    generalize (path_join baseDir nm) as base. intros base. revert files.
    induction IH as [|d sub Hd _ IHsub]; intros files; simpl.
    + split; [reflexivity|now rewrite app_nil_r].
    + specialize (Hd base files).
      destruct (DockerService.readEntry base d files) as [files'|e].
      * destruct Hd as [-> ->]. specialize (IHsub (files ++ listing base d)).
        destruct (DockerService.readDir base sub _) as [files''|e]; [|exact IHsub].
        destruct IHsub as [-> ->]. split; [reflexivity|now rewrite <- app_assoc].
      * now rewrite Hd.
Qed.

Lemma readDir_listing (es : list Dirent) (baseDir : string) (files : list (string * string)) :
  match DockerService.readDir baseDir es files with
  | Ok files' => forallb readable es = true /\ files' = files ++ flat_map (listing baseDir) es
  | Err _ => forallb readable es = false
  end.
Proof.
  revert files. induction es as [|d es IH]; intros files; simpl.
  - split; [reflexivity|now rewrite app_nil_r].
  - pose proof (readEntry_listing d baseDir files) as Hd.
    destruct (DockerService.readEntry baseDir d files) as [files'|e].
    + destruct Hd as [-> ->]. specialize (IH (files ++ listing baseDir d)).
      destruct (DockerService.readDir baseDir es _) as [files''|e]; [|exact IH].
      destruct IH as [-> ->]. split; [reflexivity|now rewrite <- app_assoc].
    + now rewrite Hd.
Qed.

(** X12: [getWorkspaceFiles] is all or nothing.  It resolves exactly when
    the root can be listed and every directory and file below it can be
    read; the result is then the depth-first listing of the tree, every
    file once, with its path relative to the workspace.  One unreadable
    entry anywhere rejects the whole call, and the files read before it are
    not returned. *)
Theorem getWorkspaceFiles_all_or_nothing `{World} (st : State) (sid : string) :
  match snd (run (DockerService.getWorkspaceFiles sid) st) with
  | Ok files =>
      exists root,
        snd (perform (fs_readdir (DockerService.workspaceOf sid)) (world st)) = Ok root /\
        forallb readable root = true /\
        files = flat_map (listing "") root
  | Err e =>
      snd (perform (fs_readdir (DockerService.workspaceOf sid)) (world st)) = Err e \/
      exists root,
        snd (perform (fs_readdir (DockerService.workspaceOf sid)) (world st)) = Ok root /\
        forallb readable root = false
  end.
Proof.
  rewrite getWorkspaceFiles_run. cbv zeta. cbn [snd].
  destruct (snd (perform (fs_readdir (DockerService.workspaceOf sid)) (world st)))
    as [root|e]; [|now left].
  pose proof (readDir_listing root "" []) as Hroot.
  destruct (DockerService.readDir "" root []) as [files|e].
  - exists root. destruct Hroot as [-> ->]. now repeat split.
  - right. eauto.
Qed.


(** ** Grouping and previewing artifacts *)

Section Artifacts.
Import ClaudeCodeService HandleArtifacts.

Lemma other_is_not_code (a : Artifact) :
  is_file (type a) && negb (isCodeFile (path a))
  = negb (is_code (type a) || isCodeFile (path a)).
Proof. destruct (type a), (isCodeFile (path a)); reflexivity. Qed.

Lemma filter_complement {A : Type} (p : A -> bool) (l : list A) :
  Permutation (List.filter p l ++ List.filter (fun x => negb (p x)) l) l.
Proof.
  induction l as [|x l IH]; simpl; [constructor|].
  destruct (p x); simpl.
  - now constructor.
  - symmetry. apply Permutation_cons_app. now symmetry.
Qed.

Lemma split_nonempty (s : string) : split s <> [].
Proof.
  induction s as [|c s IH]; simpl; [discriminate|].
  destruct (Ascii.eqb c newline); [discriminate|].
  destruct (split s); [contradiction|discriminate].
Qed.

Lemma split_one_line (s : string) : one_line s = true -> split s = [s].
Proof.
  induction s as [|c s IH]; simpl; [reflexivity|].
  destruct (Ascii.eqb c newline); simpl; [discriminate|].
  intros Hs. now rewrite IH.
Qed.

Lemma split_lines_one_line (s : string) :
  List.Forall (fun l => one_line l = true) (split s).
Proof.
  induction s as [|c s IH]; simpl; [now repeat constructor|].
  destruct (Ascii.eqb c newline) eqn:Hc; [now constructor|].
  destruct (split s) as [|l ls] eqn:Hs; [now apply split_nonempty in Hs|].
  inversion IH as [|? ? Hl Hls]; subst. constructor; [|assumption].
  simpl. now rewrite Hc.
Qed.

Lemma split_append (a b : string) :
  split (a +:+ String newline b) = split a ++ split b.
Proof.
  induction a as [|c a IH].
  - simpl. reflexivity.
  - change (String c a +:+ String newline b) with (String c (a +:+ String newline b)).
    simpl. destruct (Ascii.eqb c newline); rewrite IH; [reflexivity|].
    destruct (split a) as [|l ls] eqn:Ha; [now apply split_nonempty in Ha|reflexivity].
Qed.

Lemma split_join (lines : list string) :
  lines <> [] -> List.Forall (fun l => one_line l = true) lines ->
  split (join lines) = lines.
Proof.
  induction lines as [|l rest IH]; [contradiction|]. intros _ Hall.
  inversion Hall as [|? ? Hl Hrest]; subst.
  destruct rest as [|l' rest].
  - simpl. now apply split_one_line.
  - change (join (l :: l' :: rest)) with (l +:+ String newline (join (l' :: rest))).
    rewrite split_append, split_one_line by assumption.
    rewrite IH; [reflexivity|discriminate|assumption].
Qed.

Lemma join_split (s : string) : join (split s) = s.
Proof.
  induction s as [|c s IH]; simpl; [reflexivity|].
  destruct (Ascii.eqb_spec c newline) as [->|Hc].
  - destruct (split s) as [|l ls] eqn:Hs; [now apply split_nonempty in Hs|].
    change (join (EmptyString :: l :: ls)) with (String newline (join (l :: ls))).
    now rewrite IH.
  - destruct (split s) as [|l ls] eqn:Hs; [now apply split_nonempty in Hs|].
    destruct ls as [|l' ls].
    + simpl in *. now rewrite IH.
    + change (join (String c l :: l' :: ls))
        with (String c (l +:+ String newline (join (l' :: ls)))).
      change (join (l :: l' :: ls)) with (l +:+ String newline (join (l' :: ls))) in IH.
      now rewrite IH.
Qed.
End Artifacts.

(** X14: the two groups of [handleArtifacts] partition the artifacts: every
    artifact is listed in exactly one of them, so the reported total is the
    number of links in the message. *)
Theorem artifact_groups_partition (artifacts : list Artifact) :
  Permutation (HandleArtifacts.codeFiles artifacts ++ HandleArtifacts.otherFiles artifacts)
              artifacts /\
  length (HandleArtifacts.codeFiles artifacts)
  + length (HandleArtifacts.otherFiles artifacts) = length artifacts /\
  forall a, In a (HandleArtifacts.codeFiles artifacts) ->
            In a (HandleArtifacts.otherFiles artifacts) -> False.
Proof.
  assert (HandleArtifacts.otherFiles artifacts
          = List.filter (fun a => negb (HandleArtifacts.is_code (type a)
                                        || ClaudeCodeService.isCodeFile (path a)))
                        artifacts) as Hother.
  { apply filter_ext. intros a. apply other_is_not_code. }
  rewrite Hother. unfold HandleArtifacts.codeFiles.
  pose proof (filter_complement
                (fun a => HandleArtifacts.is_code (type a)
                          || ClaudeCodeService.isCodeFile (path a)) artifacts) as Hperm.
  split; [exact Hperm|]. split.
  - rewrite <- length_app. now apply Permutation_length.
  - intros a H1 H2. apply filter_In in H1 as [_ H1]. apply filter_In in H2 as [_ H2].
    rewrite H1 in H2. discriminate.
Qed.

(** X15: on the artifacts [executeClaudeCode] returns, the type written by
    [getFileType] and the extension test agree, so the code group is the
    files with a code extension and the other group is the rest, both in
    workspace order. *)
Theorem artifact_groups_of_response (files : list (string * string)) :
  HandleArtifacts.codeFiles (ClaudeCodeService.toArtifacts files)
  = ClaudeCodeService.toArtifacts
      (List.filter (fun f => ClaudeCodeService.isCodeFile (fst f)) files) /\
  HandleArtifacts.otherFiles (ClaudeCodeService.toArtifacts files)
  = ClaudeCodeService.toArtifacts
      (List.filter (fun f => negb (ClaudeCodeService.isCodeFile (fst f))) files).
Proof.
  unfold HandleArtifacts.codeFiles, HandleArtifacts.otherFiles, ClaudeCodeService.toArtifacts.
  split; induction files as [|[p c] files IH]; try reflexivity;
    cbn [map List.filter type path fst snd]; rewrite IH;
    unfold ClaudeCodeService.getFileType;
    destruct (ClaudeCodeService.isCodeFile p) eqn:Hp; cbn [HandleArtifacts.is_code
      HandleArtifacts.is_file orb andb negb map fst snd]; rewrite ?Hp; reflexivity.
Qed.

(** X16: the preview of a file.  Splitting at line feeds and joining again
    gives the text back; a text of at most 50 lines is shown as it is; a
    longer one is shown as its first 50 lines followed by the line
    [... (truncated)], so a preview never has more than 51 lines. *)
Theorem preview_lines (content : string) :
  HandleArtifacts.join (HandleArtifacts.split content) = content /\
  HandleArtifacts.split (HandleArtifacts.preview content)
  = (if (50 <? length (HandleArtifacts.split content))%nat
     then firstn 50 (HandleArtifacts.split content) ++ ["... (truncated)"]
     else HandleArtifacts.split content) /\
  length (HandleArtifacts.split (HandleArtifacts.preview content)) <= 51.
Proof.
  split; [apply join_split|].
  assert (HandleArtifacts.split (HandleArtifacts.preview content)
          = (if (50 <? length (HandleArtifacts.split content))%nat
             then firstn 50 (HandleArtifacts.split content) ++ ["... (truncated)"]
             else HandleArtifacts.split content)) as Heq.
  { unfold HandleArtifacts.preview. cbv zeta.
    destruct (Nat.ltb_spec 50 (length (HandleArtifacts.split content))) as [Hlt|Hge];
      [|reflexivity].
    rewrite split_append, split_join.
    - reflexivity.
    - intros Hnil. apply (f_equal (@length string)) in Hnil.
      rewrite length_firstn in Hnil. change (length (@nil string)) with 0 in Hnil. lia.
    - apply Forall_take, split_lines_one_line. }
  split; [exact Heq|]. rewrite Heq.
  destruct (Nat.ltb_spec 50 (length (HandleArtifacts.split content))) as [Hlt|Hge].
  - rewrite length_app, length_firstn. change (length ["... (truncated)"]) with 1. lia.
  - lia.
Qed.

(** ** The seed file and the escaped message *)

Lemma append_inv_tail (a b c : string) : a +:+ c = b +:+ c -> a = b.
Proof.
  revert b. induction a as [|x a IH]; intros [|y b] Heq.
  - reflexivity.
  - apply (f_equal String.length) in Heq. rewrite !length_append in Heq.
    simpl in Heq. lia.
  - apply (f_equal String.length) in Heq. rewrite !length_append in Heq.
    simpl in Heq. lia.
  - change (String x (a +:+ c) = String y (b +:+ c)) in Heq.
    injection Heq as -> Heq. f_equal. now apply IH.
Qed.

Lemma append_inv_head (a b c : string) : c +:+ a = c +:+ b -> a = b.
Proof.
  induction c as [|x c IH]; intros Heq; [exact Heq|].
  change (String x (c +:+ a) = String x (c +:+ b)) in Heq.
  injection Heq as Heq. now apply IH.
Qed.

(** X17: the path of the message file inside the container is built from
    the clock alone: two calls name the same path exactly when they read
    the same millisecond. *)
Theorem messageFileAt_collision (now1 now2 : Z) :
  ClaudeCodeService.messageFileAt now1 = ClaudeCodeService.messageFileAt now2
  <-> now1 = now2.
Proof.
  split; [|now intros ->].
  unfold ClaudeCodeService.messageFileAt. intros Heq.
  apply append_inv_head, append_inv_tail in Heq.
  now apply (inj pretty) in Heq.
Qed.

Lemma replace_quotes_grows (s : string) :
  String.length (replace_quotes s) = String.length s + count_quotes s.
Proof.
  induction s as [|c s IH]; simpl; [reflexivity|].
  destruct (Ascii.eqb c dquote); simpl; rewrite IH; lia.
Qed.

(** X18: escaping the quotes adds one character per double quote, and
    leaves a message unchanged exactly when it holds no double quote. *)
Theorem replace_quotes_length (s : string) :
  String.length (replace_quotes s) = String.length s + count_quotes s /\
  (replace_quotes s = s <-> count_quotes s = 0).
Proof.
  split; [apply replace_quotes_grows|]. split.
  - intros Heq. pose proof (replace_quotes_grows s) as Hlen. rewrite Heq in Hlen. lia.
  - induction s as [|c s IH]; simpl; [reflexivity|].
    destruct (Ascii.eqb c dquote); simpl; [discriminate|].
    intros Hs. f_equal. now apply IH.
Qed.

(** ** Shutdown *)

Section Shutdown.
Context `{World}.
Import DockerService JsMapFacts.

Lemma stopEach_run (entries : list (string * ref)) (st : State) :
  sessions (store st) = entries ->
  List.NoDup (JsMap.keys entries) ->
  List.NoDup (JsMap.values entries) ->
  (forall k a, In (k, a) entries ->
     exists s, heap (store st) !! a = Some s /\ id s = k) ->
  match run (Server.stopEach (JsMap.values entries)) st with
  | (st', Ok _) =>
      sessions (store st') = [] /\
      (forall k a s, In (k, a) entries -> heap (store st) !! a = Some s ->
         heap (store st') !! a = Some (with_status completed s)) /\
      (forall a : ref, ~ In a (JsMap.values entries) ->
         heap (store st') !! a = heap (store st) !! a) /\
      calls st' = calls st ++ teardownRequests (heap (store st)) entries
  | (st', Err e) =>
      exists pre k a s post,
        entries = pre ++ (k, a) :: post /\
        heap (store st) !! a = Some s /\
        sessions (store st') = (k, a) :: post /\
        (forall k' a' s', In (k', a') pre -> heap (store st) !! a' = Some s' ->
           heap (store st') !! a' = Some (with_status completed s')) /\
        (forall a' : ref, ~ In a' (JsMap.values pre) ->
           heap (store st') !! a' = heap (store st) !! a') /\
        ((exists w, snd (perform (container_stop (containerId s) 10) w) = Err e /\
            calls st' = calls st ++ teardownRequests (heap (store st)) pre
                        ++ [container_stop (containerId s) 10]) \/
         (exists w, snd (perform (container_remove (containerId s)) w) = Err e /\
            calls st' = calls st ++ teardownRequests (heap (store st)) pre
                        ++ [container_stop (containerId s) 10;
                            container_remove (containerId s)]))
  end.
Proof.
  revert st. induction entries as [|[k a] rest IH]; intros st Hs Hnd Hrefs Hlive.
  - simpl. rewrite app_nil_r. repeat split; auto. intros ? ? ? [].
  - destruct (Hlive k a (or_introl eq_refl)) as (s & Ha & Hid).
    apply NoDup_cons_iff in Hrefs as [Ha_rest Hrefs].
    apply NoDup_cons_iff in Hnd as [Hk_rest Hnd].
    change (JsMap.values ((k, a) :: rest)) with (a :: JsMap.values rest).
    cbn [Server.stopEach]. rewrite run_bind, (run_deref a s) by assumption.
    rewrite run_bind, Hid, stopSession_run, Hs.
    simpl JsMap.get. rewrite String.eqb_refl, Ha. cbv zeta.
    destruct (perform (container_stop (containerId s) 10) (world st)) as [w1 r1] eqn:Hp1.
    destruct r1 as [[]|e1].
    2:{ exists [], k, a, s, rest. cbn [app]. repeat split; auto.
        - intros ? ? ? [].
        - left. exists (world st). rewrite Hp1. split; reflexivity. }
    destruct (perform (container_remove (containerId s)) w1) as [w2 r2] eqn:Hp2.
    destruct r2 as [[]|e2].
    2:{ exists [], k, a, s, rest. cbn [app]. repeat split; auto.
        - intros ? ? ? [].
        - right. exists w1. rewrite Hp2. split; [reflexivity|].
          cbn. now rewrite <- app_assoc. }
    simpl JsMap.delete. rewrite String.eqb_refl.
    set (h' := <[a := with_status completed s]> (heap (store st))).
    set (st2 := set_store _ _).
    assert (forall b : ref, b <> a -> h' !! b = heap (store st) !! b) as Hsame.
    { intros b Hb. apply list_lookup_insert_ne. congruence. }
    assert (forall b, In b (JsMap.values rest) -> h' !! b = heap (store st) !! b)
      as Hsame_rest.
    { intros b Hb. apply Hsame. intros ->. contradiction. }
    assert (h' !! a = Some (with_status completed s)) as Ha'.
    { apply list_lookup_insert_eq. eauto using lookup_lt_Some. }
    assert (calls st2 = calls st ++ [container_stop (containerId s) 10;
                                     container_remove (containerId s)]) as Hcalls.
    { subst st2. cbn. now rewrite <- app_assoc. }
    assert (teardownRequests (heap (store st)) ((k, a) :: rest)
            = [container_stop (containerId s) 10; container_remove (containerId s)]
              ++ teardownRequests (heap (store st)) rest) as Htd.
    { unfold teardownRequests. cbn [flat_map snd]. now rewrite Ha. }
    specialize (IH st2). cbn [fst snd].
    destruct (run (Server.stopEach (JsMap.values rest)) st2) as [st' [[]|e]].
    + destruct IH as (Hempty & Hdone & Hother & Hlog); try assumption.
      { reflexivity. }
      { intros k' a' Hin. subst st2. cbn [store set_store heap].
        rewrite Hsame_rest by (change a' with (snd (k', a')); now apply in_map).
        apply Hlive. now right. }
      change (heap (store st2)) with h' in *.
      split; [assumption|]. split; [|split].
      * intros k' a' s' [[= <- <-]|Hin] Hs'.
        -- rewrite Hother by assumption. congruence.
        -- apply (Hdone k'); [assumption|]. rewrite Hsame_rest; [assumption|].
           change a' with (snd (k', a')). now apply in_map.
      * intros b Hb. rewrite Hother by (intros Hc; apply Hb; now right). apply Hsame. intros ->. apply Hb. now left.
      * rewrite Hlog, Hcalls, Htd, <- !app_assoc.
        now rewrite (teardownRequests_ext (heap (store st)) h').
    + destruct IH as (pre & k' & a' & s' & post & Hsplit & Hs' & Hleft & Hdone & Hother & Hlog);
        try assumption.
      { reflexivity. }
      { intros k'' a'' Hin. subst st2. cbn [store set_store heap].
        rewrite Hsame_rest by (change a'' with (snd (k'', a'')); now apply in_map).
        apply Hlive. now right. }
      change (heap (store st2)) with h' in *.
      assert (forall b, In b (JsMap.values pre) -> In b (JsMap.values rest)) as Hpre.
      { intros b Hb. rewrite Hsplit. unfold JsMap.values in *. rewrite map_app.
        apply in_or_app. now left. }
      assert (In a' (JsMap.values rest)) as Ha'_rest.
      { rewrite Hsplit. unfold JsMap.values. rewrite map_app. apply in_or_app.
        right. now left. }
      exists ((k, a) :: pre), k', a', s', post.
      split; [now rewrite Hsplit|]. split; [now rewrite <- Hsame_rest|].
      split; [assumption|]. split; [|split].
      * intros k'' a'' s'' [[= <- <-]|Hin] Hs''.
        -- rewrite Hother by (intros Hb; apply Ha_rest; auto). congruence.
        -- apply (Hdone k''); [assumption|]. rewrite Hsame_rest; [assumption|].
           apply Hpre. change a'' with (snd (k'', a'')). now apply in_map.
      * intros b Hb. rewrite Hother by (intros Hc; apply Hb; now right). apply Hsame. intros ->. apply Hb. now left.
      * assert (teardownRequests (heap (store st)) ((k, a) :: pre)
                = [container_stop (containerId s) 10; container_remove (containerId s)]
                  ++ teardownRequests h' pre) as Htd'.
        { unfold teardownRequests at 1. cbn [flat_map snd]. rewrite Ha.
          f_equal. symmetry. apply teardownRequests_ext.
          intros b Hb. apply Hsame_rest. now apply Hpre. }
        destruct Hlog as [(w & Hw & Hlog)|(w & Hw & Hlog)]; [left|right];
          exists w; (split; [assumption|]);
          rewrite Hlog, Hcalls, Htd', <- !app_assoc; reflexivity.
Qed.

Lemma wf_live (s : Store) :
  wf_store s ->
  forall k a, In (k, a) (sessions s) -> exists x, heap s !! a = Some x /\ id x = k.
Proof.
  intros (_ & Hreg & _) k a Hin. destruct (Hreg k a Hin) as (x & Hx & Hid & _). eauto.
Qed.
End Shutdown.

(** X19: when the shutdown loop resolves, so that [process.exit(0)] is
    reached, the registry is empty, every session that was registered is
    [completed], and the engine was asked to stop and then remove each
    container, in map order, and nothing else. *)
Theorem shutdown_exit_means_empty `{World} (st st' : State) :
  wf_store (store st) ->
  run Server.shutdown st = (st', Ok tt) ->
  sessions (store st') = [] /\
  (forall k a s, In (k, a) (sessions (store st)) -> heap (store st) !! a = Some s ->
     heap (store st') !! a = Some (with_status completed s)) /\
  calls st' = calls st ++ teardownRequests (heap (store st)) (sessions (store st)).
Proof.
  intros Hwf Hrun.
  pose proof (stopEach_run (sessions (store st)) st eq_refl (proj1 Hwf)
                (wf_values _ Hwf) (wf_live _ Hwf)) as Hloop.
  unfold Server.shutdown in Hrun. simpl in Hrun.
  replace (set_store st (store st)) with st in Hrun by now destruct st.
  rewrite Hrun in Hloop. tauto.
Qed.

(** X20: when a teardown is rejected during shutdown, the loop stops there
    and the exit is not reached: the sessions before the failing one are
    gone, the failing session and every session after it are still
    registered, and the engine saw no request for the later ones. *)
Theorem shutdown_stops_at_first_failure `{World} (st st' : State) (e : JsError) :
  wf_store (store st) ->
  run Server.shutdown st = (st', Err e) ->
  exists pre k a s post,
    sessions (store st) = pre ++ (k, a) :: post /\
    heap (store st) !! a = Some s /\
    sessions (store st') = (k, a) :: post /\
    (forall k' a' s', In (k', a') ((k, a) :: post) -> heap (store st) !! a' = Some s' ->
       heap (store st') !! a' = Some s') /\
    (calls st' = calls st ++ teardownRequests (heap (store st)) pre
                 ++ [container_stop (containerId s) 10] \/
     calls st' = calls st ++ teardownRequests (heap (store st)) pre
                 ++ [container_stop (containerId s) 10; container_remove (containerId s)]).
Proof.
  intros Hwf Hrun.
  pose proof (stopEach_run (sessions (store st)) st eq_refl (proj1 Hwf)
                (wf_values _ Hwf) (wf_live _ Hwf)) as Hloop.
  unfold Server.shutdown in Hrun. simpl in Hrun.
  replace (set_store st (store st)) with st in Hrun by now destruct st.
  rewrite Hrun in Hloop.
  destruct Hloop as (pre & k & a & s & post & Hsplit & Hs & Hleft & _ & Hother & Hlog).
  exists pre, k, a, s, post. repeat split; try assumption.
  - intros k' a' s' Hin Hs'. rewrite Hother; [assumption|].
    pose proof (wf_values _ Hwf) as Hnd. rewrite Hsplit in Hnd.
    unfold JsMap.values in *. rewrite map_app in Hnd.
    intros Hpre. apply NoDup_ListNoDup, NoDup_app in Hnd as (_ & Hdis & _).
    apply (Hdis a'); apply list_elem_of_In; [exact Hpre|].
    change a' with (snd (k', a')). now apply in_map.
  - destruct Hlog as [(w & _ & Hlog)|(w & _ & Hlog)]; [now left|now right].
Qed.

(** X21: with an engine that accepts every stop and remove, the shutdown
    loop resolves from any well-formed registry. *)
Theorem shutdown_resolves `{World} (st : State) :
  teardown_ok -> wf_store (store st) ->
  snd (run Server.shutdown st) = Ok tt.
Proof.
  intros Hok Hwf.
  pose proof (stopEach_run (sessions (store st)) st eq_refl (proj1 Hwf)
                (wf_values _ Hwf) (wf_live _ Hwf)) as Hloop.
  unfold Server.shutdown. simpl.
  replace (set_store st (store st)) with st by now destruct st.
  destruct (run (Server.stopEach (JsMap.values (sessions (store st)))) st)
    as [st' [[]|e]]; [reflexivity|].
  destruct Hloop as (pre & k & a & s & post & _ & _ & _ & _ & _ & Hlog).
  destruct Hlog as [(w & Hw & _)|(w & Hw & _)];
    destruct (Hok (containerId s) w) as [Hstop Hrm]; congruence.
Qed.

(** ** The stop-all route under any schedule *)

Section StopAll.
Context `{World}.
Import DockerService JsMapFacts.

Lemma stopTask_stopping (k : string) (a : ref) (x : ClaudeCodeSession) :
  id x = k -> stopping 3 k a x (Server.stopTask a).
Proof.
  intros <-. split; [reflexivity|]. intros st Hget Hx. left.
  unfold Server.stopTask, stopSession, deref, sessions_get, read, sync.
  cbn [turn bind advance try_catch fst snd store set_store]. rewrite Hx.
  cbn [turn bind advance try_catch fst snd store set_store]. rewrite Hget.
  cbn [turn bind advance try_catch fst snd store set_store]. rewrite Hx.
  cbn [turn bind advance try_catch fst snd set_store store await].
  split; [reflexivity|]. left.
  split; [reflexivity|]. clear st Hget Hx. intros st Hget Hx.
  cbn [turn].
  destruct (perform (container_stop (containerId x) 10) (world st)) as [w1 [[]|e1]].
  2:{ left. cbn. split; [reflexivity|]. right. eauto. }
  left. cbn [await bind try_catch advance fst snd answered store].
  split; [reflexivity|]. left.
  split; [reflexivity|]. clear st w1 Hget Hx. intros st Hget Hx.
  cbn [turn].
  destruct (perform (container_remove (containerId x)) (world st)) as [w2 [[]|e2]].
  2:{ left. cbn. split; [reflexivity|]. right. eauto. }
  right. unfold set_status, sessions_delete, write, sync.
  cbn [await bind try_catch advance fst snd answered store set_store sessions heap].
  rewrite Hx. split; reflexivity.
Qed.

Lemma stopping_unsettled (n : nat) k a x (p : Prog string) :
  stopping n k a x p -> outcome p = None.
Proof. destruct n; [contradiction|]. now intros [Hp _]. Qed.

Lemma fate_store (st st' : State) k a x (p : Prog string) (n : nat) :
  store st' = store st -> fate st k a x p n -> fate st' k a x p n.
Proof. unfold fate. intros ->. tauto. Qed.

Lemma lookup_map {A B : Type} (f : A -> B) (l : list A) (i : nat) :
  map f l !! i = option_map f (l !! i).
Proof.
  revert i. induction l as [|y l IH]; intros [|i]; simpl; try reflexivity. apply IH.
Qed.

Lemma NoDup_lookup_keys (entries : list (string * ref)) (i j : nat) k a b :
  List.NoDup (JsMap.keys entries) ->
  entries !! i = Some (k, a) -> entries !! j = Some (k, b) -> i = j.
Proof.
  intros Hnd Hi Hj. apply NoDup_ListNoDup in Hnd.
  eapply (NoDup_lookup _ i j k Hnd); unfold JsMap.keys; rewrite lookup_map.
  - now rewrite Hi.
  - now rewrite Hj.
Qed.

Lemma NoDup_lookup_values (entries : list (string * ref)) (i j : nat) k k' a :
  List.NoDup (JsMap.values entries) ->
  entries !! i = Some (k, a) -> entries !! j = Some (k', a) -> i = j.
Proof.
  intros Hnd Hi Hj. apply NoDup_ListNoDup in Hnd.
  eapply (NoDup_lookup _ i j a Hnd); unfold JsMap.values; rewrite lookup_map.
  - now rewrite Hi.
  - now rewrite Hj.
Qed.

Lemma tearing_down_ext entries h0 (pool : list (Prog string)) st (b b' : nat -> nat) :
  (forall i, b i = b' i) ->
  tearing_down entries h0 pool st b -> tearing_down entries h0 pool st b'.
Proof.
  intros Hb (Hlen & Hnd & Hfate). split; [assumption|]. split; [assumption|].
  intros i k a x p Hi Hx Hp. rewrite <- Hb. eauto.
Qed.

(** One turn of one call keeps every call's fate its own. *)
Lemma tearing_down_step entries h0 (pool : list (Prog string)) st (b : nat -> nat) (j : nat) :
  List.NoDup (JsMap.keys entries) ->
  List.NoDup (JsMap.values entries) ->
  (forall k a, In (k, a) entries -> is_Some (h0 !! a)) ->
  tearing_down entries h0 pool st b ->
  tearing_down entries h0 (snd (step_pool j pool st)) (fst (step_pool j pool st))
    (fun i => if Nat.eqb i j then pred (b i) else b i).
Proof.
  intros Hkeys Hvals Hlive (Hlen & Hnd & Hfate). unfold step_pool.
  destruct (pool !! j) as [p|] eqn:Hp.
  2:{ split; [assumption|]. split; [assumption|].
      intros i k a x q Hi Hx Hq. cbn [snd fst] in *.
      destruct (Nat.eqb_spec i j) as [->|_]; [congruence|eauto]. }
  destruct (lookup_lt_is_Some_2 entries j) as [[k a] Hj].
  { rewrite <- Hlen. eauto using lookup_lt_Some. }
  destruct (Hlive k a) as [x Hx].
  { eapply list_elem_of_In, list_elem_of_lookup_2. exact Hj. }
  pose proof (Hfate j k a x p Hj Hx Hp) as Hfj.
  destruct (turn p st) as [st' p'] eqn:Hturn. cbn [fst snd].
  assert (forall i ki ai xi q, i <> j ->
            entries !! i = Some (ki, ai) -> h0 !! ai = Some xi ->
            <[j := p']> pool !! i = Some q ->
            (store st' = store st \/ store st' = retired k a x (store st)) ->
            fate st' ki ai xi q (b i)) as Hothers.
  { intros i ki ai xi q Hne Hi Hxi Hq Hst.
    rewrite list_lookup_insert_ne in Hq by congruence.
    pose proof (Hfate i ki ai xi q Hi Hxi Hq) as Hfi.
    destruct Hst as [Hst|Hst]; [now apply (fate_store st)|].
    assert (ki <> k) as Hk.
    { intros Heq. apply Hne. rewrite Heq in Hi.
      exact (NoDup_lookup_keys entries i j k ai a Hkeys Hi Hj). }
    assert (ai <> a) as Ha.
    { intros Heq. apply Hne. rewrite Heq in Hi.
      exact (NoDup_lookup_values entries i j ki k a Hvals Hi Hj). }
    unfold fate in *. rewrite Hst. cbn [retired sessions heap].
    rewrite get_delete_ne by assumption.
    rewrite list_lookup_insert_ne by congruence. exact Hfi. }
  assert (forall i ki ai xi q,
            (i = j -> fate st' k a x p' (pred (b j))) ->
            (store st' = store st \/ store st' = retired k a x (store st)) ->
            entries !! i = Some (ki, ai) -> h0 !! ai = Some xi ->
            <[j := p']> pool !! i = Some q ->
            fate st' ki ai xi q (if Nat.eqb i j then pred (b i) else b i)) as Hall.
  { intros i ki ai xi q Hself Hst Hi Hxi Hq.
    destruct (Nat.eqb_spec i j) as [->|Hne]; [|eauto].
    rewrite list_lookup_insert_eq in Hq by eauto using lookup_lt_Some.
    injection Hq as <-. rewrite Hj in Hi. injection Hi as <- <-.
    rewrite Hx in Hxi. injection Hxi as <-. now apply Hself. }
  split; [now rewrite length_insert|].
  destruct Hfj as [(Hstop & Hget & Hheap)|[(-> & Hget & Hheap)|(e & -> & Hget & Hheap)]].
  - destruct (b j) as [|n'] eqn:Hb; [contradiction|].
    destruct Hstop as [_ Hstop]. specialize (Hstop st Hget Hheap).
    rewrite Hturn in Hstop. cbn [fst snd] in Hstop.
    destruct Hstop as [[Hst Hnext]|[Hst ->]].
    + split; [now rewrite Hst|]. intros i ki ai xi q. apply Hall; [|now left].
      intros _. cbn [pred]. unfold fate. rewrite Hst.
      destruct Hnext as [Hnext|[e ->]]; [left|right; right]; eauto.
    + split; [rewrite Hst; now apply NoDup_delete|].
      intros i ki ai xi q. apply Hall; [|now right].
      intros _. right. left. rewrite Hst. cbn [retired sessions heap].
      split; [reflexivity|]. split; [now apply get_delete_eq|].
      apply list_lookup_insert_eq. eauto using lookup_lt_Some.
  - cbn in Hturn. injection Hturn as <- <-. split; [assumption|].
    intros i ki ai xi q. apply Hall; [|now left].
    intros _. right. left. auto.
  - cbn in Hturn. injection Hturn as <- <-. split; [assumption|].
    intros i ki ai xi q. apply Hall; [|now left].
    intros _. right. right. eauto.
Qed.

Lemma tearing_down_schedule entries h0 (sched : list nat) (pool : list (Prog string))
    st (b : nat -> nat) :
  List.NoDup (JsMap.keys entries) ->
  List.NoDup (JsMap.values entries) ->
  (forall k a, In (k, a) entries -> is_Some (h0 !! a)) ->
  tearing_down entries h0 pool st b ->
  tearing_down entries h0 (snd (run_schedule sched pool st))
    (fst (run_schedule sched pool st))
    (fun i => b i - count_occ Nat.eq_dec sched i).
Proof.
  intros Hkeys Hvals Hlive. revert pool st b.
  induction sched as [|j rest IH]; intros pool st b Hinv.
  - cbn [run_schedule fst snd]. eapply tearing_down_ext; [|exact Hinv].
    intros i. simpl. lia.
  - cbn [run_schedule].
    pose proof (tearing_down_step entries h0 pool st b j Hkeys Hvals Hlive Hinv) as Hstep.
    destruct (step_pool j pool st) as [st' pool']. cbn [fst snd] in Hstep.
    eapply tearing_down_ext; [|exact (IH _ _ _ Hstep)].
    intros i. cbn beta. cbn [count_occ].
    destruct (Nat.eq_dec j i) as [->|Hne].
    + rewrite Nat.eqb_refl. lia.
    + destruct (Nat.eqb_spec i j); [congruence|reflexivity].
Qed.
End StopAll.

(** X22: the stop-all route.  One call per listed session is started and
    the calls take turns at their awaits in any order.  Whatever the
    schedule and whatever the engine answers, each session's fate is
    decided by its own call alone: a call that resolved has retired its
    session and returns its key; a call that rejected, or that has not
    settled yet, has left its session registered and unchanged.  A call
    settles within three turns. *)
Theorem stopAll_isolates_sessions `{World} (sched : list nat) (st : State) :
  wf_store (store st) ->
  let pool := map Server.stopTask (JsMap.values (sessions (store st))) in
  let st' := fst (run_schedule sched pool st) in
  let pool' := snd (run_schedule sched pool st) in
  forall i k a x,
    sessions (store st) !! i = Some (k, a) -> heap (store st) !! a = Some x ->
    exists p,
      pool' !! i = Some p /\
      match outcome p with
      | Some (Ok k') =>
          k' = k /\ JsMap.get k (sessions (store st')) = None /\
          heap (store st') !! a = Some (with_status completed x)
      | Some (Err _) => untouched st' k a x
      | None => untouched st' k a x /\ count_occ Nat.eq_dec sched i < 3
      end.
Proof.
  intros Hwf pool st' pool' i k a x Hi Hx.
  assert (tearing_down (sessions (store st)) (heap (store st)) pool st (fun _ => 3))
    as Hinit.
  { split; [subst pool; unfold JsMap.values; now rewrite !length_map|].
    split; [apply Hwf|].
    intros i0 k0 a0 x0 p Hi0 Hx0 Hp. left.
    assert (In (k0, a0) (sessions (store st))) as Hin
      by (eapply list_elem_of_In, list_elem_of_lookup_2; exact Hi0).
    subst pool. unfold JsMap.values in Hp. rewrite !lookup_map, Hi0 in Hp.
    injection Hp as <-.
    destruct (wf_live _ Hwf k0 a0 Hin) as (x1 & Hx1 & Hid).
    assert (x1 = x0) as -> by congruence.
    split; [now apply stopTask_stopping|].
    split; [apply JsMapFacts.In_get; [apply Hwf|assumption]|assumption]. }
  apply (tearing_down_schedule _ _ sched) in Hinit;
    [|apply Hwf|now apply wf_values|].
  2:{ intros k0 a0 Hin. destruct (wf_live _ Hwf k0 a0 Hin) as (x1 & Hx1 & _). eauto. }
  fold st' pool' in Hinit. destruct Hinit as (Hlen & Hnd & Hfate).
  destruct (lookup_lt_is_Some_2 pool' i) as [p Hp].
  { rewrite Hlen. eauto using lookup_lt_Some. }
  exists p. split; [assumption|].
  destruct (Hfate i k a x p Hi Hx Hp)
    as [(Hstop & Hget & Hheap)|[(-> & Hget & Hheap)|(e & -> & Hget & Hheap)]].
  - rewrite (stopping_unsettled _ _ _ _ _ Hstop).
    split; [split; [now apply JsMapFacts.get_In|assumption]|].
    destruct (3 - count_occ Nat.eq_dec sched i) eqn:Hn; [contradiction|lia].
  - cbn. auto.
  - cbn. split; [now apply JsMapFacts.get_In|assumption].
Qed.

(** ** A stop in flight *)

(** X23: a message that arrives while [stopSession(t)] is suspended at its
    first await is attached to the session that is being torn down.  When
    the stop suspends, it has not settled and the registry is as before;
    in any state with that registry the handler's lookup finds the session,
    and the handler returns it without a request or a change; and once the
    stop resolves, the object the handler holds is [completed] and no
    longer registered. *)
Theorem attach_while_stopping `{World} (st : State) (t : string) (a : ref)
    (s : ClaudeCodeSession) :
  wf_store (store st) ->
  JsMap.get t (sessions (store st)) = Some a ->
  heap (store st) !! a = Some s ->
  let st1 := fst (turn (DockerService.stopSession t) st) in
  let stop := snd (turn (DockerService.stopSession t) st) in
  outcome stop = None /\
  store st1 = store st /\
  (forall st1' c u,
     store st1' = store st1 ->
     run (ClaudeCodeService.processMessage_session c t u) st1' = (st1', Ok a)) /\
  (forall st2, run stop st1 = (st2, Ok tt) ->
     JsMap.get t (sessions (store st2)) = None /\
     heap (store st2) !! a = Some (with_status completed s)).
Proof.
  intros Hwf Hget Hs st1 stop.
  assert (store st1 = store st /\ outcome stop = None) as (Hstore & Hout).
  { subst st1 stop.
    unfold DockerService.stopSession, DockerService.deref, DockerService.sessions_get,
      read, sync.
    cbn [turn bind advance try_catch fst snd store set_store]. rewrite Hget.
    cbn [turn bind advance try_catch fst snd store set_store]. rewrite Hs.
    cbn [turn bind advance try_catch fst snd store set_store await outcome].
    now split. }
  split; [assumption|]. split; [assumption|]. split.
  - intros st1' c u Hsame. apply processMessage_session_attached.
    rewrite Hsame, Hstore, find_by_thread_get by assumption. exact Hget.
  - intros st2 Hrun. subst st1 stop. rewrite <- run_turn in Hrun.
    pose proof (stopSession_completes st t a s Hwf Hget Hs) as Hdone.
    unfold after in Hdone. rewrite Hrun in Hdone. now apply Hdone.
Qed.

(** X24: after [stopSession(k)] resolved, the session is gone for the
    executor: [executeCommand(k, ...)] rejects with [Session not found] and
    [executeClaudeCode(k, ...)] reports that failure, both without a
    request to the engine. *)
Theorem stop_then_execute `{World} (st st' : State) (k msg : string) (cmd : list string) :
  wf_store (store st) ->
  run (DockerService.stopSession k) st = (st', Ok tt) ->
  run (DockerService.executeCommand k cmd) st'
  = (st', Err (Error ("Session not found: " +:+ k))) /\
  run (ClaudeCodeService.executeClaudeCode k msg) st'
  = (st', Ok (ClaudeCodeService.errorResponse (Error ("Session not found: " +:+ k)))).
Proof.
  intros Hwf Hrun.
  assert (JsMap.get k (sessions (store st')) = None) as Hgone.
  { rewrite stopSession_run in Hrun.
    destruct (JsMap.get k (sessions (store st))) as [a|] eqn:Hget;
      [|now injection Hrun as <-].
    destruct (heap (store st) !! a) as [s|]; [|discriminate]. cbv zeta in Hrun.
    destruct (perform (container_stop (containerId s) 10) (world st)) as [w1 [[]|e1]];
      [|discriminate].
    destruct (perform (container_remove (containerId s)) w1) as [w2 [[]|e2]];
      [|discriminate].
    injection Hrun as <-. cbn [store set_store sessions].
    apply JsMapFacts.get_delete_eq, Hwf. }
  rewrite executeCommand_run, executeClaudeCode_run, Hgone. now split.
Qed.

(** ** MattermostService: who rejects, and what a removal sends *)

(** X26: reactions are best effort, messages are not.  [addReaction] and
    [removeReaction] resolve whatever the client answers; [sendMessage]
    makes one [createPost] and rejects exactly when that call is rejected,
    with the same error. *)
Theorem reactions_never_reject {C : Type}
    (answer : forall c, C -> C * Result (MattermostService.ClientReply c))
    (w : C) (log : list MattermostService.ClientCall)
    (postId emojiName channelId message : string) (rootId : option string) :
  snd (MattermostService.run answer (MattermostService.addReaction postId emojiName) w log)
  = Ok tt /\
  snd (MattermostService.run answer (MattermostService.removeReaction postId emojiName) w log)
  = Ok tt /\
  MattermostService.run answer (MattermostService.sendMessage channelId message rootId) w log
  = (fst (answer (MattermostService.createPost channelId message rootId) w),
     log ++ [MattermostService.createPost channelId message rootId],
     match snd (answer (MattermostService.createPost channelId message rootId) w) with
     | Ok _ => Ok tt
     | Err e => Err e
     end).
Proof.
  split; [|split].
  - simpl. destruct (answer MattermostService.getMe w) as [w1 [me|e1]]; [|reflexivity].
    simpl. now destruct (answer (MattermostService.client_addReaction me postId emojiName) w1)
      as [w2 [[]|e2]].
  - simpl. destruct (answer MattermostService.getMe w) as [w1 [me|e1]]; [|reflexivity].
    simpl. now destruct (answer (MattermostService.client_addReaction me postId emojiName) w1)
      as [w2 [[]|e2]].
  - simpl.
    now destruct (answer (MattermostService.createPost channelId message rootId) w)
      as [w1 [[]|e1]].
Qed.

(** X27: [removeReaction] removes nothing.  It asks the client who the bot
    is and then, if that is answered, to add the reaction: the calls, the
    client state and the result are those of [addReaction] on the same
    arguments. *)
Theorem removeReaction_adds {C : Type}
    (answer : forall c, C -> C * Result (MattermostService.ClientReply c))
    (w : C) (log : list MattermostService.ClientCall) (postId emojiName : string) :
  let out := MattermostService.run answer
               (MattermostService.removeReaction postId emojiName) w log in
  out = MattermostService.run answer (MattermostService.addReaction postId emojiName) w log /\
  snd (fst out)
  = log ++ MattermostService.getMe
           :: match snd (answer MattermostService.getMe w) with
              | Ok userId => [MattermostService.client_addReaction userId postId emojiName]
              | Err _ => []
              end.
Proof.
  split; [reflexivity|]. simpl.
  destruct (answer MattermostService.getMe w) as [w1 [me|e1]]; [|reflexivity].
  simpl. destruct (answer (MattermostService.client_addReaction me postId emojiName) w1)
    as [w2 [[]|e2]]; simpl; now rewrite <- app_assoc.
Qed.

(** ** Configuration and webhook *)

Lemma or_default_nonempty (v : option string) (d : string) :
  d <> "" -> ConfigFile.or_default v d <> "".
Proof.
  intros Hd. unfold ConfigFile.or_default, truthy. destruct v as [s|]; [|assumption].
  destruct (String.eqb_spec s ""); simpl; assumption.
Qed.

Lemma or_default_empty (v : option string) :
  ConfigFile.or_default v "" = "" <-> v = None \/ v = Some "".
Proof.
  unfold ConfigFile.or_default, truthy. destruct v as [s|]; [|tauto].
  destruct (String.eqb_spec s "") as [->|Hne]; simpl.
  - tauto.
  - split; [contradiction|]. intros [|[=]]; [discriminate|contradiction].
Qed.

Lemma unset_spec (env : ConfigFile.Env) (v : string) :
  ConfigFile.unset env v = true <-> env v = None \/ env v = Some "".
Proof.
  unfold ConfigFile.unset, truthy. destruct (env v) as [s|]; [|tauto].
  destruct (String.eqb_spec s "") as [->|Hne]; simpl.
  - tauto.
  - split; [discriminate|]. intros [|[=]]; [discriminate|contradiction].
Qed.

(** X28: what the loaded configuration guarantees.  The image name, the
    workspace volume and the Mattermost URL are never empty, set or not;
    the API key and the bot token are empty exactly when their variable is
    reported missing; the URL is reported missing although it has a value;
    and nothing is reported exactly when the three required variables are
    set to non-empty strings. *)
Theorem loaded_config (env : ConfigFile.Env) :
  docker_imageName (ConfigFile.load env) <> "" /\
  docker_workspaceVolume (ConfigFile.load env) <> "" /\
  ConfigFile.mattermost_url env <> "" /\
  (claude_apiKey (ConfigFile.load env) = ""
   <-> In "ANTHROPIC_API_KEY" (ConfigFile.missingVars env)) /\
  (ConfigFile.mattermost_botToken env = ""
   <-> In "MATTERMOST_BOT_TOKEN" (ConfigFile.missingVars env)) /\
  (ConfigFile.missingVars env = []
   <-> forall v, In v ConfigFile.requiredEnvVars -> exists s, env v = Some s /\ s <> "").
Proof.
  assert (forall v, In v ConfigFile.requiredEnvVars ->
            (In v (ConfigFile.missingVars env) <-> env v = None \/ env v = Some ""))
    as Hmiss.
  { intros v Hv. unfold ConfigFile.missingVars. rewrite filter_In, unset_spec. tauto. }
  split; [now apply or_default_nonempty|]. split; [now apply or_default_nonempty|].
  split; [now apply or_default_nonempty|]. split; [|split].
  - cbn [ConfigFile.load claude_apiKey]. rewrite or_default_empty, Hmiss; [tauto|].
    simpl. tauto.
  - unfold ConfigFile.mattermost_botToken. rewrite or_default_empty, Hmiss; [tauto|].
    simpl. tauto.
  - split.
    + intros Hnone v Hv. pose proof (Hmiss v Hv) as Hv'. rewrite Hnone in Hv'.
      destruct (env v) as [s|]; [|exfalso; apply Hv'; now left].
      exists s. split; [reflexivity|]. intros ->. apply Hv'. now right.
    + intros Hall. destruct (ConfigFile.missingVars env) as [|v l] eqn:Hl; [reflexivity|].
      assert (In v ConfigFile.requiredEnvVars) as Hv.
      { assert (In v (ConfigFile.missingVars env)) as Hin by (rewrite Hl; now left).
        unfold ConfigFile.missingVars in Hin. now apply filter_In in Hin. }
      destruct (Hall v Hv) as (s & Hs & Hne).
      destruct (proj1 (Hmiss v Hv) (or_introl eq_refl)); congruence.
Qed.

(** X29: the webhook token check fails open.  When the secret variable is
    unset or empty every payload is processed, whatever its token;
    otherwise a payload is processed exactly when its token is the
    secret. *)
Theorem webhook_token_check (env : ConfigFile.Env) (payload : Webhook.MattermostWebhookPayload) :
  Webhook.authorized (ConfigFile.mattermost_webhookSecret env) payload = true
  <-> env "MATTERMOST_WEBHOOK_SECRET" = None \/
      env "MATTERMOST_WEBHOOK_SECRET" = Some "" \/
      env "MATTERMOST_WEBHOOK_SECRET" = Some (Webhook.token payload).
Proof.
  unfold Webhook.authorized, ConfigFile.mattermost_webhookSecret, ConfigFile.or_default,
    truthy.
  destruct (env "MATTERMOST_WEBHOOK_SECRET") as [s|]; [|simpl; tauto].
  destruct (String.eqb_spec s "") as [->|Hne]; cbn [negb andb].
  - rewrite String.eqb_refl. cbn. tauto.
  - destruct (String.eqb_spec s ""); [contradiction|]. cbn [negb andb].
    destruct (String.eqb_spec (Webhook.token payload) s) as [<-|Hts]; cbn [negb].
    + tauto.
    + split; [discriminate|]. intros [|[[=]|[=]]]; [discriminate|..]; congruence.
Qed.


(** ** The properties above on concrete runs *)

Lemma run_outcome `{World} {A : Type} (p : Prog A) (st : State) (r : Result A) :
  snd (run p st) = r -> run p st = (after p st, r).
Proof. intros <-. apply surjective_pairing. Qed.

Section CalmRuns.
#[local] Existing Instance calm_world.

Lemma stopSession_absent_witness :
  let st := one_session sim0 in
  JsMap.get "t9" (sessions (store st)) = None /\
  run (DockerService.stopSession "t9") st = (st, Ok tt).
Proof.
  intros st.
  assert (JsMap.get "t9" (sessions (store st)) = None) as Hget
    by (vm_compute; reflexivity).
  split; [exact Hget|].
  exact (stopSession_absent (H := calm_world) st "t9" Hget).
Defined.

Lemma stopSession_by_thread_witness :
  let st := one_session sim0 in
  wf_store (store st) /\
  DockerService.find_by_thread "t1" (store st) = JsMap.get "t1" (sessions (store st)) /\
  run (ClaudeCodeService.stopSession "t1") st = run (DockerService.stopSession "t1") st.
Proof.
  intros st. split; [apply wf_one_session|].
  exact (stopSession_by_thread (H := calm_world) st "t1"
           (wf_one_session (H := calm_world) sim0)).
Defined.

Lemma createSession_registers_witness :
  let st := init sim0 in
  let st' := after (DockerService.createSession "t1" "ch" "u") st in
  wf_store (store st) /\
  run (DockerService.createSession "t1" "ch" "u") st = (st', Ok 0%nat) /\
  DockerService.find_by_thread "t1" (store st') = Some 0%nat /\
  JsMap.get "t1" (sessions (store st')) = Some 0%nat.
Proof.
  intros st st'.
  assert (snd (run (DockerService.createSession "t1" "ch" "u") st) = Ok 0%nat) as Hok
    by (vm_compute; reflexivity).
  pose proof (run_outcome _ _ _ Hok) as Hrun.
  split; [exact wf_empty|]. split; [exact Hrun|].
  destruct (createSession_registers (H := calm_world) st st' "t1" "ch" "u" 0%nat
              wf_empty Hrun) as (Hfind & Hget & _).
  split; [exact Hfind|exact Hget].
Defined.

Lemma create_then_stop_witness :
  let st := init sim0 in
  let st1 := after (DockerService.createSession "t1" "ch" "u") st in
  let st2 := after (DockerService.stopSession "t1") st1 in
  wf_store (store st) /\
  JsMap.get "t1" (sessions (store st)) = None /\
  run (DockerService.createSession "t1" "ch" "u") st = (st1, Ok 0%nat) /\
  run (DockerService.stopSession "t1") st1 = (st2, Ok tt) /\
  sessions (store st2) = sessions (store st) /\
  DockerService.find_by_thread "t1" (store st2) = None.
Proof.
  intros st st1 st2.
  assert (snd (run (DockerService.createSession "t1" "ch" "u") st) = Ok 0%nat) as Hok1
    by (vm_compute; reflexivity).
  assert (snd (run (DockerService.stopSession "t1") st1) = Ok tt) as Hok2
    by (vm_compute; reflexivity).
  pose proof (run_outcome _ _ _ Hok1) as Hrun1.
  pose proof (run_outcome _ _ _ Hok2) as Hrun2.
  split; [exact wf_empty|]. split; [reflexivity|].
  split; [exact Hrun1|]. split; [exact Hrun2|].
  destruct (create_then_stop (H := calm_world) st st1 st2 "t1" "ch" "u" 0%nat
              wf_empty eq_refl Hrun1 Hrun2) as (Hmap & Hfind & _).
  split; [exact Hmap|exact Hfind].
Defined.

Lemma stopSession_leaves_others_witness :
  let st := two_sessions sim0 in
  wf_store (store st) /\ "t2" <> "t1" /\
  JsMap.get "t2" (sessions (store (after (DockerService.stopSession "t1") st)))
  = JsMap.get "t2" (sessions (store st)).
Proof.
  intros st.
  assert ("t2" <> "t1") as Hne by discriminate.
  split; [apply wf_two_sessions|]. split; [exact Hne|].
  exact (proj1 (stopSession_leaves_others (H := calm_world) st "t1" "t2"
                  (wf_two_sessions (H := calm_world) sim0) Hne)).
Defined.

Lemma shutdown_exit_means_empty_witness :
  let st := two_sessions sim0 in
  let st' := after Server.shutdown st in
  wf_store (store st) /\
  run Server.shutdown st = (st', Ok tt) /\
  sessions (store st') = [].
Proof.
  intros st st'.
  assert (snd (run Server.shutdown st) = Ok tt) as Hok by (vm_compute; reflexivity).
  pose proof (run_outcome _ _ _ Hok) as Hrun.
  split; [apply wf_two_sessions|]. split; [exact Hrun|].
  exact (proj1 (shutdown_exit_means_empty (H := calm_world) st st'
                  (wf_two_sessions (H := calm_world) sim0) Hrun)).
Defined.

Lemma attach_while_stopping_witness :
  let st := one_session sim0 in
  let s := DockerService.newSession "t1" "t1" "ch" "u" "c0" 2 in
  let st1 := fst (turn (DockerService.stopSession "t1") st) in
  wf_store (store st) /\
  JsMap.get "t1" (sessions (store st)) = Some 0%nat /\
  heap (store st) !! 0%nat = Some s /\
  store st1 = store st /\
  run (ClaudeCodeService.processMessage_session "ch" "t1" "u") st1 = (st1, Ok 0%nat).
Proof.
  intros st s st1.
  assert (JsMap.get "t1" (sessions (store st)) = Some 0%nat) as Hget
    by (vm_compute; reflexivity).
  assert (heap (store st) !! 0%nat = Some s) as Hs by (vm_compute; reflexivity).
  split; [apply wf_one_session|]. split; [exact Hget|]. split; [exact Hs|].
  destruct (attach_while_stopping (H := calm_world) st "t1" 0%nat s
              (wf_one_session (H := calm_world) sim0) Hget Hs)
    as (_ & Hstore & Hattach & _).
  split; [exact Hstore|exact (Hattach st1 "ch" "u" eq_refl)].
Defined.

Lemma stop_then_execute_witness :
  let st := one_session sim0 in
  let st' := after (DockerService.stopSession "t1") st in
  wf_store (store st) /\
  run (DockerService.stopSession "t1") st = (st', Ok tt) /\
  run (DockerService.executeCommand "t1" ["ls"]) st'
  = (st', Err (Error ("Session not found: " +:+ "t1"))).
Proof.
  intros st st'.
  assert (snd (run (DockerService.stopSession "t1") st) = Ok tt) as Hok
    by (vm_compute; reflexivity).
  pose proof (run_outcome _ _ _ Hok) as Hrun.
  split; [apply wf_one_session|]. split; [exact Hrun|].
  exact (proj1 (stop_then_execute (H := calm_world) st st' "t1" "hello" ["ls"]
                  (wf_one_session (H := calm_world) sim0) Hrun)).
Defined.

End CalmRuns.

Section SlowRuns.
#[local] Existing Instance slow_world.

Lemma teardown_only_registered_witness :
  let st := two_sessions sim0 in
  wf_store (store st) /\
  exists l,
    calls (apply_op (op_cleanupOldSessions 0) st) = calls st ++ l /\
    forall r, In r l -> is_teardown r = true -> targets_registered (store st) r.
Proof.
  intros st. split; [apply wf_two_sessions|].
  exact (teardown_only_registered (H := slow_world) (op_cleanupOldSessions 0) st
           (wf_two_sessions (H := slow_world) sim0)).
Defined.

Lemma shutdown_resolves_witness :
  let st := two_sessions sim0 in
  teardown_ok /\ wf_store (store st) /\ snd (run Server.shutdown st) = Ok tt.
Proof.
  intros st. split; [exact slow_teardown_ok|]. split; [apply wf_two_sessions|].
  exact (shutdown_resolves (H := slow_world) st slow_teardown_ok
           (wf_two_sessions (H := slow_world) sim0)).
Defined.
End SlowRuns.

Section StopRejectedRuns.
#[local] Existing Instance stop_rejected_world.

Lemma stopSession_rejected_witness :
  let st := one_session sim0 in
  let st' := after (DockerService.stopSession "t1") st in
  wf_store (store st) /\
  run (DockerService.stopSession "t1") st = (st', Err (Error "cannot stop container")) /\
  store st' = store st.
Proof.
  intros st st'.
  assert (snd (run (DockerService.stopSession "t1") st)
          = Err (Error "cannot stop container")) as Herr by (vm_compute; reflexivity).
  pose proof (run_outcome _ _ _ Herr) as Hrun.
  split; [apply wf_one_session|]. split; [exact Hrun|].
  exact (proj1 (stopSession_rejected (H := stop_rejected_world) st st' "t1" _
                  (wf_one_session (H := stop_rejected_world) sim0) Hrun)).
Defined.

Lemma shutdown_stops_at_first_failure_witness :
  let st := two_sessions sim0 in
  let st' := after Server.shutdown st in
  wf_store (store st) /\
  run Server.shutdown st = (st', Err (Error "cannot stop container")) /\
  exists pre k a s post,
    sessions (store st) = pre ++ (k, a) :: post /\
    heap (store st) !! a = Some s /\
    sessions (store st') = (k, a) :: post.
Proof.
  intros st st'.
  assert (snd (run Server.shutdown st) = Err (Error "cannot stop container")) as Herr
    by (vm_compute; reflexivity).
  pose proof (run_outcome _ _ _ Herr) as Hrun.
  split; [apply wf_two_sessions|]. split; [exact Hrun|].
  destruct (shutdown_stops_at_first_failure (H := stop_rejected_world) st st' _
              (wf_two_sessions (H := stop_rejected_world) sim0) Hrun)
    as (pre & k & a & s & post & Hsplit & Hs & Hleft & _).
  exists pre, k, a, s, post. split; [exact Hsplit|]. split; [exact Hs|exact Hleft].
Defined.

Lemma stopAll_isolates_sessions_witness :
  let st := two_sessions sim0 in
  let sched := [0; 1; 0; 1; 0; 1]%nat in
  let pool := map Server.stopTask (JsMap.values (sessions (store st))) in
  wf_store (store st) /\
  map outcome (snd (run_schedule sched pool st))
  = [Some (Err (Error "cannot stop container")); Some (Ok "t2")] /\
  forall i k a x,
    sessions (store st) !! i = Some (k, a) -> heap (store st) !! a = Some x ->
    exists p,
      snd (run_schedule sched pool st) !! i = Some p /\
      match outcome p with
      | Some (Ok k') =>
          k' = k /\ JsMap.get k (sessions (store (fst (run_schedule sched pool st)))) = None /\
          heap (store (fst (run_schedule sched pool st))) !! a
          = Some (with_status completed x)
      | Some (Err _) => untouched (fst (run_schedule sched pool st)) k a x
      | None => untouched (fst (run_schedule sched pool st)) k a x /\
                count_occ Nat.eq_dec sched i < 3
      end.
Proof.
  intros st sched pool. split; [apply wf_two_sessions|].
  split; [vm_compute; reflexivity|].
  exact (stopAll_isolates_sessions (H := stop_rejected_world) sched st
           (wf_two_sessions (H := stop_rejected_world) sim0)).
Defined.
End StopRejectedRuns.

